(** * Survey dashboard: score derivation and Spearman correlation matrix

    A shallow embedding of the statistical core of the dashboard
    ([spearmanCorrelation], [calculateCorrelationMatrix], [parseCSVData])
    together with the properties of that core stated in the design
    document.

    Conventions of the embedding.
    - A JavaScript number is a value of [number]: a rational, one of the
      two infinities, or NaN.  The operations [js_add], [js_sub], [js_mul]
      and [js_div] are exact on finite values and pass to an infinity at
      the binary64 overflow threshold; [to_binary64] rounds a value to the
      nearest binary64 number.  The two zeros are one value [Fin 0]; no
      division of the program has a negative zero divisor.
    - [spearmanCorrelation] and the definitions built on it compute in
      exact arithmetic, with the integer valued intermediate results (array
      lengths, ranks, the sum of squared rank differences) in [Z] or [nat].
      The module [Binary64] holds the same formula with every operation
      rounded as the program rounds it.  The ranks are the same in both,
      and up to 300079 items so is the sum of squared differences (lemma
      [binary64_spearman_eq]); the statements that depend on the rounding
      are made about [Binary64].
    - A string is a [string] whose characters stand for code units below 256.
*)

From Stdlib Require Import Strings.Ascii Strings.String.
From Stdlib Require Import ZArith QArith Qround Qabs Qpower Lia Lqa Sorted Permutation.
From stdpp Require Import base list.

Local Open Scope Z_scope.

(** ** Numbers *)

Inductive number : Type :=
  | Fin (q : Q)
  | PInf
  | NInf
  | NaN.

(** Magnitudes from [2^1024 - 2^970] on round to an infinity. *)
Definition overflow_threshold : Z := 2 ^ 1024 - 2 ^ 970.

Definition overflow (q : Q) : number :=
  if Qle_bool (inject_Z overflow_threshold) q then PInf
  else if Qle_bool q (- inject_Z overflow_threshold)%Q then NInf
  else Fin (Qred q).

Definition num_of_Z (z : Z) : number := overflow (inject_Z z).

Definition js_neg (a : number) : number :=
  match a with
  | Fin q => Fin (Qred (- q)%Q)
  | PInf => NInf
  | NInf => PInf
  | NaN => NaN
  end.

Definition js_add (a b : number) : number :=
  match a, b with
  | NaN, _ | _, NaN => NaN
  | PInf, NInf | NInf, PInf => NaN
  | PInf, _ | _, PInf => PInf
  | NInf, _ | _, NInf => NInf
  | Fin p, Fin q => overflow (p + q)%Q
  end.

Definition js_sub (a b : number) : number := js_add a (js_neg b).

Definition Qpos_bool (q : Q) : bool := negb (Qle_bool q 0).
Definition Qneg_bool (q : Q) : bool := negb (Qle_bool 0 q).

(** [a / b].  A zero divisor is the positive zero. *)
Definition js_div (a b : number) : number :=
  match a, b with
  | NaN, _ | _, NaN => NaN
  | (PInf | NInf), (PInf | NInf) => NaN
  | PInf, Fin q => if Qneg_bool q then NInf else PInf
  | NInf, Fin q => if Qneg_bool q then PInf else NInf
  | Fin _, (PInf | NInf) => Fin 0
  | Fin p, Fin q =>
      if Qeq_bool q 0 then
        if Qeq_bool p 0 then NaN
        else if Qpos_bool p then PInf else NInf
      else overflow (p / q)%Q
  end.

(** [a * b] *)
Definition js_mul (a b : number) : number :=
  match a, b with
  | NaN, _ | _, NaN => NaN
  | Fin p, Fin q => overflow (p * q)%Q
  | Fin p, PInf | PInf, Fin p =>
      if Qpos_bool p then PInf else if Qneg_bool p then NInf else NaN
  | Fin p, NInf | NInf, Fin p =>
      if Qpos_bool p then NInf else if Qneg_bool p then PInf else NaN
  | PInf, PInf | NInf, NInf => PInf
  | PInf, NInf | NInf, PInf => NInf
  end.

(** [Math.abs] *)
Definition js_abs (a : number) : number :=
  match a with
  | Fin q => Fin (Qred (Qabs q))
  | PInf | NInf => PInf
  | NaN => NaN
  end.

(** [a > b] and [a >= b]; every comparison with NaN is false. *)
Definition js_gt (a b : number) : bool :=
  match a, b with
  | NaN, _ | _, NaN => false
  | Fin p, Fin q => negb (Qle_bool p q)
  | PInf, PInf => false
  | PInf, _ => true
  | _, PInf => false
  | NInf, _ => false
  | Fin _, NInf => true
  end.

Definition js_ge (a b : number) : bool :=
  match a, b with
  | NaN, _ | _, NaN => false
  | Fin p, Fin q => Qle_bool q p
  | PInf, _ => true
  | _, NInf => true
  | _, PInf => false
  | NInf, _ => false
  end.

Definition isNaN (a : number) : bool :=
  match a with NaN => true | _ => false end.

(** [a || b] on numbers: the falsy numbers are zero and NaN. *)
Definition js_or (a b : number) : number :=
  match a with
  | NaN => b
  | Fin q => if Qeq_bool q 0 then b else a
  | _ => a
  end.

(** [parseFloat(a.toFixed(digits))].  [toFixed] prints the decimal with
    [digits] fraction digits nearest to the number, the larger one of two
    equally near; from [10^21] on it prints the number as [String] does, and
    NaN and the infinities print as their names, all of which [parseFloat]
    reads back as the same number. *)
Definition round_half_away (digits : nat) (q : Q) : Q :=
  let scale := inject_Z (10 ^ Z.of_nat digits) in
  let m := (inject_Z (Qfloor (Qabs q * scale + (1 # 2))) / scale)%Q in
  if Qle_bool 0 q then m else (- m)%Q.

Definition parseFloat_toFixed (digits : nat) (a : number) : number :=
  match a with
  | Fin q =>
      if Qle_bool (inject_Z (10 ^ 21)) (Qabs q) then a
      else Fin (Qred (round_half_away digits q))
  | _ => a
  end.

(** ** binary64

    The rounding of a rational to the nearest binary64 value, ties to the
    even significand. *)

(** The exponent of a positive rational: the [e] with [2^e <= q < 2^(e+1)]. *)
Definition Qlog2 (q : Q) : Z :=
  let e := Z.log2 (Qnum q) - Z.log2 (Z.pos (Qden q)) in
  if Qle_bool (2 ^ e) q then e else e - 1.

(** The nearest integer, the even one of two. *)
Definition round_half_even (q : Q) : Z :=
  let m := Qfloor q in
  match (q - inject_Z m ?= 1 # 2)%Q with
  | Lt => m
  | Gt => m + 1
  | Eq => if Z.even m then m else m + 1
  end.

(** The exponent of the binary64 values around [q]: that of the magnitude
    of [q], and -1022 for the subnormal numbers. *)
Definition exponent (q : Q) : Z := Z.max (Qlog2 (Qabs q)) (-1022).

(** The distance between these values, the unit in the last place. *)
Definition ulp (q : Q) : Q := (2 ^ (exponent q - 52))%Q.

(** The nearest binary64 value of a rational: 53 significant bits from
    the exponent -1022 up, multiples of [2^-1074] below.  The passage to
    an infinity is left to [overflow]. *)
Definition binary64 (q : Q) : Q :=
  let m := (inject_Z (round_half_even (Qabs q / ulp q)) * ulp q)%Q in
  if Qle_bool 0 q then m else (- m)%Q.

Definition to_binary64 (a : number) : number :=
  match a with
  | Fin q => overflow (binary64 q)
  | _ => a
  end.

(** ** [Array.prototype.sort]

    The sort is stable.  A comparator result above zero puts the first
    argument after the second; zero and NaN leave the two in their order.
    For a consistent comparator the result is the one every conforming
    engine produces; for an inconsistent one (NaN among the keys) the
    language leaves the order to the engine and this definition fixes the
    order of an insertion sort. *)

Section Sort.
Context {A : Type} (cmp : A -> A -> number).

Definition after (a b : A) : bool := js_gt (cmp a b) (Fin 0).

Fixpoint sort_insert (x : A) (l : list A) : list A :=
  match l with
  | [] => [x]
  | y :: l' => if after x y then y :: sort_insert x l' else x :: l
  end.

Definition js_sort (l : list A) : list A := foldr sort_insert [] l.
End Sort.

(** ** [spearmanCorrelation] *)

(** The objects [{v, i}] are pairs [(v, i)]. *)
Definition by_value (a b : number * nat) : number := js_sub a.1 b.1.

(** [rank] of the source, a closure over [n].  [new Array(n)] is a list of
    [n] placeholders [0]; every slot is overwritten when [arr] has length
    [n] (lemma [rank_lookup]), the only way [rank] is called.  The read
    [sorted[i]] is in range for the same reason. *)
Definition rank (n : nat) (arr : list number) : list Z :=
  let sorted := js_sort by_value (imap (fun i v => (v, i)) arr) in
  fold_left
    (fun ranks i =>
       match sorted !! i with
       | Some e => <[ e.2 := Z.of_nat i + 1 ]> ranks
       | None => ranks
       end)
    (seq 0 n) (replicate n 0).

Definition dSquaredSum (n : nat) (rankX rankY : list Z) : Z :=
  fold_left (fun acc i => acc + (nth i rankX 0 - nth i rankY 0) ^ 2) (seq 0 n) 0.

Definition spearmanCorrelation (x y : list number) : number :=
  let n := length x in
  if negb (n =? length y)%nat || (n =? 0)%nat then Fin 0
  else
    let rankX := rank n x in
    let rankY := rank n y in
    let d := dSquaredSum n rankX rankY in
    let n := Z.of_nat n in
    js_sub (Fin 1)
      (js_div (Fin (inject_Z (6 * d))) (Fin (inject_Z (n * (n * n - 1))))).

(** The same in the arithmetic of the program: every operation rounds its
    exact result to binary64.  [Math.pow(d, 2)] is the rounded square.  The
    ranks are integers below [2^32] and are the ones of [rank]: the
    comparator of the sort only uses the sign of a difference, which
    rounding keeps.  [toFixed] prints the decimal nearest to the exact
    value of its binary64 argument and [parseFloat] reads it back to the
    nearest binary64 value. *)
Module Binary64.

Definition add (a b : number) : number := to_binary64 (js_add a b).
Definition sub (a b : number) : number := to_binary64 (js_sub a b).
Definition mul (a b : number) : number := to_binary64 (js_mul a b).
Definition div (a b : number) : number := to_binary64 (js_div a b).
Definition of_Z (z : Z) : number := to_binary64 (num_of_Z z).

Definition dSquaredSum (n : nat) (rankX rankY : list Z) : number :=
  fold_left
    (fun acc i =>
       let d := sub (of_Z (nth i rankX 0)) (of_Z (nth i rankY 0)) in
       add acc (mul d d))
    (seq 0 n) (Fin 0).

Definition spearmanCorrelation (x y : list number) : number :=
  let n := length x in
  if negb (n =? length y)%nat || (n =? 0)%nat then Fin 0
  else
    let rankX := rank n x in
    let rankY := rank n y in
    let d := dSquaredSum n rankX rankY in
    let n := of_Z (Z.of_nat n) in
    sub (Fin 1) (div (mul (Fin 6) d) (mul n (sub (mul n n) (Fin 1)))).

Definition parseFloat_toFixed (digits : nat) (a : number) : number :=
  to_binary64 (parseFloat_toFixed digits a).

End Binary64.

(** ** [calculateCorrelationMatrix] *)

Record DataItem : Type := {
  id : Z;
  intensity : number;
  dependency : number;
  competence : number;
  alienation : number;
  usageGroup : string
}.

(** The keys of the tuple [variables]. *)
Inductive variable : Type := Intensity | Dependency | Competence | Alienation.

Definition variable_name (k : variable) : string :=
  match k with
  | Intensity => "intensity"
  | Dependency => "dependency"
  | Competence => "competence"
  | Alienation => "alienation"
  end.

(** [d[k]] *)
Definition field (k : variable) (d : DataItem) : number :=
  match k with
  | Intensity => intensity d
  | Dependency => dependency d
  | Competence => competence d
  | Alienation => alienation d
  end.

Record CorrelationItem : Type := {
  var1 : variable;
  var2 : variable;
  label1 : string;
  label2 : string;
  correlation : number;
  significant : bool
}.

Definition variables : list variable :=
  [Intensity; Dependency; Competence; Alienation].

Definition labels : list string :=
  ["Intensitas Digital"; "Ketergantungan Psikologis";
   "Kompetensi Tatap Muka"; "Alienasi Sosial"]%string.

(** The body of the inner loop: the item pushed for the indices [i], [j]. *)
Definition matrix_item (data : list DataItem) (i j : nat) : CorrelationItem :=
  let vi := nth i variables Intensity in
  let vj := nth j variables Intensity in
  let x := map (field vi) data in
  let y := map (field vj) data in
  let corr := spearmanCorrelation x y in
  {| var1 := vi;
     var2 := vj;
     label1 := nth i labels ""%string;
     label2 := nth j labels ""%string;
     correlation := parseFloat_toFixed 3 corr;
     significant := js_ge (js_abs corr) (Fin (1 # 4)) |}.

(** The index pairs in the order the two loops visit them. *)
Definition loop_pairs (len : nat) : list (nat * nat) :=
  flat_map (fun i => map (fun j => (i, j)) (seq (i + 1) (len - (i + 1))))
           (seq 0 len).

(** [matrix] when the loops are done. *)
Definition unsorted_matrix (data : list DataItem) : list CorrelationItem :=
  map (fun ij => matrix_item data ij.1 ij.2) (loop_pairs (length variables)).

Definition by_magnitude (a b : CorrelationItem) : number :=
  js_sub (js_abs (correlation b)) (js_abs (correlation a)).

Definition calculateCorrelationMatrix (data : list DataItem)
  : list CorrelationItem :=
  js_sort by_magnitude (unsorted_matrix data).

(** [correlations] of [ResearchDashboard]. *)
Definition dashboard_correlations (data : list DataItem)
  : list CorrelationItem :=
  if (0 <? length data)%nat then calculateCorrelationMatrix data else [].

(** ** Strings *)

(** White space and line terminators among the code units below 256. *)
Definition is_white (c : ascii) : bool :=
  let n := nat_of_ascii c in
  ((9 <=? n) && (n <=? 13) || (n =? 32) || (n =? 160))%nat.

Fixpoint trimStart (s : string) : string :=
  match s with
  | EmptyString => EmptyString
  | String c s' => if is_white c then trimStart s' else s
  end.

Fixpoint trimEnd (s : string) : string :=
  match s with
  | EmptyString => EmptyString
  | String c s' =>
      match trimEnd s' with
      | EmptyString => if is_white c then EmptyString else String c EmptyString
      | t => String c t
      end
  end.

Definition trim (s : string) : string := trimEnd (trimStart s).

(** [s.split(sep)] for a one character separator *)
Fixpoint split (sep : ascii) (s : string) : list string :=
  match s with
  | EmptyString => [EmptyString]
  | String c s' =>
      if Ascii.eqb c sep then EmptyString :: split sep s'
      else match split sep s' with
           | f :: fs => String c f :: fs
           | [] => [String c EmptyString]
           end
  end.

Definition newline : ascii := ascii_of_nat 10.
Definition quote : ascii := ascii_of_nat 34.
Definition comma : ascii := ascii_of_nat 44.

(** The look-ahead of the field separator, [(?=(?:(?:[^q]*q){2})*[^q]*$)]
    with the double quote for [q]: the rest of the line holds an even
    number of quotes. *)
Fixpoint even_quotes (s : string) : bool :=
  match s with
  | EmptyString => true
  | String c s' => if Ascii.eqb c quote then negb (even_quotes s') else even_quotes s'
  end.

(** [line.split] at every comma the look-ahead accepts. *)
Fixpoint split_fields (line : string) : list string :=
  match line with
  | EmptyString => [EmptyString]
  | String c s' =>
      if Ascii.eqb c comma && even_quotes s' then EmptyString :: split_fields s'
      else match split_fields s' with
           | f :: fs => String c f :: fs
           | [] => [String c EmptyString]
           end
  end.

(** The value of a digit in the radix, if it is one. *)
Definition digit_value (radix : Z) (c : ascii) : option Z :=
  let n := Z.of_nat (nat_of_ascii c) in
  let d := if (48 <=? n) && (n <=? 57) then n - 48
           else if (97 <=? n) && (n <=? 122) then n - 87
           else if (65 <=? n) && (n <=? 90) then n - 55
           else radix in
  if d <? radix then Some d else None.

(** The longest prefix of digits, read as an integer; [None] when the
    prefix is empty. *)
Fixpoint read_digits (radix : Z) (acc : option Z) (s : string) : option Z :=
  match s with
  | EmptyString => acc
  | String c s' =>
      match digit_value radix c with
      | Some d => read_digits radix (Some (default 0 acc * radix + d)) s'
      | None => acc
      end
  end.

(** [parseInt(s)] with no radix argument. *)
Definition parseInt (s : string) : number :=
  let s := trimStart s in
  let '(negative, s) :=
    match s with
    | String "-" r => (true, r)
    | String "+" r => (false, r)
    | _ => (false, s)
    end in
  let '(radix, s) :=
    match s with
    | String "0" (String "x" r) | String "0" (String "X" r) => (16, r)
    | _ => (10, s)
    end in
  match read_digits radix None s with
  | None => NaN
  | Some m => num_of_Z (if negative : bool then - m else m)
  end.

(** [String(values[idx])]: a missing element is [undefined]. *)
Definition element_string (values : list string) (idx : nat) : string :=
  default "undefined"%string (values !! idx).

(** ** [parseCSVData] *)

Definition getVal (values : list string) (idx : nat) : number :=
  js_or (parseInt (element_string values idx)) (Fin 0).

Definition sum_numbers (l : list number) : number :=
  match l with
  | [] => Fin 0
  | a :: l' => fold_left js_add l' a
  end.

Definition intensityScore (values : list string) : number :=
  js_div (sum_numbers (map (getVal values) [2; 4; 5; 18; 19]%nat)) (Fin 5).
Definition dependencyScore (values : list string) : number :=
  js_div (sum_numbers (map (getVal values) [3; 6; 20; 21; 22]%nat)) (Fin 5).
Definition competenceScore (values : list string) : number :=
  js_div (sum_numbers (map (getVal values) [7; 8; 9; 10]%nat)) (Fin 4).
Definition alienationScore (values : list string) : number :=
  js_div (sum_numbers (map (getVal values) [13; 14; 15; 16; 17]%nat)) (Fin 5).

Definition heavy_user : string := "Heavy User (>6 Jam)".
Definition moderate_light : string := "Moderate/Light".

Definition usageGroup_of (values : list string) : string :=
  if js_ge (getVal values 2) (Fin 4) then heavy_user else moderate_light.

(** The callback of [lines.slice(1).map]. *)
Definition parse_line (index : nat) (line : string) : DataItem :=
  let values := split_fields line in
  {| id := Z.of_nat index + 1;
     intensity := parseFloat_toFixed 2 (intensityScore values);
     dependency := parseFloat_toFixed 2 (dependencyScore values);
     competence := parseFloat_toFixed 2 (competenceScore values);
     alienation := parseFloat_toFixed 2 (alienationScore values);
     usageGroup := usageGroup_of values |}.

Definition data_lines (csvText : string) : list string :=
  tail (split newline (trim csvText)).

Definition parseCSVData (csvText : string) : list DataItem :=
  let parsedData := imap parse_line (data_lines csvText) in
  List.filter (fun d => negb (isNaN (intensity d))) parsedData.

(** The variant of the dashboard with the [boldness] column
    ([src/Dashboard.tsx]). *)
Module Variant.

Record DataItem : Type := {
  id : Z;
  intensity : number;
  dependency : number;
  competence : number;
  alienation : number;
  boldness : number;
  usageGroup : string
}.

Definition parse_line (index : nat) (line : string) : DataItem :=
  let values := split_fields line in
  {| id := Z.of_nat index + 1;
     intensity := parseFloat_toFixed 2 (intensityScore values);
     dependency := parseFloat_toFixed 2 (dependencyScore values);
     competence := parseFloat_toFixed 2 (competenceScore values);
     alienation := parseFloat_toFixed 2 (alienationScore values);
     boldness := getVal values 11;
     usageGroup := usageGroup_of values |}.

Definition parseCSVData (csvText : string) : list DataItem :=
  let parsedData := imap parse_line (data_lines csvText) in
  List.filter (fun d => negb (isNaN (intensity d))) parsedData.

End Variant.

(** ** The dashboard: statistics, heat map and loading *)

(** [s.includes(sub)] *)
Fixpoint includes (sub s : string) : bool :=
  String.prefix sub s
  || match s with
     | EmptyString => false
     | String _ s' => includes sub s'
     end.

Definition heavyUsersCount (data : list DataItem) : nat :=
  length (List.filter (fun d => includes "Heavy" (usageGroup d)) data).

(** [data.reduce((a, b) => a + b[k], 0) / data.length], the number the
    overview prints as the average of a variable. *)
Definition mean_score (k : variable) (data : list DataItem) : number :=
  js_div (fold_left (fun a b => js_add a (field k b)) data (Fin 0))
         (Fin (inject_Z (Z.of_nat (length data)))).

(** [correlations.filter(c => c.significant).length] *)
Definition significantCount (correlations : list CorrelationItem) : nat :=
  length (List.filter significant correlations).

(** [correlations.filter(c => !c.significant)], the list of the amber box. *)
Definition insignificant (correlations : list CorrelationItem)
  : list CorrelationItem :=
  List.filter (fun c => negb (significant c)) correlations.

(** An entry is about the labels [l1] and [l2], in either order. *)
Definition labelled (l1 l2 : string) (c : CorrelationItem) : bool :=
  (String.eqb (label1 c) l1 && String.eqb (label2 c) l2)
  || (String.eqb (label1 c) l2 && String.eqb (label2 c) l1).

(** [getCorrelation] of [CorrelationMatrix], over the [correlations] it
    closes over; the object [{correlation, significant}] is a pair. *)
Definition getCorrelation (correlations : list CorrelationItem)
    (l1 l2 : string) : number * bool :=
  if String.eqb l1 l2 then (Fin 1, true)
  else match List.find (labelled l1 l2) correlations with
       | Some found => (correlation found, significant found)
       | None => (Fin 0, false)
       end.

(** [a === b] on numbers *)
Definition js_strict_eq (a b : number) : bool :=
  match a, b with
  | Fin p, Fin q => Qeq_bool p q
  | PInf, PInf | NInf, NInf => true
  | _, _ => false
  end.

Definition gray : string := "bg-slate-100 text-slate-400".

Definition getColor (corr : number) (significant : bool) : string :=
  if negb significant && negb (js_strict_eq corr (Fin 1)) then gray
  else if js_strict_eq corr (Fin 1) then "bg-slate-800 text-white"
  else if js_ge corr (Fin (1 # 2)) then "bg-emerald-500 text-white"
  else if js_ge corr (Fin (1 # 4)) then "bg-emerald-300 text-emerald-900"
  else if js_ge corr (Fin 0) then "bg-emerald-100 text-emerald-700"
  else if js_ge corr (Fin (- (1 # 4))) then "bg-red-100 text-red-700"
  else if js_ge corr (Fin (- (1 # 2))) then "bg-red-300 text-red-900"
  else "bg-red-500 text-white".

(** The class of the coefficient in a row of [CorrelationList]. *)
Definition coefficient_class (corr : number) : string :=
  if js_ge corr (Fin (1 # 2)) then "text-emerald-600"
  else if js_ge corr (Fin (1 # 4)) then "text-emerald-500"
  else if js_ge corr (Fin 0) then "text-slate-400"
  else if js_ge corr (Fin (- (1 # 4))) then "text-slate-400"
  else "text-red-500".

(** What the request for the text comes to: the request, or the reading
    of its body, rejects with a value that is an [Error] with a message or
    is not an [Error], or the request answers with the flag [ok] and a
    text. *)
Inductive fetch_outcome : Type :=
  | Rejected (message : option string)
  | Responded (ok : bool) (text : string).

(** The state of [ResearchDashboard] that the load writes. *)
Record load_state : Type := {
  state_data : list DataItem;
  state_loading : bool;
  state_error : option string
}.

Definition initial_state : load_state :=
  {| state_data := []; state_loading := true; state_error := None |}.

(** The [catch] and [finally] of [fetchData]. *)
Definition failed (message : string) (s : load_state) : load_state :=
  {| state_data := state_data s;
     state_loading := false;
     state_error := Some message |}.

(** [fetchData], as the state it leaves. *)
Definition fetchData (outcome : fetch_outcome) (s : load_state) : load_state :=
  match outcome with
  | Rejected message => failed (default "Terjadi kesalahan"%string message) s
  | Responded false _ => failed "File CSV tidak ditemukan." s
  | Responded true text =>
      let parsed := parseCSVData text in
      if (0 <? length parsed)%nat then
        {| state_data := parsed;
           state_loading := false;
           state_error := state_error s |}
      else failed "Data CSV kosong atau format salah." s
  end.

(** * Vocabulary of the statements *)

(** One round of the loop of [rank]. *)
Definition rank_step (sorted : list (number * nat)) (ranks : list Z) (i : nat)
  : list Z :=
  match sorted !! i with
  | Some e => <[ e.2 := Z.of_nat i + 1 ]> ranks
  | None => ranks
  end.

Definition one_to (n : nat) : list Z := (fun k => Z.of_nat k + 1) <$> seq 0 n.

Fixpoint sumZ (l : list Z) : Z :=
  match l with
  | [] => 0
  | z :: l' => z + sumZ l'
  end.

Definition sq_diff (a b : Z) : Z := (a - b) ^ 2.

(** The coefficient as an exact rational, for at least two items. *)
Definition rho_exact (x y : list number) : Q :=
  let n := Z.of_nat (length x) in
  (1 - inject_Z (6 * dSquaredSum (length x) (rank (length x) x) (rank (length x) y))
       / inject_Z (n * (n * n - 1)))%Q.

(** [-1 <= v && v <= 1] *)
Definition in_unit_range (v : number) : bool :=
  js_ge v (Fin (-1)) && js_ge (Fin 1) v.

(** The objects [{v, i}] of a sequence of finite values. *)
Definition indexed (xs : list Q) : list (number * nat) :=
  imap (fun i v => (v, i)) (Fin <$> xs).

Definition value_lt (a b : number * nat) : Prop :=
  match a.1, b.1 with
  | Fin p, Fin q => (p < q)%Q
  | _, _ => False
  end.

Definition is_fin (a : number * nat) : Prop := exists q, a.1 = Fin q.

(** The values at distinct indices differ. *)
Definition distinct_values (xs : list Q) : Prop :=
  forall i j p q, xs !! i = Some p -> xs !! j = Some q -> i <> j -> ~ (p == q)%Q.

(** In the input of the sort, an object comes before the objects of larger
    index. *)
Definition index_before (xs : list Q) (a b : number * nat) : Prop :=
  (a.2 < b.2)%nat /\ a ∈ indexed xs /\ b ∈ indexed xs.

(** The numbers of values below, above and equal to [p]. *)
Definition count_lt (xs : list Q) (p : Q) : nat :=
  length (List.filter (fun q => negb (Qle_bool p q)) xs).
Definition count_gt (xs : list Q) (p : Q) : nat :=
  length (List.filter (fun q => negb (Qle_bool q p)) xs).
Definition count_eq (xs : list Q) (p : Q) : nat :=
  length (List.filter (fun q => Qeq_bool q p) xs).

(** [ys] orders the indices the opposite way to [xs]. *)
Definition value_order_reversed (xs ys : list Q) : Prop :=
  length xs = length ys /\
  forall i j p q r s,
    xs !! i = Some p -> xs !! j = Some q ->
    ys !! i = Some r -> ys !! j = Some s ->
    ((p < q)%Q <-> (s < r)%Q).

Definition magnitude (e : CorrelationItem) : number := js_abs (correlation e).

(** The place of a pair of variables in the order of the two loops. *)
Definition enumeration_index (e : CorrelationItem) : nat :=
  match var1 e, var2 e with
  | Intensity, Dependency => 0
  | Intensity, Competence => 1
  | Intensity, Alienation => 2
  | Dependency, Competence => 3
  | Dependency, Alienation => 4
  | Competence, Alienation => 5
  | _, _ => 6
  end.

(** Earlier in the result: larger in magnitude, or not smaller and earlier
    in the enumeration. *)
Definition ranked_before (a b : CorrelationItem) : Prop :=
  js_gt (magnitude a) (magnitude b) = true
  \/ (js_gt (magnitude b) (magnitude a) = false
      /\ (enumeration_index a < enumeration_index b)%nat).

Definition enumerated_before (a b : CorrelationItem) : Prop :=
  (enumeration_index a < enumeration_index b)%nat.

#[global] Instance variable_eq_dec : EqDecision variable.
Proof. solve_decision. Defined.

(** The entry is about the unordered pair [{a, b}]. *)
Definition joins (a b : variable) (e : CorrelationItem) : bool :=
  bool_decide ((var1 e = a /\ var2 e = b) \/ (var1 e = b /\ var2 e = a)).

Definition magnitude_ge (a b : CorrelationItem) : Prop :=
  js_ge (magnitude a) (magnitude b) = true.

(** The bound [0.25] on the magnitude of a significant coefficient. *)
Definition significance_threshold : number := Fin (1 # 4).

(** The coefficient an entry was computed from, before it is rounded. *)
Definition coefficient (data : list DataItem) (e : CorrelationItem) : number :=
  spearmanCorrelation (map (field (var1 e)) data) (map (field (var2 e)) data).

(** Twenty respondents whose intensity increases along the list and whose
    dependency has the ranks given. *)
Definition boundary_ranks : list Z :=
  [3; 6; 18; 11; 10; 1; 17; 2; 8; 7; 20; 14; 15; 9; 16; 4; 13; 5; 19; 12].

Definition boundary_data : list DataItem :=
  imap (fun i r =>
          {| id := Z.of_nat i + 1;
             intensity := Fin (Qred ((Z.of_nat i + 5) # 5));
             dependency := Fin (Qred ((r + 4) # 5));
             competence := Fin 3;
             alienation := Fin 3;
             usageGroup := moderate_light |})
       boundary_ranks.

Definition nl : string := String newline EmptyString.

(** A line of 23 columns, the columns 2, 4, 5, 18 and 19 holding 5. *)
Definition example_row : string :=
  "1,1,5,1,5,5,1,1,1,1,1,1,1,1,1,1,1,1,5,5,1,1,1".

Definition example_csv : string := ("h" ++ nl ++ example_row)%string.

Fixpoint all_white (s : string) : bool :=
  match s with
  | EmptyString => true
  | String c s' => is_white c && all_white s'
  end.

(** The record of a line all of whose cells default to 0. *)
Definition zero_item (index : nat) : DataItem :=
  {| id := Z.of_nat index + 1;
     intensity := Fin 0; dependency := Fin 0;
     competence := Fin 0; alienation := Fin 0;
     usageGroup := moderate_light |}.

Definition nines : string :=
  string_of_list_ascii (replicate 309 "9"%char).

(** A line whose column 2 is above and whose column 4 is below every
    finite number. *)
Definition overflowing_row : string := ("0,0," ++ nines ++ ",0,-" ++ nines)%string.

Definition five_columns : list nat := [2; 4; 5; 18; 19]%nat.

Definition synthetic_cell (i : nat) : string :=
  if bool_decide (i ∈ five_columns) then "5"%string else "1"%string.

Fixpoint join_fields (cells : list string) : string :=
  match cells with
  | [] => EmptyString
  | [c] => c
  | c :: cs => (c ++ String comma (join_fields cs))%string
  end.

(** The row of [ncols] columns with 5 in the five columns and 1 elsewhere. *)
Definition synthetic_row (ncols : nat) : string :=
  join_fields (synthetic_cell <$> seq 0 ncols).

Fixpoint no_char (c : ascii) (s : string) : bool :=
  match s with
  | EmptyString => true
  | String a s' => negb (Ascii.eqb a c) && no_char c s'
  end.

Fixpoint ends_non_white (s : string) : bool :=
  match s with
  | EmptyString => false
  | String c EmptyString => negb (is_white c)
  | String c s' => ends_non_white s'
  end.

(** A header line: no line break in it and not blank. *)
Definition header_line (h : string) : Prop :=
  no_char newline h = true /\ all_white h = false.

Definition synthetic_item : DataItem :=
  {| id := 1;
     intensity := Fin 5; dependency := Fin 1;
     competence := Fin 1; alienation := Fin 1;
     usageGroup := heavy_user |}.

(** An integer as a number. *)
Definition int (z : Z) : number := Fin (inject_Z z).

(** The coefficient in binary64 as a rational, for 2 to 300079 items: the
    sum of squared differences is then an exact integer, and the products,
    the quotient and the difference of the formula are rounded. *)
Definition rho_binary64 (x y : list number) : Q :=
  let n := Z.of_nat (length x) in
  let d := dSquaredSum (length x) (rank (length x) x) (rank (length x) y) in
  binary64 (1 - binary64 (binary64 (inject_Z (6 * d))
                          / binary64 (inject_Z (n * (n * n - 1))))).

(** [a, a + 1, ...], [len] integers. *)
Definition Zrange (a : Z) (len : nat) : list Z :=
  (fun k => a + Z.of_nat k) <$> seq 0 len.

(** The integers 1 to 300080 in increasing order, except that 300080 and
    then the three in the middle come last; and their negations. *)
Definition long_ranks : list Z :=
  (Zrange 1 (Z.to_nat 150038) ++ Zrange 150042 (Z.to_nat 150038))
  ++ [300080; 150039; 150040; 150041].

Definition long_xs : list Q := inject_Z <$> long_ranks.

Definition long_ys : list Q := Qopp <$> long_xs.

(** One round of the loop that sums the squared differences, for the rank
    [t] against the rank [c - t]. *)
Definition reversed_step (c : Z) (acc : number) (t : Z) : number :=
  let d := Binary64.sub (Binary64.of_Z t) (Binary64.of_Z (c - t)) in
  Binary64.add acc (Binary64.mul d d).

(** The formula of the coefficient for [n] items and the sum [d]. *)
Definition binary64_formula (n : Z) (d : number) : number :=
  let n := Binary64.of_Z n in
  Binary64.sub (Fin 1)
    (Binary64.div (Binary64.mul (Fin 6) d)
       (Binary64.mul n (Binary64.sub (Binary64.mul n n) (Fin 1)))).

(** ** Vocabulary of the further properties *)

(** The order of the sorted objects: by value, and by index among equal
    values. *)
Definition lex_lt (a b : number * nat) : Prop :=
  match a.1, b.1 with
  | Fin p, Fin q => (p < q)%Q \/ ((p == q)%Q /\ (a.2 < b.2)%nat)
  | _, _ => False
  end.

Definition lex_ltb (a b : number * nat) : bool :=
  match a.1, b.1 with
  | Fin p, Fin q => negb (Qle_bool q p) || (Qeq_bool p q && (a.2 <? b.2)%nat)
  | _, _ => false
  end.

(** Two sequences put their indices in the same order. *)
Definition same_order (xs ys : list Q) : Prop :=
  length xs = length ys /\
  forall i j p q r s,
    xs !! i = Some p -> xs !! j = Some q ->
    ys !! i = Some r -> ys !! j = Some s ->
    ((p < q)%Q <-> (r < s)%Q).

(** A number between 1 and 5. *)
Definition on_scale (v : number) : Prop :=
  exists q, v = Fin q /\ (1 <= q <= 5)%Q.

(** The columns that enter a score. *)
Definition score_columns : list nat :=
  [2; 3; 4; 5; 6; 7; 8; 9; 10; 13; 14; 15; 16; 17; 18; 19; 20; 21; 22]%nat.

Definition carriage_return : string := String (ascii_of_nat 13) EmptyString.

(** [parseInt] once the white space in front is gone. *)
Definition parse_unsigned (negative : bool) (s : string) : number :=
  let '(radix, s) :=
    match s with
    | String "0" (String "x" r) | String "0" (String "X" r) => (16, r)
    | _ => (10, s)
    end in
  match read_digits radix None s with
  | None => NaN
  | Some m => num_of_Z (if negative then - m else m)
  end.

Definition parse_signed (s : string) : number :=
  match s with
  | String "-" r => parse_unsigned true r
  | String "+" r => parse_unsigned false r
  | _ => parse_unsigned false s
  end.

(** [t] appended to the last string of a list. *)
Fixpoint append_last (t : string) (l : list string) : list string :=
  match l with
  | [] => []
  | [f] => [(f ++ t)%string]
  | f :: fs => f :: append_last t fs
  end.

(** The data line a record was read from, found by its identifier. *)
Definition source_line (csvText : string) (d : DataItem) : string :=
  default EmptyString (data_lines csvText !! Z.to_nat (id d - 1)).

(** A record of the variant without its [boldness]. *)
Definition without_boldness (d : Variant.DataItem) : DataItem :=
  {| id := Variant.id d;
     intensity := Variant.intensity d;
     dependency := Variant.dependency d;
     competence := Variant.competence d;
     alienation := Variant.alienation d;
     usageGroup := Variant.usageGroup d |}.

(** A number that is an integer or an infinity. *)
Definition integral (v : number) : Prop :=
  match v with
  | Fin q => exists z : Z, q = inject_Z z
  | PInf | NInf => True
  | NaN => False
  end.

(** * Properties *)

(** ** Numbers *)

Lemma threshold_large : 10 ^ 21 < overflow_threshold.
Proof. vm_compute. reflexivity. Qed.

Lemma overflow_fin (q : Q) :
  (- inject_Z (10 ^ 21) <= q <= inject_Z (10 ^ 21))%Q ->
  overflow q = Fin (Qred q).
Proof.
  intros [Hlo Hhi]. unfold overflow.
  assert (HT : (inject_Z (10 ^ 21) < inject_Z overflow_threshold)%Q).
  { rewrite <- Zlt_Qlt. apply threshold_large. }
  destruct (Qle_bool (inject_Z overflow_threshold) q) eqn:E1.
  { apply Qle_bool_iff in E1. exfalso.
    apply (Qlt_irrefl q). eapply Qle_lt_trans; [apply Hhi|].
    eapply Qlt_le_trans; [apply HT|apply E1]. }
  destruct (Qle_bool q (- inject_Z overflow_threshold)) eqn:E2; [|reflexivity].
  apply Qle_bool_iff in E2. exfalso.
  apply (Qlt_irrefl q). eapply Qle_lt_trans; [apply E2|].
  eapply Qlt_le_trans; [|apply Hlo].
  apply Qopp_lt_compat. exact HT.
Qed.

(** ** The sort is a permutation *)

Section SortFacts.
Context {A : Type} (cmp : A -> A -> number).

Lemma sort_insert_perm (x : A) (l : list A) :
  sort_insert cmp x l ≡ₚ x :: l.
Proof.
  induction l as [|y l IH]; simpl; [reflexivity|].
  destruct (after cmp x y); [|reflexivity].
  rewrite IH. apply perm_swap.
Qed.

Lemma js_sort_perm (l : list A) : js_sort cmp l ≡ₚ l.
Proof.
  induction l as [|x l IH]; simpl; [reflexivity|].
  rewrite sort_insert_perm. by rewrite IH.
Qed.

Lemma js_sort_length (l : list A) : length (js_sort cmp l) = length l.
Proof. apply Permutation_length, js_sort_perm. Qed.
End SortFacts.

(** ** [rank] yields a permutation of [1 .. n] *)

Lemma rank_unfold (n : nat) (arr : list number) :
  rank n arr =
  fold_left (rank_step (js_sort by_value (imap (fun i v => (v, i)) arr)))
            (seq 0 n) (replicate n 0).
Proof. reflexivity. Qed.

Lemma imap_snd_seq (arr : list number) :
  (imap (fun i v => (v, i)) arr).*2 = seq 0 (length arr).
Proof.
  rewrite fmap_imap. rewrite <- (list_fmap_id (seq 0 (length arr))).
  rewrite <- (imap_seq_0 arr). reflexivity.
Qed.

Lemma sorted_indices_perm (arr : list number) :
  (js_sort by_value (imap (fun i v => (v, i)) arr)).*2 ≡ₚ seq 0 (length arr).
Proof. rewrite js_sort_perm. by rewrite imap_snd_seq. Qed.

Lemma fold_rank_step_length sorted l ranks :
  length (fold_left (rank_step sorted) l ranks) = length ranks.
Proof.
  revert ranks. induction l as [|i l IH]; intros ranks; simpl; [done|].
  rewrite IH. unfold rank_step. destruct (sorted !! i); [|done].
  apply length_insert.
Qed.

(** After [m] rounds of the loop the slots named by the first [m] sorted
    objects hold their ranks. *)
Lemma rank_loop_invariant (sorted : list (number * nat)) (n m : nat) :
  NoDup sorted.*2 ->
  (forall e, e ∈ sorted -> (e.2 < n)%nat) ->
  forall k e, (k < m)%nat -> sorted !! k = Some e ->
    fold_left (rank_step sorted) (seq 0 m) (replicate n 0) !! e.2
    = Some (Z.of_nat k + 1).
Proof.
  intros Hnd Hlt. induction m as [|m IH]; intros k e Hk He; [lia|].
  rewrite seq_S, fold_left_app. simpl.
  unfold rank_step at 1.
  destruct (sorted !! m) as [e'|] eqn:Em.
  - destruct (decide (k = m)) as [->|Hne].
    + assert (e' = e) by congruence. subst e'.
      apply list_lookup_insert_eq.
      rewrite fold_rank_step_length, length_replicate.
      apply Hlt. by eapply list_elem_of_lookup_2.
    + rewrite list_lookup_insert_ne.
      * apply IH; [lia|done].
      * intros Heq. apply Hne. symmetry.
        eapply (NoDup_lookup _ _ _ _ Hnd);
          rewrite list_lookup_fmap; [rewrite Em|rewrite He]; simpl; by f_equal.
  - apply IH; [|done].
    apply lookup_ge_None in Em. apply lookup_lt_Some in He. lia.
Qed.

Lemma rank_length (n : nat) (arr : list number) : length (rank n arr) = n.
Proof. rewrite rank_unfold, fold_rank_step_length. apply length_replicate. Qed.

(** The slot of the object at position [k] of the sorted array holds
    [k + 1]. *)
Lemma rank_lookup (arr : list number) (k : nat) (v : number) (i : nat) :
  js_sort by_value (imap (fun i v => (v, i)) arr) !! k = Some (v, i) ->
  rank (length arr) arr !! i = Some (Z.of_nat k + 1).
Proof.
  intros Hk. rewrite rank_unfold.
  apply (rank_loop_invariant _ _ _) with (e := (v, i)); [| | |done].
  - rewrite sorted_indices_perm. apply NoDup_seq.
  - intros e He.
    assert (Hin : e.2 ∈ seq 0 (length arr)).
    { rewrite <- sorted_indices_perm. by apply list_elem_of_fmap_2. }
    apply elem_of_seq in Hin. lia.
  - apply lookup_lt_Some in Hk. by rewrite js_sort_length, length_imap in Hk.
Qed.

(** Every index has a position in the sorted array. *)
Lemma sorted_position (arr : list number) (i : nat) :
  (i < length arr)%nat ->
  exists k v, js_sort by_value (imap (fun i v => (v, i)) arr) !! k = Some (v, i).
Proof.
  intros Hi.
  assert (Hin : i ∈ (js_sort by_value (imap (fun i v => (v, i)) arr)).*2).
  { rewrite sorted_indices_perm. apply elem_of_seq. lia. }
  apply list_elem_of_fmap in Hin as [[v j] [-> Hin]].
  apply list_elem_of_lookup in Hin as [k Hk]. by exists k, v.
Qed.

Lemma rank_perm (arr : list number) :
  rank (length arr) arr ≡ₚ one_to (length arr).
Proof.
  apply submseteq_length_Permutation;
    [apply NoDup_submseteq|].
  - apply NoDup_alt. intros i j z Hi Hj.
    pose proof (lookup_lt_Some _ _ _ Hi) as Hil.
    pose proof (lookup_lt_Some _ _ _ Hj) as Hjl.
    rewrite rank_length in Hil, Hjl.
    destruct (sorted_position arr i Hil) as (ki & vi & Hki).
    destruct (sorted_position arr j Hjl) as (kj & vj & Hkj).
    rewrite (rank_lookup _ _ _ _ Hki) in Hi.
    rewrite (rank_lookup _ _ _ _ Hkj) in Hj.
    assert (ki = kj) by (simplify_eq; lia). subst kj. congruence.
  - intros z Hz. apply list_elem_of_lookup in Hz as [i Hi].
    pose proof (lookup_lt_Some _ _ _ Hi) as Hil. rewrite rank_length in Hil.
    destruct (sorted_position arr i Hil) as (k & v & Hk).
    rewrite (rank_lookup _ _ _ _ Hk) in Hi. simplify_eq.
    apply list_elem_of_fmap. exists k. split; [done|].
    apply elem_of_seq. apply lookup_lt_Some in Hk.
    rewrite js_sort_length, length_imap in Hk. lia.
  - unfold one_to. rewrite rank_length, length_fmap, length_seq. done.
Qed.

(** ** The sum of squared rank differences *)

Lemma fold_left_add_sumZ {B : Type} (g : B -> Z) (l : list B) (acc : Z) :
  fold_left (fun acc i => acc + g i) l acc = acc + sumZ (g <$> l).
Proof.
  revert acc. induction l as [|b l IH]; intros acc; csimpl; [lia|].
  rewrite IH. lia.
Qed.

Lemma dSquaredSum_zip (n : nat) (rx ry : list Z) :
  length rx = n -> length ry = n ->
  dSquaredSum n rx ry = sumZ (zip_with sq_diff rx ry).
Proof.
  intros Hx Hy. unfold dSquaredSum.
  rewrite (fold_left_add_sumZ (fun i => (nth i rx 0 - nth i ry 0) ^ 2)).
  rewrite Z.add_0_l. f_equal.
  apply list_eq. intros i.
  rewrite list_lookup_fmap, lookup_zip_with.
  destruct (decide (i < n)%nat) as [Hi|Hi].
  - rewrite lookup_seq_lt by done. simpl.
    rewrite !nth_lookup.
    destruct (lookup_lt_is_Some_2 rx i) as [a ->]; [lia|].
    destruct (lookup_lt_is_Some_2 ry i) as [b ->]; [lia|].
    reflexivity.
  - rewrite lookup_seq_ge by lia. simpl.
    rewrite (lookup_ge_None_2 rx) by lia. reflexivity.
Qed.

Lemma sumZ_perm (l k : list Z) : l ≡ₚ k -> sumZ l = sumZ k.
Proof. induction 1; simpl; lia. Qed.

Lemma sumZ_sq_diff_nonneg (rx ry : list Z) : 0 <= sumZ (zip_with sq_diff rx ry).
Proof.
  revert ry. induction rx as [|a rx IH]; intros [|b ry]; csimpl; try lia.
  specialize (IH ry). unfold sq_diff at 1. rewrite Z.pow_2_r.
  pose proof (Z.square_nonneg (a - b)). lia.
Qed.

(** Twice a squared difference is at most the two squared distances from
    a common centre. *)
Lemma sumZ_sq_diff_centre (c : Z) (rx ry : list Z) :
  length rx = length ry ->
  2 * sumZ (zip_with sq_diff rx ry)
  <= sumZ ((fun a => (2 * a - c) ^ 2) <$> rx)
     + sumZ ((fun b => (2 * b - c) ^ 2) <$> ry).
Proof.
  revert ry. induction rx as [|a rx IH]; intros [|b ry] Hl; csimpl in *; try lia.
  specialize (IH ry ltac:(lia)). unfold sq_diff at 1. rewrite !Z.pow_2_r.
  pose proof (Z.square_nonneg ((2 * a - c) + (2 * b - c))). lia.
Qed.

(** [sum (2k - c)^2] for [k = 1 .. m] *)
Lemma sumZ_centred_squares (c : Z) (m : nat) :
  3 * sumZ ((fun a => (2 * a - c) ^ 2) <$> one_to m)
  = Z.of_nat m * (4 * Z.of_nat m * Z.of_nat m + 6 * Z.of_nat m + 2)
    - 6 * c * Z.of_nat m * (Z.of_nat m + 1) + 3 * Z.of_nat m * c * c.
Proof.
  unfold one_to. induction m as [|m IH].
  - simpl. lia.
  - rewrite seq_S, !fmap_app. csimpl.
    assert (Happ : forall l z, sumZ (l ++ [z]) = sumZ l + z).
    { induction l as [|y l IHl]; intros z; simpl; [lia|]. rewrite IHl. lia. }
    rewrite Happ, Nat2Z.inj_succ, Z.pow_2_r. nia.
Qed.

Lemma sumZ_centred_ranks (n : nat) :
  3 * sumZ ((fun a => (2 * a - (Z.of_nat n + 1)) ^ 2) <$> one_to n)
  = Z.of_nat n * (Z.of_nat n * Z.of_nat n - 1).
Proof. rewrite sumZ_centred_squares. nia. Qed.

(** Two rankings of [n] items differ by at most [n (n^2 - 1) / 3] in the
    sum of squares. *)
Lemma rank_distance_bound (n : nat) (rx ry : list Z) :
  rx ≡ₚ one_to n -> ry ≡ₚ one_to n ->
  0 <= sumZ (zip_with sq_diff rx ry)
  /\ 3 * sumZ (zip_with sq_diff rx ry) <= Z.of_nat n * (Z.of_nat n * Z.of_nat n - 1).
Proof.
  intros Hx Hy. split; [apply sumZ_sq_diff_nonneg|].
  pose proof (sumZ_sq_diff_centre (Z.of_nat n + 1) rx ry) as Hc.
  rewrite (Permutation_length Hx), (Permutation_length Hy) in Hc.
  specialize (Hc eq_refl).
  rewrite (sumZ_perm _ _ (fmap_Permutation _ _ _ Hx)) in Hc.
  rewrite (sumZ_perm _ _ (fmap_Permutation _ _ _ Hy)) in Hc.
  pose proof (sumZ_centred_ranks n). lia.
Qed.

(** ** The value of [spearmanCorrelation] *)

Lemma spearman_guard (x y : list number) :
  length x <> length y \/ length x = 0%nat -> spearmanCorrelation x y = Fin 0.
Proof.
  intros H. unfold spearmanCorrelation.
  destruct (negb (length x =? length y)%nat || (length x =? 0)%nat) eqn:E; [done|].
  apply orb_false_iff in E as [E1 E2].
  apply negb_false_iff, Nat.eqb_eq in E1. apply Nat.eqb_neq in E2. lia.
Qed.

Lemma spearman_unguarded (x y : list number) :
  length x = length y -> length x <> 0%nat ->
  spearmanCorrelation x y =
  let n := Z.of_nat (length x) in
  js_sub (Fin 1)
    (js_div (Fin (inject_Z (6 * dSquaredSum (length x) (rank (length x) x)
                                  (rank (length x) y))))
            (Fin (inject_Z (n * (n * n - 1))))).
Proof.
  intros Hl Hn. unfold spearmanCorrelation.
  rewrite <- Hl, Nat.eqb_refl. simpl.
  destruct (length x =? 0)%nat eqn:E; [|done].
  apply Nat.eqb_eq in E. lia.
Qed.

Lemma spearman_distance_bound (x y : list number) :
  length x = length y ->
  let d := dSquaredSum (length x) (rank (length x) x) (rank (length x) y) in
  let n := Z.of_nat (length x) in
  0 <= d /\ 3 * d <= n * (n * n - 1).
Proof.
  intros Hl d n. subst d n.
  rewrite dSquaredSum_zip by (rewrite rank_length; done).
  apply rank_distance_bound; [apply rank_perm|].
  rewrite Hl. apply rank_perm.
Qed.

Lemma rho_exact_bounds (x y : list number) :
  length x = length y -> (2 <= length x)%nat ->
  (-1 <= rho_exact x y <= 1)%Q.
Proof.
  intros Hl Hn. unfold rho_exact.
  destruct (spearman_distance_bound x y Hl) as [H0 H3].
  set (d := dSquaredSum _ _ _) in *. set (n := Z.of_nat (length x)) in *.
  assert (HN : 0 < n * (n * n - 1)) by nia.
  set (N := n * (n * n - 1)) in *.
  assert (HNq : (0 < inject_Z N)%Q) by (rewrite <- (Zlt_Qlt 0); done).
  assert (Hq0 : (0 <= inject_Z (6 * d) / inject_Z N)%Q).
  { apply Qle_shift_div_l; [done|]. rewrite Qmult_0_l.
    rewrite <- (Zle_Qle 0). lia. }
  assert (Hq2 : (inject_Z (6 * d) / inject_Z N <= 2)%Q).
  { apply Qle_shift_div_r; [done|].
    change 2%Q with (inject_Z 2). rewrite <- inject_Z_mult, <- Zle_Qle. lia. }
  set (r := (inject_Z (6 * d) / inject_Z N)%Q) in *. lra.
Qed.

Lemma overflow_unit (q : Q) : (-2 <= q <= 2)%Q -> overflow q = Fin (Qred q).
Proof.
  intros [Hlo Hhi]. apply overflow_fin.
  assert (H21 : (2 <= inject_Z (10 ^ 21))%Q) by done.
  split; lra.
Qed.

Lemma spearman_eq_rho_exact (x y : list number) :
  length x = length y -> (2 <= length x)%nat ->
  spearmanCorrelation x y = Fin (Qred (rho_exact x y)).
Proof.
  intros Hl Hn. rewrite spearman_unguarded by (done || lia). cbv zeta.
  pose proof (rho_exact_bounds x y Hl Hn) as Hb. unfold rho_exact in *.
  destruct (spearman_distance_bound x y Hl) as [H0 H3].
  set (d := dSquaredSum _ _ _) in *. set (n := Z.of_nat (length x)) in *.
  assert (HN : 0 < n * (n * n - 1)) by nia.
  set (N := n * (n * n - 1)) in *.
  set (r := (inject_Z (6 * d) / inject_Z N)%Q) in *.
  unfold js_div.
  assert (Hz : Qeq_bool (inject_Z N) 0 = false).
  { destruct (Qeq_bool (inject_Z N) 0) eqn:E; [|done].
    apply Qeq_bool_iff in E. unfold Qeq in E. simpl in E. lia. }
  rewrite Hz. fold r.
  rewrite (overflow_unit r) by lra.
  unfold js_sub, js_neg, js_add.
  rewrite overflow_unit.
  - f_equal. apply Qred_complete. rewrite !Qred_correct. reflexivity.
  - rewrite !Qred_correct. lra.
Qed.

(** ** The sort orders its input *)

Section SortOrder.
Context {A : Type} (cmp : A -> A -> number).
(** [P] holds of the items sorted, [before] is their order in the input
    and [R] the order claimed of the output. *)
Context (P : A -> Prop) (before R : A -> A -> Prop).
Hypothesis R_tie : forall a b, P a -> P b ->
  before a b -> after cmp a b = false -> R a b.
Hypothesis R_swap : forall a b, P a -> P b -> after cmp a b = true -> R b a.
Hypothesis R_trans : forall a b c, P a -> P b -> P c -> R a b -> R b c -> R a c.

Lemma sort_insert_sorted (x : A) (s : list A) :
  P x -> Forall P s -> Forall (before x) s ->
  StronglySorted R s -> StronglySorted R (sort_insert cmp x s).
Proof.
  intros Px HP Hb Hs. induction Hs as [|y s Hs IH Hy]; simpl.
  - repeat constructor.
  - inversion HP as [|? ? Py HP']; subst.
    inversion Hb as [|? ? Hxy Hb']; subst.
    destruct (after cmp x y) eqn:E.
    + constructor; [by apply IH|].
      rewrite sort_insert_perm. constructor; [by apply R_swap|done].
    + assert (Rxy : R x y) by (by apply R_tie).
      constructor; [by constructor|].
      constructor; [done|].
      rewrite Forall_forall in Hy, HP'. apply Forall_forall. intros z Hz.
      apply (R_trans x y z); auto.
Qed.

Lemma js_sort_sorted (l : list A) :
  Forall P l -> StronglySorted before l -> StronglySorted R (js_sort cmp l).
Proof.
  intros HP Hb. induction Hb as [|x l Hb IH Hx]; simpl; [constructor|].
  inversion HP; subst.
  apply sort_insert_sorted; auto; by rewrite js_sort_perm.
Qed.
End SortOrder.

(** ** Ranks of distinct finite values *)

Lemma Qle_bool_false (a b : Q) : Qle_bool a b = false <-> (b < a)%Q.
Proof.
  split; intros H.
  - apply Qnot_le_lt. intros Hle. apply Qle_bool_iff in Hle. congruence.
  - destruct (Qle_bool a b) eqn:E; [|done].
    apply Qle_bool_iff in E. lra.
Qed.

Lemma threshold_pos : (0 < inject_Z overflow_threshold)%Q.
Proof. done. Qed.

(** The comparator of [rank] puts [a] after [b] when its value is larger. *)
Lemma after_by_value_fin (p q : Q) (i j : nat) :
  after by_value (Fin p, i) (Fin q, j) = negb (Qle_bool p q).
Proof.
  unfold after, by_value, js_sub, js_neg, js_add, overflow. simpl.
  pose proof threshold_pos as HT. set (T := inject_Z overflow_threshold) in *.
  pose proof (Qred_correct (- q)) as Hq.
  destruct (Qle_bool T (p + Qred (- q))) eqn:E1; simpl.
  { apply Qle_bool_iff in E1. symmetry. apply negb_true_iff, Qle_bool_false. lra. }
  destruct (Qle_bool (p + Qred (- q)) (- T)) eqn:E2; simpl.
  { apply Qle_bool_iff in E2. symmetry. apply negb_false_iff, Qle_bool_iff. lra. }
  f_equal. pose proof (Qred_correct (p + Qred (- q))) as Hr.
  destruct (Qle_bool p q) eqn:E3.
  - apply Qle_bool_iff in E3. apply Qle_bool_iff. lra.
  - apply Qle_bool_false in E3. apply Qle_bool_false. lra.
Qed.

Lemma indexed_lookup (xs : list Q) (i : nat) :
  indexed xs !! i = (fun q => (Fin q, i)) <$> xs !! i.
Proof.
  unfold indexed. rewrite list_lookup_imap, list_lookup_fmap.
  by destruct (xs !! i).
Qed.

Lemma indexed_elem (xs : list Q) (e : number * nat) :
  e ∈ indexed xs <-> exists q, xs !! e.2 = Some q /\ e = (Fin q, e.2).
Proof.
  rewrite list_elem_of_lookup. split.
  - intros [i Hi]. rewrite indexed_lookup in Hi.
    destruct (xs !! i) as [q|] eqn:E; simplify_eq/=. by exists q.
  - intros (q & Hq & He). exists e.2. rewrite indexed_lookup, Hq. simpl. congruence.
Qed.

Lemma indexed_sorted_by_index (xs : list Q) :
  StronglySorted (index_before xs) (indexed xs).
Proof.
  assert (H : forall (l : list (number * nat)),
     (forall i j a b, (i < j)%nat -> l !! i = Some a -> l !! j = Some b ->
                      index_before xs a b) ->
     StronglySorted (index_before xs) l).
  { induction l as [|a l IH]; intros Hl; constructor.
    - apply IH. intros i j c d Hij Hi Hj. apply (Hl (S i) (S j)); [lia|done..].
    - apply Forall_forall. intros b Hb.
      apply list_elem_of_lookup in Hb as [j Hj].
      apply (Hl 0%nat (S j)); [lia|done..]. }
  apply H. intros i j a b Hij Hi Hj.
  pose proof (list_elem_of_lookup_2 _ _ _ Hi).
  pose proof (list_elem_of_lookup_2 _ _ _ Hj).
  rewrite indexed_lookup in Hi, Hj.
  destruct (xs !! i) eqn:Ei; destruct (xs !! j) eqn:Ej; simplify_eq/=.
  repeat split; simpl; done.
Qed.

Lemma sorted_indexed_strict (xs : list Q) :
  distinct_values xs ->
  StronglySorted value_lt (js_sort by_value (indexed xs)).
Proof.
  intros Hd.
  apply (js_sort_sorted by_value is_fin (index_before xs) value_lt).
  - intros [a i] [b j] [p Hp] [q Hq] (Hij & Ha & Hb) Haft. simpl in *. subst.
    rewrite after_by_value_fin in Haft. apply negb_false_iff, Qle_bool_iff in Haft.
    apply indexed_elem in Ha as (p' & Hp' & ?).
    apply indexed_elem in Hb as (q' & Hq' & ?). simplify_eq/=.
    unfold value_lt. simpl.
    pose proof (Hd i j p' q' Hp' Hq' ltac:(lia)). lra.
  - intros [a i] [b j] [p Hp] [q Hq] Haft. simpl in *. subst.
    rewrite after_by_value_fin in Haft. apply negb_true_iff, Qle_bool_false in Haft.
    done.
  - intros [a i] [b j] [c k] [p Hp] [q Hq] [r Hr]. simpl in *. subst.
    unfold value_lt. simpl. lra.
  - apply Forall_forall. intros e He. apply indexed_elem in He as (q & _ & ->).
    by exists q.
  - apply indexed_sorted_by_index.
Qed.

Lemma value_lt_after (a b : number * nat) :
  value_lt a b -> after by_value b a = true /\ after by_value a b = false.
Proof.
  destruct a as [[p| | |] i], b as [[q| | |] j]; unfold value_lt; simpl; try done.
  intros Hlt. rewrite !after_by_value_fin. split.
  - apply negb_true_iff, Qle_bool_false. done.
  - apply negb_false_iff, Qle_bool_iff. lra.
Qed.

Lemma StronglySorted_middle {A : Type} (R : A -> A -> Prop) (l1 l2 : list A) (e : A) :
  StronglySorted R (l1 ++ e :: l2) ->
  Forall (fun a => R a e) l1 /\ Forall (R e) l2.
Proof.
  induction l1 as [|a l1 IH]; simpl; intros Hs.
  - inversion Hs; subst. split; [constructor|done].
  - inversion Hs as [|? ? Hs' Ha]; subst. destruct (IH Hs') as [H1 H2].
    split; [|done]. constructor; [|done].
    rewrite Forall_forall in Ha. apply Ha, elem_of_app. right. by left.
Qed.

Lemma filter_all {A : Type} (f : A -> bool) (l : list A) :
  Forall (fun a => f a = true) l -> List.filter f l = l.
Proof. induction 1 as [|a l Ha _ IH]; simpl; [done|]. by rewrite Ha, IH. Qed.

Lemma filter_none {A : Type} (f : A -> bool) (l : list A) :
  Forall (fun a => f a = false) l -> List.filter f l = [].
Proof. induction 1 as [|a l Ha _ IH]; simpl; [done|]. by rewrite Ha, IH. Qed.

Lemma filter_length_perm {A : Type} (f : A -> bool) (l k : list A) :
  l ≡ₚ k -> length (List.filter f l) = length (List.filter f k).
Proof.
  induction 1 as [|a l k _ IH|a b l|l k m _ IH1 _ IH2]; simpl.
  - done.
  - destruct (f a); simpl; by rewrite IH.
  - destruct (f a), (f b); done.
  - by rewrite IH1.
Qed.

(** In a strictly increasing array the position of an object is the number
    of objects of smaller value. *)
Lemma position_counts_smaller (l : list (number * nat)) (k : nat) (e : number * nat) :
  StronglySorted value_lt l -> is_fin e -> l !! k = Some e ->
  length (List.filter (fun e' => after by_value e e') l) = k.
Proof.
  intros Hs [p Hp] Hk.
  rewrite <- (take_drop_middle l k e Hk) in Hs |- *.
  apply StronglySorted_middle in Hs as [H1 H2].
  rewrite List.filter_app. simpl.
  destruct e as [v i]. simpl in Hp. subst v.
  rewrite after_by_value_fin.
  replace (Qle_bool p p) with true by (symmetry; apply Qle_bool_iff; lra).
  simpl. rewrite filter_all, filter_none.
  - rewrite length_app, length_take. simpl.
    apply lookup_lt_Some in Hk. lia.
  - eapply Forall_impl; [apply H2|]. intros a Ha. by apply value_lt_after in Ha as [_ ?].
  - eapply Forall_impl; [apply H1|]. intros a Ha. by apply value_lt_after in Ha as [? _].
Qed.

Lemma filter_imap_length {A B : Type} (f : B -> bool) (t : A -> bool) (l : list A) :
  forall g : nat -> A -> B, (forall i a, f (g i a) = t a) ->
  length (List.filter f (imap g l)) = length (List.filter t l).
Proof.
  induction l as [|a l IH]; intros g Hg; simpl; [done|].
  rewrite Hg. specialize (IH (g ∘ S) (fun i a => Hg (S i) a)).
  destruct (t a); simpl; by rewrite IH.
Qed.

Lemma count_smaller_indexed (xs : list Q) (p : Q) (i : nat) :
  length (List.filter (fun e' => after by_value (Fin p, i) e') (indexed xs))
  = count_lt xs p.
Proof.
  unfold indexed, count_lt. rewrite imap_fmap.
  apply filter_imap_length. intros j q. simpl. apply after_by_value_fin.
Qed.

Lemma rank_distinct_lookup (xs : list Q) (i : nat) (p : Q) :
  distinct_values xs -> xs !! i = Some p ->
  rank (length xs) (Fin <$> xs) !! i = Some (Z.of_nat (count_lt xs p) + 1).
Proof.
  intros Hd Hi.
  assert (Hil : (i < length (Fin <$> xs))%nat).
  { rewrite length_fmap. by eapply lookup_lt_Some. }
  destruct (sorted_position _ i Hil) as (k & v & Hk).
  rewrite <- (length_fmap Fin xs). rewrite (rank_lookup _ _ _ _ Hk).
  assert (Hin : (v, i) ∈ indexed xs).
  { unfold indexed. rewrite <- (js_sort_perm by_value). by eapply list_elem_of_lookup_2. }
  apply indexed_elem in Hin as (q & Hq & Hv). simpl in *. simplify_eq.
  pose proof (position_counts_smaller _ k (Fin p, i)
                (sorted_indexed_strict xs Hd) ltac:(by exists p) Hk) as Hc.
  rewrite (filter_length_perm _ _ _ (js_sort_perm by_value (indexed xs))) in Hc.
  rewrite count_smaller_indexed in Hc. by rewrite Hc.
Qed.

Lemma reversed_distinct (xs ys : list Q) :
  distinct_values xs -> value_order_reversed xs ys -> distinct_values ys.
Proof.
  intros Hd [Hl Hr] i j r s Hi Hj Hij Heq.
  destruct (lookup_lt_is_Some_2 xs i) as [p Hp];
    [rewrite Hl; by eapply lookup_lt_Some|].
  destruct (lookup_lt_is_Some_2 xs j) as [q Hq];
    [rewrite Hl; by eapply lookup_lt_Some|].
  pose proof (Hd i j p q Hp Hq Hij) as Hne.
  pose proof (Hr i j p q r s Hp Hq Hi Hj) as H1.
  pose proof (Hr j i q p s r Hq Hp Hj Hi) as H2.
  destruct (Q_dec p q) as [[Hlt|Hgt]|Heq']; [| |done].
  - apply H1 in Hlt. lra.
  - apply H2 in Hgt. lra.
Qed.

Lemma filter_length_pointwise {A B : Type} (f : A -> bool) (g : B -> bool) :
  forall (l : list A) (k : list B), length l = length k ->
  (forall i a b, l !! i = Some a -> k !! i = Some b -> f a = g b) ->
  length (List.filter f l) = length (List.filter g k).
Proof.
  induction l as [|a l IH]; intros [|b k] Hl H; simpl in *; try done.
  rewrite (H 0%nat a b eq_refl eq_refl).
  specialize (IH k ltac:(lia) (fun i => H (S i))).
  destruct (g b); simpl; by rewrite IH.
Qed.

Lemma count_trichotomy (xs : list Q) (p : Q) :
  (count_lt xs p + count_gt xs p + count_eq xs p = length xs)%nat.
Proof.
  unfold count_lt, count_gt, count_eq. induction xs as [|q xs IH]; simpl; [done|].
  destruct (Q_dec q p) as [[Hlt|Hgt]|Heq].
  - replace (Qle_bool p q) with false by (symmetry; by apply Qle_bool_false).
    replace (Qle_bool q p) with true by (symmetry; apply Qle_bool_iff; lra).
    replace (Qeq_bool q p) with false; simpl; [lia|].
    symmetry. destruct (Qeq_bool q p) eqn:E; [|done].
    apply Qeq_bool_iff in E. lra.
  - replace (Qle_bool p q) with true by (symmetry; apply Qle_bool_iff; lra).
    replace (Qle_bool q p) with false by (symmetry; by apply Qle_bool_false).
    replace (Qeq_bool q p) with false; simpl; [lia|].
    symmetry. destruct (Qeq_bool q p) eqn:E; [|done].
    apply Qeq_bool_iff in E. lra.
  - replace (Qle_bool p q) with true by (symmetry; apply Qle_bool_iff; lra).
    replace (Qle_bool q p) with true by (symmetry; apply Qle_bool_iff; lra).
    replace (Qeq_bool q p) with true by (symmetry; by apply Qeq_bool_iff).
    simpl. lia.
Qed.

Lemma count_eq_distinct (xs : list Q) (i : nat) (p : Q) :
  distinct_values xs -> xs !! i = Some p -> count_eq xs p = 1%nat.
Proof.
  intros Hd Hi. unfold count_eq.
  rewrite <- (take_drop_middle xs i p Hi), List.filter_app. simpl.
  replace (Qeq_bool p p) with true by (symmetry; by apply Qeq_bool_iff).
  rewrite !filter_none; [done|..].
  - apply Forall_forall. intros q Hq.
    apply list_elem_of_lookup in Hq as [j Hj].
    rewrite lookup_drop in Hj.
    destruct (Qeq_bool q p) eqn:E; [|done]. apply Qeq_bool_iff in E.
    by destruct (Hd _ _ _ _ Hj Hi ltac:(lia)).
  - apply Forall_forall. intros q Hq.
    apply list_elem_of_lookup in Hq as [j Hj].
    apply lookup_take_Some in Hj as [Hj Hlt].
    destruct (Qeq_bool q p) eqn:E; [|done]. apply Qeq_bool_iff in E.
    by destruct (Hd _ _ _ _ Hj Hi ltac:(lia)).
Qed.

(** Under the reversal the two ranks of an index add up to [n + 1]. *)
Lemma reversed_rank_lookup (xs ys : list Q) (i : nat) (a : Z) :
  distinct_values xs -> value_order_reversed xs ys ->
  rank (length xs) (Fin <$> xs) !! i = Some a ->
  rank (length xs) (Fin <$> ys) !! i = Some (Z.of_nat (length xs) + 1 - a).
Proof.
  intros Hd Hrev Ha. pose proof Hrev as [Hl Hr].
  pose proof (lookup_lt_Some _ _ _ Ha) as Hil. rewrite rank_length in Hil.
  destruct (lookup_lt_is_Some_2 xs i Hil) as [p Hp].
  destruct (lookup_lt_is_Some_2 ys i) as [r Hq]; [lia|].
  rewrite (rank_distinct_lookup xs i p Hd Hp) in Ha.
  rewrite Hl. rewrite (rank_distinct_lookup ys i r (reversed_distinct _ _ Hd Hrev) Hq).
  rewrite <- Hl. f_equal.
  assert (Hc : count_lt ys r = count_gt xs p).
  { unfold count_lt, count_gt. apply filter_length_pointwise; [done|].
    intros j s q Hs Hq'. f_equal.
    pose proof (Hr i j p q r s Hp Hq' Hq Hs) as Hiff.
    destruct (Qle_bool r s) eqn:E1, (Qle_bool q p) eqn:E2; try done.
    - apply Qle_bool_iff in E1. apply Qle_bool_false in E2. apply Hiff in E2. lra.
    - apply Qle_bool_false in E1. apply Qle_bool_iff in E2. apply Hiff in E1. lra. }
  pose proof (count_trichotomy xs p). pose proof (count_eq_distinct xs i p Hd Hp).
  simplify_eq. lia.
Qed.

Lemma reversed_sq_diff (xs ys : list Q) :
  distinct_values xs -> value_order_reversed xs ys ->
  zip_with sq_diff (rank (length xs) (Fin <$> xs)) (rank (length xs) (Fin <$> ys))
  = (fun a => (2 * a - (Z.of_nat (length xs) + 1)) ^ 2)
      <$> rank (length xs) (Fin <$> xs).
Proof.
  intros Hd Hrev. apply list_eq. intros i.
  rewrite lookup_zip_with, list_lookup_fmap.
  destruct (rank (length xs) (Fin <$> xs) !! i) as [a|] eqn:Ea; simpl; [|done].
  rewrite (reversed_rank_lookup xs ys i a Hd Hrev Ea). simpl.
  unfold sq_diff. do 2 f_equal. lia.
Qed.

Lemma reversed_rho_exact (xs ys : list Q) :
  (2 <= length xs)%nat -> distinct_values xs -> value_order_reversed xs ys ->
  (rho_exact (Fin <$> xs) (Fin <$> ys) == -1)%Q.
Proof.
  intros Hn Hd Hrev. unfold rho_exact. rewrite !length_fmap.
  rewrite dSquaredSum_zip by (by rewrite rank_length).
  rewrite (reversed_sq_diff xs ys Hd Hrev).
  pose proof (rank_perm (Fin <$> xs)) as Hp. rewrite length_fmap in Hp.
  rewrite (sumZ_perm _ _ (fmap_Permutation _ _ _ Hp)).
  pose proof (sumZ_centred_ranks (length xs)) as Hs.
  set (total := sumZ _) in *. set (n := Z.of_nat (length xs)) in *.
  assert (HN : 0 < n * (n * n - 1)) by nia.
  replace (6 * total) with (2 * (n * (n * n - 1))) by lia.
  set (N := n * (n * n - 1)) in *.
  rewrite inject_Z_mult.
  assert (HNq : ~ (inject_Z N == 0)%Q).
  { intros E. unfold Qeq in E. simpl in E. lia. }
  field_simplify_eq; [|done]. ring.
Qed.

(** ** Statements about [spearmanCorrelation] *)

Lemma spearman_empty : spearmanCorrelation [] [] = Fin 0.
Proof. reflexivity. Qed.

Lemma spearman_mismatch (x y : list number) :
  length x <> length y -> spearmanCorrelation x y = Fin 0.
Proof. intros H. apply spearman_guard. by left. Qed.

(** C3.  For one item on each side the guard does not apply and the
    formula is evaluated: its divisor [n * (n * n - 1)] is zero, the
    quotient is [0 / 0] and the result is NaN, whatever the two values. *)
Theorem spearman_single_item (a b : number) :
  spearmanCorrelation [a] [b] = js_sub (Fin 1) (js_div (Fin 0) (Fin 0))
  /\ spearmanCorrelation [a] [b] = NaN.
Proof. split; reflexivity. Qed.

(** C1.  Two sequences of one value each, 3.2 and 4: the result is NaN,
    which is not between -1 and 1.  For every other common length up to
    300079 the result is in that range (theorem [spearman_in_range]). *)
Theorem spearman_single_item_out_of_range :
  spearmanCorrelation [Fin (16 # 5)] [Fin 4] = NaN
  /\ in_unit_range (spearmanCorrelation [Fin (16 # 5)] [Fin 4]) = false.
Proof. split; reflexivity. Qed.

(** The negated values are one sequence in the reversed order. *)
Lemma negation_reverses_order (xs : list Q) :
  value_order_reversed xs (Qopp <$> xs).
Proof.
  split; [by rewrite length_fmap|].
  intros i j p q r s Hi Hj Hr Hs.
  rewrite list_lookup_fmap, Hi in Hr. rewrite list_lookup_fmap, Hj in Hs.
  simplify_eq/=. split; intros H; lra.
Qed.

Lemma spearman_negated (xs : list Q) :
  (2 <= length xs)%nat -> distinct_values xs ->
  spearmanCorrelation (Fin <$> xs) (Fin <$> (Qopp <$> xs)) = Fin (-1).
Proof.
  intros Hn Hd.
  rewrite spearman_eq_rho_exact by (by rewrite !length_fmap).
  f_equal. change (-1)%Q with (Qred (-1)). apply Qred_complete.
  apply reversed_rho_exact; [done..|apply negation_reverses_order].
Qed.

Lemma dSquaredSum_comm (n : nat) (rx ry : list Z) :
  dSquaredSum n rx ry = dSquaredSum n ry rx.
Proof.
  unfold dSquaredSum. generalize 0 at 3 6. generalize (seq 0 n).
  induction l as [|i l IH]; intros acc; simpl; [done|].
  rewrite IH. f_equal. f_equal. rewrite !Z.pow_2_r. ring.
Qed.

Lemma spearman_comm (x y : list number) :
  spearmanCorrelation x y = spearmanCorrelation y x.
Proof.
  destruct (decide (length x = length y)) as [Hl|Hl].
  - destruct (decide (length x = 0%nat)) as [H0|H0].
    + rewrite !spearman_guard; [done|right; lia|by right].
    + rewrite !spearman_unguarded by (done || lia). cbv zeta.
      rewrite <- Hl. by rewrite dSquaredSum_comm.
  - rewrite !spearman_guard; [done|left; lia|by left].
Qed.

(** C10.  For sequences of equal length the coefficient of [x] and [y] is
    the coefficient of [y] and [x]. *)
Theorem spearman_symmetric (x y : list number) :
  length x = length y -> spearmanCorrelation x y = spearmanCorrelation y x.
Proof. intros _. apply spearman_comm. Qed.

Lemma spearman_symmetric_witness :
  length [Fin 1; Fin 3; Fin 2] = length [Fin 2; Fin 3; Fin 1]
  /\ spearmanCorrelation [Fin 1; Fin 3; Fin 2] [Fin 2; Fin 3; Fin 1]
     = spearmanCorrelation [Fin 2; Fin 3; Fin 1] [Fin 1; Fin 3; Fin 2].
Proof. split; [reflexivity|apply spearman_symmetric; reflexivity]. Defined.

(** ** Arithmetic in binary64 *)

(** *** Powers of two *)

Lemma pow2_pos (e : Z) : (0 < 2 ^ e)%Q.
Proof. by apply Qpower_0_lt. Qed.

Lemma pow2_le (e e' : Z) : e <= e' -> (2 ^ e <= 2 ^ e')%Q.
Proof. intros H. by apply Qpower_le_compat_l. Qed.

Lemma pow2_lt (e e' : Z) : e < e' -> (2 ^ e < 2 ^ e')%Q.
Proof. intros H. by apply Qpower_lt_compat_l. Qed.

Lemma pow2_lt_inv (e e' : Z) : (2 ^ e < 2 ^ e')%Q -> e < e'.
Proof. intros H. by apply (Qpower_lt_compat_l_inv 2). Qed.

Lemma pow2_add (e e' : Z) : (2 ^ (e + e') == 2 ^ e * 2 ^ e')%Q.
Proof. by apply Qpower_plus. Qed.

Lemma pow2_sub (e e' : Z) : (2 ^ (e - e') == 2 ^ e / 2 ^ e')%Q.
Proof. by apply Qpower_minus. Qed.

Lemma pow2_succ (e : Z) : (2 ^ (e + 1) == 2 * 2 ^ e)%Q.
Proof. rewrite pow2_add. change (2 ^ 1)%Q with 2%Q. ring. Qed.

Lemma pow2_inject (k : Z) : 0 <= k -> (2 ^ k == inject_Z (2 ^ k))%Q.
Proof. intros H. by rewrite Zpower_Qpower. Qed.

(** *** The exponent of a rational *)

Lemma Qlog2_spec (q : Q) :
  (0 < q)%Q -> (2 ^ Qlog2 q <= q)%Q /\ (q < 2 ^ (Qlog2 q + 1))%Q.
Proof.
  intros Hq. destruct q as [a b]. unfold Qlog2. cbn [Qnum Qden].
  assert (Ha : 0 < a).
  { unfold Qlt in Hq. simpl in Hq. lia. }
  set (la := Z.log2 a). set (lb := Z.log2 (Z.pos b)).
  destruct (Z.log2_spec a Ha) as [Ha1 Ha2]. fold la in Ha1, Ha2.
  destruct (Z.log2_spec (Z.pos b) ltac:(lia)) as [Hb1 Hb2]. fold lb in Hb1, Hb2.
  assert (Hla : 0 <= la) by apply Z.log2_nonneg.
  assert (Hlb : 0 <= lb) by apply Z.log2_nonneg.
  assert (Hq' : (a # b == inject_Z a / inject_Z (Z.pos b))%Q) by apply Qmake_Qdiv.
  assert (HB : (0 < inject_Z (Z.pos b))%Q) by (by rewrite <- (Zlt_Qlt 0)).
  assert (Hup : (a # b < 2 ^ (la - lb + 1))%Q).
  { replace (la - lb + 1) with (Z.succ la - lb) by lia.
    rewrite pow2_sub, !pow2_inject by lia. rewrite Hq'.
    apply Qlt_shift_div_l.
    { rewrite <- (Zlt_Qlt 0). apply Z.pow_pos_nonneg; lia. }
    unfold Qdiv. rewrite <- Qmult_assoc, (Qmult_comm (/ _)), Qmult_assoc.
    apply Qlt_shift_div_r; [done|].
    rewrite <- !inject_Z_mult, <- Zlt_Qlt. nia. }
  assert (Hlo : (2 ^ (la - lb - 1) <= a # b)%Q).
  { replace (la - lb - 1) with (la - Z.succ lb) by lia.
    rewrite pow2_sub, !pow2_inject by lia. rewrite Hq'.
    apply Qle_shift_div_r.
    { rewrite <- (Zlt_Qlt 0). apply Z.pow_pos_nonneg; lia. }
    unfold Qdiv. rewrite <- Qmult_assoc, (Qmult_comm (/ _)), Qmult_assoc.
    apply Qle_shift_div_l; [done|].
    rewrite <- !inject_Z_mult, <- Zle_Qle. nia. }
  destruct (Qle_bool (2 ^ (la - lb)) (a # b)) eqn:E.
  - apply Qle_bool_iff in E. split; done.
  - apply Qle_bool_false in E. split; [done|].
    by replace (la - lb - 1 + 1) with (la - lb) by lia.
Qed.

Lemma Qlog2_unique (q : Q) (e : Z) :
  (2 ^ e <= q)%Q -> (q < 2 ^ (e + 1))%Q -> Qlog2 q = e.
Proof.
  intros H1 H2.
  assert (Hq : (0 < q)%Q) by (pose proof (pow2_pos e); lra).
  destruct (Qlog2_spec q Hq) as [H3 H4].
  assert (Qlog2 q < e + 1).
  { apply pow2_lt_inv. lra. }
  assert (e < Qlog2 q + 1).
  { apply pow2_lt_inv. lra. }
  lia.
Qed.

Lemma Qlog2_comp (p q : Q) : (0 < p)%Q -> (p == q)%Q -> Qlog2 p = Qlog2 q.
Proof.
  intros Hp Heq. symmetry. apply Qlog2_unique; rewrite <- Heq; by apply Qlog2_spec.
Qed.

Lemma Qlog2_mono (p q : Q) : (0 < p)%Q -> (p <= q)%Q -> Qlog2 p <= Qlog2 q.
Proof.
  intros Hp Hpq.
  destruct (Qlog2_spec p Hp) as [H1 _].
  destruct (Qlog2_spec q ltac:(lra)) as [_ H2].
  assert (Qlog2 p < Qlog2 q + 1) by (apply pow2_lt_inv; lra). lia.
Qed.

(** *** Rounding to the nearest integer *)

Ltac compare_to_order H :=
  first [ apply (proj2 (Qeq_alt _ _)) in H
        | apply (proj2 (Qlt_alt _ _)) in H
        | apply (proj2 (Qgt_alt _ _)) in H ].

Lemma round_half_even_comp (p q : Q) :
  (p == q)%Q -> round_half_even p = round_half_even q.
Proof.
  intros H. unfold round_half_even. rewrite (Qfloor_comp _ _ H).
  by rewrite H.
Qed.

Lemma round_half_even_Z (z : Z) : round_half_even (inject_Z z) = z.
Proof.
  unfold round_half_even. rewrite Qfloor_Z.
  replace (inject_Z z - inject_Z z ?= 1 # 2)%Q with Lt; [done|].
  symmetry. apply (proj1 (Qlt_alt _ _)). generalize (inject_Z z). intros x. lra.
Qed.

Lemma round_half_even_bounds (q : Q) :
  (q - (1 # 2) <= inject_Z (round_half_even q) <= q + (1 # 2))%Q.
Proof.
  unfold round_half_even.
  pose proof (Qfloor_le q) as H1. pose proof (Qlt_floor q) as H2.
  rewrite inject_Z_plus in H2. change (inject_Z 1) with 1%Q in H2.
  set (m := Qfloor q) in *.
  destruct (q - inject_Z m ?= 1 # 2)%Q eqn:E; compare_to_order E.
  - destruct (Z.even m); [|rewrite inject_Z_plus; change (inject_Z 1) with 1%Q]; lra.
  - lra.
  - rewrite inject_Z_plus. change (inject_Z 1) with 1%Q. lra.
Qed.

Lemma round_half_even_mono (p q : Q) :
  (p <= q)%Q -> round_half_even p <= round_half_even q.
Proof.
  intros Hpq.
  destruct (Qle_lt_or_eq _ _ Hpq) as [Hlt|Heq];
    [|by rewrite (round_half_even_comp _ _ Heq)].
  unfold round_half_even.
  pose proof (Qfloor_le p) as Hp1. pose proof (Qlt_floor p) as Hp2.
  pose proof (Qfloor_le q) as Hq1. pose proof (Qlt_floor q) as Hq2.
  pose proof (Qfloor_resp_le _ _ Hpq) as Hf.
  rewrite inject_Z_plus in Hp2, Hq2. change (inject_Z 1) with 1%Q in Hp2, Hq2.
  set (m := Qfloor p) in *. set (k := Qfloor q) in *.
  destruct (decide (m = k)) as [->|Hne].
  - destruct (p - inject_Z k ?= 1 # 2)%Q eqn:Ep, (q - inject_Z k ?= 1 # 2)%Q eqn:Eq;
      try (destruct (Z.even k)); try lia;
      compare_to_order Ep; compare_to_order Eq; lra.
  - assert (m + 1 <= k) by lia.
    destruct (p - inject_Z m ?= 1 # 2)%Q, (q - inject_Z k ?= 1 # 2)%Q;
      try (destruct (Z.even m)); try (destruct (Z.even k)); lia.
Qed.

Lemma round_half_even_le (q : Q) (z : Z) :
  (q <= inject_Z z)%Q -> round_half_even q <= z.
Proof.
  intros H. rewrite <- (round_half_even_Z z). by apply round_half_even_mono.
Qed.

Lemma round_half_even_ge (q : Q) (z : Z) :
  (inject_Z z <= q)%Q -> z <= round_half_even q.
Proof.
  intros H. rewrite <- (round_half_even_Z z). by apply round_half_even_mono.
Qed.

(** *** Rounding to binary64 *)

Lemma ulp_pos (q : Q) : (0 < ulp q)%Q.
Proof. apply pow2_pos. Qed.

Lemma exponent_upper (q : Q) :
  (0 < Qabs q)%Q -> (Qabs q < 2 ^ (exponent q + 1))%Q.
Proof.
  intros Hq. destruct (Qlog2_spec _ Hq) as [_ H].
  eapply Qlt_le_trans; [exact H|]. apply pow2_le. unfold exponent. lia.
Qed.

Lemma exponent_lower (q : Q) :
  (0 < Qabs q)%Q -> -1022 <= Qlog2 (Qabs q) -> (2 ^ exponent q <= Qabs q)%Q.
Proof.
  intros Hq He. destruct (Qlog2_spec _ Hq) as [H _].
  unfold exponent. by rewrite Z.max_l by lia.
Qed.

Lemma pow2_ulp (q : Q) (k : Z) :
  (2 ^ (exponent q + k) == 2 ^ (52 + k) * ulp q)%Q.
Proof.
  unfold ulp. rewrite <- pow2_add. by replace (52 + k + (exponent q - 52)) with (exponent q + k) by lia.
Qed.

Lemma scaled_upper (q : Q) :
  (0 < Qabs q)%Q -> (Qabs q / ulp q < inject_Z (2 ^ 53))%Q.
Proof.
  intros Hq. apply Qlt_shift_div_r; [apply ulp_pos|].
  rewrite <- pow2_inject by lia. rewrite <- (pow2_ulp q 1).
  by apply exponent_upper.
Qed.

Lemma scaled_lower (q : Q) :
  (0 < Qabs q)%Q -> -1022 <= Qlog2 (Qabs q) ->
  (inject_Z (2 ^ 52) <= Qabs q / ulp q)%Q.
Proof.
  intros Hq He. apply Qle_shift_div_l; [apply ulp_pos|].
  rewrite <- pow2_inject by lia.
  pose proof (pow2_ulp q 0) as H. rewrite !Z.add_0_r in H. rewrite <- H.
  by apply exponent_lower.
Qed.

(** The magnitude of the rounded value. *)
Lemma binary64_abs (q : Q) :
  (Qabs (binary64 q) == inject_Z (round_half_even (Qabs q / ulp q)) * ulp q)%Q.
Proof.
  unfold binary64.
  assert (H0 : (0 <= inject_Z (round_half_even (Qabs q / ulp q)) * ulp q)%Q).
  { apply Qmult_le_0_compat; [|apply Qlt_le_weak, ulp_pos].
    rewrite <- (Zle_Qle 0). apply round_half_even_ge.
    apply Qle_shift_div_l; [apply ulp_pos|]. rewrite Qmult_0_l. apply Qabs_nonneg. }
  destruct (Qle_bool 0 q).
  - by apply Qabs_pos.
  - rewrite Qabs_opp. by apply Qabs_pos.
Qed.

Lemma binary64_nonneg (q : Q) : (0 <= q)%Q -> (0 <= binary64 q)%Q.
Proof.
  intros Hq. unfold binary64.
  apply Qle_bool_iff in Hq. rewrite Hq. apply Qle_bool_iff in Hq.
  apply Qmult_le_0_compat; [|apply Qlt_le_weak, ulp_pos].
  rewrite <- (Zle_Qle 0). apply round_half_even_ge.
  apply Qle_shift_div_l; [apply ulp_pos|]. rewrite Qmult_0_l. apply Qabs_nonneg.
Qed.

Lemma binary64_zero (q : Q) : (q == 0)%Q -> (binary64 q == 0)%Q.
Proof.
  intros Hq. unfold binary64.
  assert (H : (Qabs q / ulp q == inject_Z 0)%Q).
  { assert (Ha : (Qabs q == 0)%Q) by (by rewrite Hq).
    unfold Qdiv. rewrite Ha. change (inject_Z 0) with 0%Q. ring. }
  rewrite (round_half_even_comp _ _ H), round_half_even_Z.
  destruct (Qle_bool 0 q); change (inject_Z 0) with 0%Q; ring.
Qed.

Lemma exponent_comp (p q : Q) : (0 < Qabs p)%Q -> (p == q)%Q -> exponent p = exponent q.
Proof.
  intros Hp Heq. unfold exponent. f_equal. apply Qlog2_comp; [done|by rewrite Heq].
Qed.

Lemma Qabs_pos_iff (q : Q) : ~ (q == 0)%Q -> (0 < Qabs q)%Q.
Proof.
  intros Hq. destruct (Qlt_le_dec 0 (Qabs q)) as [|H]; [done|].
  exfalso. apply Hq. pose proof (Qabs_nonneg q).
  apply Qabs_Qle_condition in H. lra.
Qed.

Lemma binary64_comp (p q : Q) : (p == q)%Q -> (binary64 p == binary64 q)%Q.
Proof.
  intros Heq. destruct (Qeq_dec p 0) as [Hp|Hp].
  - rewrite (binary64_zero p Hp), (binary64_zero q); [done|]. by rewrite <- Heq.
  - unfold binary64, ulp.
    rewrite (exponent_comp p q (Qabs_pos_iff _ Hp) Heq).
    assert (Hs : (Qabs p / 2 ^ (exponent q - 52) == Qabs q / 2 ^ (exponent q - 52))%Q)
      by (by rewrite Heq).
    rewrite (round_half_even_comp _ _ Hs).
    assert (Hb : Qle_bool 0 p = Qle_bool 0 q).
    { destruct (Qle_bool 0 q) eqn:E.
      - apply Qle_bool_iff. apply Qle_bool_iff in E. by rewrite Heq.
      - apply Qle_bool_false. apply Qle_bool_false in E. by rewrite Heq. }
    by rewrite Hb.
Qed.

Lemma binary64_opp (q : Q) : (binary64 (- q) == - binary64 q)%Q.
Proof.
  destruct (Qeq_dec q 0) as [Hq|Hq].
  - rewrite (binary64_zero q Hq), (binary64_zero (- q)); [done|]. by rewrite Hq.
  - unfold binary64, ulp, exponent.
    assert (Ha : Qabs (- q) = Qabs q).
    { destruct q as [a b]. unfold Qabs, Qopp. simpl. by rewrite Z.abs_opp. }
    rewrite Ha.
    destruct (Qle_bool 0 q) eqn:E1, (Qle_bool 0 (- q)) eqn:E2; try ring.
    + apply Qle_bool_iff in E1, E2. exfalso. apply Hq. lra.
    + apply Qle_bool_false in E1, E2. lra.
Qed.

(** A positive value of exponent [e] rounds into [2^e .. 2^(e+1)]. *)
Lemma binary64_upper (q : Q) :
  (0 < q)%Q -> (binary64 q <= 2 ^ (exponent q + 1))%Q.
Proof.
  intros Hq. rewrite <- (Qabs_pos (binary64 q)) by (apply binary64_nonneg; lra).
  rewrite binary64_abs, (pow2_ulp q 1).
  apply Qmult_le_compat_r; [|apply Qlt_le_weak, ulp_pos].
  rewrite pow2_inject by lia. rewrite <- Zle_Qle.
  apply round_half_even_le. apply Qlt_le_weak, scaled_upper.
  by rewrite Qabs_pos by lra.
Qed.

Lemma binary64_lower (q : Q) :
  (0 < q)%Q -> -1022 <= Qlog2 (Qabs q) -> (2 ^ exponent q <= binary64 q)%Q.
Proof.
  intros Hq He. rewrite <- (Qabs_pos (binary64 q)) by (apply binary64_nonneg; lra).
  pose proof (pow2_ulp q 0) as H. rewrite !Z.add_0_r in H.
  rewrite binary64_abs, H.
  apply Qmult_le_compat_r; [|apply Qlt_le_weak, ulp_pos].
  rewrite pow2_inject by lia. rewrite <- Zle_Qle.
  apply round_half_even_ge. apply scaled_lower; [|done].
  by rewrite Qabs_pos by lra.
Qed.

Lemma binary64_mono_pos (p q : Q) :
  (0 < p)%Q -> (p <= q)%Q -> (binary64 p <= binary64 q)%Q.
Proof.
  intros Hp Hpq.
  assert (Hq : (0 < q)%Q) by lra.
  assert (Hap : (Qabs p == p)%Q) by (apply Qabs_pos; lra).
  assert (Haq : (Qabs q == q)%Q) by (apply Qabs_pos; lra).
  assert (Hl : Qlog2 (Qabs p) <= Qlog2 (Qabs q)).
  { apply Qlog2_mono; lra. }
  destruct (decide (exponent p = exponent q)) as [He|He].
  - rewrite <- (Qabs_pos (binary64 p)) by (apply binary64_nonneg; lra).
    rewrite <- (Qabs_pos (binary64 q)) by (apply binary64_nonneg; lra).
    rewrite !binary64_abs. unfold ulp. rewrite He.
    apply Qmult_le_compat_r; [|apply Qlt_le_weak, pow2_pos].
    rewrite <- Zle_Qle. apply round_half_even_mono.
    apply Qmult_le_compat_r; [lra|].
    apply Qlt_le_weak, Qinv_lt_0_compat, pow2_pos.
  - assert (Hlt : exponent p < exponent q) by (unfold exponent in *; lia).
    eapply Qle_trans; [by apply binary64_upper|].
    eapply Qle_trans; [|apply binary64_lower; [done|unfold exponent in *; lia]].
    apply pow2_le. lia.
Qed.

Lemma binary64_mono (p q : Q) : (p <= q)%Q -> (binary64 p <= binary64 q)%Q.
Proof.
  intros Hpq.
  destruct (Qlt_le_dec 0 p) as [Hp|Hp]; [by apply binary64_mono_pos|].
  destruct (Qlt_le_dec q 0) as [Hq|Hq].
  - assert (H : (binary64 (- q) <= binary64 (- p))%Q)
      by (apply binary64_mono_pos; lra).
    rewrite !binary64_opp in H. lra.
  - pose proof (binary64_nonneg q Hq).
    pose proof (binary64_nonneg (- p) ltac:(lra)) as H'.
    rewrite binary64_opp in H'. lra.
Qed.

(** A value whose quotient by its unit in the last place is an integer is
    kept. *)
Lemma binary64_representable (q : Q) (m : Z) :
  (0 <= q)%Q -> (q / ulp q == inject_Z m)%Q -> (binary64 q == q)%Q.
Proof.
  intros Hq Hm. unfold binary64.
  apply Qle_bool_iff in Hq. rewrite Hq. apply Qle_bool_iff in Hq.
  assert (Hs : (Qabs q / ulp q == inject_Z m)%Q).
  { rewrite <- Hm. unfold Qdiv. by rewrite (Qabs_pos q Hq). }
  rewrite (round_half_even_comp _ _ Hs), round_half_even_Z, <- Hm.
  field. apply Qnot_eq_sym, Qlt_not_eq, ulp_pos.
Qed.

Lemma Qlog2_inject_Z (z : Z) : 0 < z -> Qlog2 (inject_Z z) = Z.log2 z.
Proof.
  intros Hz. destruct (Z.log2_spec z Hz) as [H1 H2].
  pose proof (Z.log2_nonneg z).
  apply Qlog2_unique; rewrite pow2_inject by lia.
  - by rewrite <- Zle_Qle.
  - rewrite <- Zlt_Qlt. by rewrite <- Z.add_1_r in H2.
Qed.

Lemma Qabs_inject_Z (z : Z) : Qabs (inject_Z z) = inject_Z (Z.abs z).
Proof. reflexivity. Qed.

(** The integers up to [2^53] are binary64 values. *)
Lemma binary64_Z_pos (z : Z) :
  0 < z <= 2 ^ 53 -> (binary64 (inject_Z z) == inject_Z z)%Q.
Proof.
  intros Hz.
  assert (He : exponent (inject_Z z) = Z.log2 z).
  { unfold exponent. rewrite Qabs_inject_Z, Z.abs_eq by lia.
    rewrite Qlog2_inject_Z by lia. pose proof (Z.log2_nonneg z). lia. }
  assert (Hl : Z.log2 z <= 53).
  { change 53 with (Z.log2 (2 ^ 53)). apply Z.log2_le_mono. lia. }
  pose proof (Z.log2_nonneg z) as Hl0.
  destruct (Z.log2_spec z ltac:(lia)) as [H1 H2].
  destruct (decide (Z.log2 z = 53)) as [E|E].
  - assert (z = 2 ^ 53) by (rewrite E in H1; lia). subst z.
    apply (binary64_representable _ (2 ^ 52)).
    { by rewrite <- (Zle_Qle 0). }
    unfold ulp. rewrite He, E. done.
  - apply (binary64_representable _ (z * 2 ^ (52 - Z.log2 z))).
    { rewrite <- (Zle_Qle 0). lia. }
    unfold ulp. rewrite He.
    replace (Z.log2 z - 52) with (- (52 - Z.log2 z)) by lia.
    rewrite Qpower_opp, pow2_inject by lia.
    rewrite inject_Z_mult. field.
    intros H. unfold Qeq in H. simpl in H.
    assert (0 < 2 ^ (52 - Z.log2 z)) by (apply Z.pow_pos_nonneg; lia). lia.
Qed.

Lemma binary64_Z (z : Z) :
  Z.abs z <= 2 ^ 53 -> (binary64 (inject_Z z) == inject_Z z)%Q.
Proof.
  intros Hz. destruct (Z.lt_trichotomy z 0) as [H|[->|H]].
  - assert (Hn : (inject_Z z == - inject_Z (- z))%Q).
    { rewrite inject_Z_opp. ring. }
    rewrite (binary64_comp _ _ Hn), binary64_opp, binary64_Z_pos by lia.
    rewrite inject_Z_opp. ring.
  - by apply binary64_zero.
  - apply binary64_Z_pos. lia.
Qed.

(** Doubling commutes with the rounding of a normal value. *)
Lemma binary64_double (q : Q) :
  (0 < q)%Q -> -1022 <= Qlog2 q -> (binary64 (2 * q) == 2 * binary64 q)%Q.
Proof.
  intros Hq He.
  destruct (Qlog2_spec q Hq) as [H1 H2].
  assert (Hl : Qlog2 (2 * q) = Qlog2 q + 1).
  { rewrite pow2_succ in H2.
    apply Qlog2_unique; rewrite !pow2_succ;
      set (t := (2 ^ Qlog2 q)%Q) in *; clearbody t; lra. }
  clear H1 H2.
  assert (Ha : (Qabs q == q)%Q) by (apply Qabs_pos; lra).
  assert (Ha2 : (Qabs (2 * q) == 2 * q)%Q) by (apply Qabs_pos; lra).
  assert (Hex : exponent (2 * q) = exponent q + 1).
  { unfold exponent.
    rewrite (Qlog2_comp (Qabs (2 * q)) (2 * q)) by (done || rewrite Ha2; lra).
    rewrite (Qlog2_comp (Qabs q) q) by (done || rewrite Ha; lra). lia. }
  assert (Hu : (ulp (2 * q) == 2 * ulp q)%Q).
  { unfold ulp. rewrite Hex.
    replace (exponent q + 1 - 52) with (exponent q - 52 + 1) by lia.
    apply pow2_succ. }
  pose proof (ulp_pos q) as Hup.
  assert (Hs : (Qabs (2 * q) / ulp (2 * q) == Qabs q / ulp q)%Q).
  { rewrite Ha2, Ha, Hu. field. lra. }
  unfold binary64 at 1 2.
  assert (Hb : Qle_bool 0 (2 * q) = true) by (apply Qle_bool_iff; lra).
  assert (Hb' : Qle_bool 0 q = true) by (apply Qle_bool_iff; lra).
  rewrite Hb, Hb', (round_half_even_comp _ _ Hs), Hu. ring.
Qed.

(** The rounding error is at most half a unit in the last place. *)
Lemma binary64_error (q : Q) :
  (Qabs (binary64 q - q) <= (1 # 2) * ulp q)%Q.
Proof.
  pose proof (ulp_pos q) as Hu.
  pose proof (round_half_even_bounds (Qabs q / ulp q)) as Hr.
  set (m := inject_Z (round_half_even (Qabs q / ulp q))) in *.
  assert (Hm : (Qabs q - (1 # 2) * ulp q <= m * ulp q <= Qabs q + (1 # 2) * ulp q)%Q).
  { assert (Hd : (Qabs q / ulp q * ulp q == Qabs q)%Q) by (field; lra).
    set (x := (Qabs q / ulp q)%Q) in *. set (a := Qabs q) in *.
    set (u := ulp q) in *. clearbody x a u m.
    assert (H1 : (0 <= (m - (x - (1 # 2))) * u)%Q)
      by (apply Qmult_le_0_compat; lra).
    assert (H2 : (0 <= (x + (1 # 2) - m) * u)%Q)
      by (apply Qmult_le_0_compat; lra).
    split; lra. }
  apply Qabs_Qle_condition. unfold binary64. fold m.
  destruct (Qle_bool 0 q) eqn:E.
  - apply Qle_bool_iff in E. rewrite (Qabs_pos q E) in Hm. lra.
  - apply Qle_bool_false in E. rewrite (Qabs_neg q) in Hm by lra. lra.
Qed.

(** A normal positive value at most doubles. *)
Lemma binary64_le_double (q : Q) :
  (0 < q)%Q -> -1022 <= Qlog2 q -> (binary64 q <= 2 * q)%Q.
Proof.
  intros Hq He.
  assert (Ha : (Qabs q == q)%Q) by (apply Qabs_pos; lra).
  eapply Qle_trans; [by apply binary64_upper|].
  rewrite pow2_succ.
  assert (Hp : (0 < Qabs q)%Q) by (rewrite Ha; lra).
  pose proof (exponent_lower q Hp) as H.
  rewrite (Qlog2_comp (Qabs q) q Hp Ha) in H. specialize (H He). rewrite Ha in H.
  set (t := (2 ^ exponent q)%Q) in *. clearbody t. lra.
Qed.

(** *** Integers in binary64 *)

Lemma Qred_inject_Z (z : Z) : Qred (inject_Z z) = inject_Z z.
Proof.
  unfold Qred, inject_Z.
  pose proof (Z.ggcd_correct_divisors z 1) as D.
  pose proof (Z.ggcd_gcd z 1) as G. rewrite Z.gcd_1_r in G.
  destruct (Z.ggcd z 1) as [g [aa bb]]. simpl in G. subst g.
  destruct D as [-> D]. rewrite Z.mul_1_l in D. subst bb.
  by rewrite Z.mul_1_l.
Qed.

Lemma overflow_int (q : Q) (z : Z) :
  (q == inject_Z z)%Q -> Z.abs z <= 10 ^ 21 -> overflow q = int z.
Proof.
  intros Hq Hz. rewrite overflow_fin.
  - unfold int. f_equal. rewrite <- Qred_inject_Z. by apply Qred_complete.
  - rewrite Hq, <- inject_Z_opp, <- !Zle_Qle. lia.
Qed.

Lemma to_binary64_int (z : Z) : Z.abs z <= 2 ^ 53 -> to_binary64 (int z) = int z.
Proof.
  intros Hz. unfold to_binary64, int. apply overflow_int; [by apply binary64_Z|lia].
Qed.

Lemma js_add_int (a b : Z) :
  Z.abs (a + b) <= 10 ^ 21 -> js_add (int a) (int b) = int (a + b).
Proof.
  intros H. unfold js_add, int. apply overflow_int; [|done].
  by rewrite inject_Z_plus.
Qed.

Lemma js_sub_int (a b : Z) :
  Z.abs (a - b) <= 10 ^ 21 -> js_sub (int a) (int b) = int (a - b).
Proof.
  intros H. unfold js_sub, js_neg, js_add, int. apply overflow_int; [|done].
  rewrite Qred_correct. unfold Z.sub. rewrite inject_Z_plus, inject_Z_opp. done.
Qed.

Lemma js_mul_int (a b : Z) :
  Z.abs (a * b) <= 10 ^ 21 -> js_mul (int a) (int b) = int (a * b).
Proof.
  intros H. unfold js_mul, int. apply overflow_int; [|done].
  by rewrite inject_Z_mult.
Qed.

Lemma binary64_of_Z_int (z : Z) : Z.abs z <= 2 ^ 53 -> Binary64.of_Z z = int z.
Proof.
  intros H. unfold Binary64.of_Z, num_of_Z.
  rewrite (overflow_int _ z) by (done || lia). by apply to_binary64_int.
Qed.

Lemma binary64_add_int (a b : Z) :
  Z.abs (a + b) <= 2 ^ 53 -> Binary64.add (int a) (int b) = int (a + b).
Proof.
  intros H. unfold Binary64.add. rewrite js_add_int by lia. by apply to_binary64_int.
Qed.

Lemma binary64_sub_int (a b : Z) :
  Z.abs (a - b) <= 2 ^ 53 -> Binary64.sub (int a) (int b) = int (a - b).
Proof.
  intros H. unfold Binary64.sub. rewrite js_sub_int by lia. by apply to_binary64_int.
Qed.

Lemma binary64_mul_int (a b : Z) :
  Z.abs (a * b) <= 2 ^ 53 -> Binary64.mul (int a) (int b) = int (a * b).
Proof.
  intros H. unfold Binary64.mul. rewrite js_mul_int by lia. by apply to_binary64_int.
Qed.

(** A larger integer is rounded, and stays finite. *)
Lemma to_binary64_large (z : Z) :
  0 < z <= 2 ^ 60 ->
  to_binary64 (int z) = Fin (Qred (binary64 (inject_Z z)))
  /\ (0 < binary64 (inject_Z z))%Q.
Proof.
  intros Hz.
  assert (Hq : (0 < inject_Z z)%Q) by (rewrite <- (Zlt_Qlt 0); lia).
  assert (Hl : -1022 <= Qlog2 (inject_Z z)).
  { rewrite Qlog2_inject_Z by lia. pose proof (Z.log2_nonneg z). lia. }
  assert (Ha : (Qabs (inject_Z z) == inject_Z z)%Q) by (apply Qabs_pos; lra).
  assert (Hl' : -1022 <= Qlog2 (Qabs (inject_Z z))).
  { rewrite Qabs_inject_Z, Z.abs_eq by lia. done. }
  pose proof (binary64_le_double _ Hq Hl) as Hup.
  pose proof (binary64_lower _ Hq Hl') as Hlo.
  pose proof (pow2_pos (exponent (inject_Z z))) as Hp.
  split; [|lra].
  unfold to_binary64, int. apply overflow_fin.
  assert (Hb : (2 * inject_Z z <= inject_Z (10 ^ 21))%Q).
  { change 2%Q with (inject_Z 2). rewrite <- inject_Z_mult, <- Zle_Qle. lia. }
  assert (H21 : (0 <= inject_Z (10 ^ 21))%Q) by done.
  split; lra.
Qed.

(** *** The sum of squared differences in binary64 *)

Lemma dSquaredSum_succ (k : nat) (rx ry : list Z) :
  dSquaredSum (S k) rx ry = dSquaredSum k rx ry + (nth k rx 0 - nth k ry 0) ^ 2.
Proof. unfold dSquaredSum. by rewrite seq_S, fold_left_app. Qed.

Lemma binary64_dSquaredSum_succ (k : nat) (rx ry : list Z) :
  Binary64.dSquaredSum (S k) rx ry
  = let d := Binary64.sub (Binary64.of_Z (nth k rx 0)) (Binary64.of_Z (nth k ry 0)) in
    Binary64.add (Binary64.dSquaredSum k rx ry) (Binary64.mul d d).
Proof. unfold Binary64.dSquaredSum. by rewrite seq_S, fold_left_app. Qed.

Lemma dSquaredSum_nonneg (k : nat) (rx ry : list Z) : 0 <= dSquaredSum k rx ry.
Proof.
  induction k as [|k IH]; [done|].
  rewrite dSquaredSum_succ, Z.pow_2_r.
  pose proof (Z.square_nonneg (nth k rx 0 - nth k ry 0)). lia.
Qed.

(** As long as the sum is at most [2^53], no addition rounds. *)
Lemma binary64_dSquaredSum_exact (k : nat) (rx ry : list Z) :
  (forall i, Z.abs (nth i rx 0) <= 2 ^ 53) ->
  (forall i, Z.abs (nth i ry 0) <= 2 ^ 53) ->
  dSquaredSum k rx ry <= 2 ^ 53 ->
  Binary64.dSquaredSum k rx ry = int (dSquaredSum k rx ry).
Proof.
  intros Hx Hy. induction k as [|k IH]; intros Hs; [done|].
  rewrite binary64_dSquaredSum_succ. cbv zeta.
  rewrite dSquaredSum_succ, Z.pow_2_r in Hs |- *.
  pose proof (dSquaredSum_nonneg k rx ry) as H0.
  pose proof (Z.square_nonneg (nth k rx 0 - nth k ry 0)) as Hsq.
  set (a := nth k rx 0) in *. set (b := nth k ry 0) in *.
  assert (Hd : Z.abs (a - b) <= 2 ^ 53) by nia.
  rewrite IH by lia.
  rewrite !binary64_of_Z_int by (apply Hx || apply Hy).
  rewrite binary64_sub_int by done. rewrite binary64_mul_int by lia. rewrite binary64_add_int by lia.
  done.
Qed.

(** *** The coefficient in binary64 *)

Lemma rank_range (x : list number) (i : nat) :
  0 <= nth i (rank (length x) x) 0 <= Z.of_nat (length x).
Proof.
  rewrite nth_lookup.
  destruct (rank (length x) x !! i) as [r|] eqn:E; simpl; [|lia].
  apply list_elem_of_lookup_2 in E. rewrite (rank_perm x) in E.
  apply list_elem_of_fmap in E as (k & -> & Hk). apply elem_of_seq in Hk. lia.
Qed.

Lemma cube_bound (n : Z) : 0 <= n <= 300079 -> n * (n * n - 1) <= 3 * 2 ^ 53.
Proof. intros H. nia. Qed.

Lemma binary64_spearman_guard (x y : list number) :
  length x <> length y \/ length x = 0%nat ->
  Binary64.spearmanCorrelation x y = Fin 0.
Proof.
  intros H. unfold Binary64.spearmanCorrelation.
  destruct (negb (length x =? length y)%nat || (length x =? 0)%nat) eqn:E; [done|].
  apply orb_false_iff in E as [E1 E2].
  apply negb_false_iff, Nat.eqb_eq in E1. apply Nat.eqb_neq in E2. lia.
Qed.

Lemma to_binary64_small (q : Q) :
  (-2 <= q <= 2)%Q ->
  to_binary64 (Fin q) = Fin (Qred (binary64 q)) /\ (-2 <= binary64 q <= 2)%Q.
Proof.
  intros [Hlo Hhi].
  assert (H2 : (binary64 2 == 2)%Q) by apply (binary64_Z 2 ltac:(lia)).
  assert (Hm2 : (binary64 (-2) == -2)%Q) by apply (binary64_Z (-2) ltac:(lia)).
  pose proof (binary64_mono _ _ Hlo) as H1. pose proof (binary64_mono _ _ Hhi) as H3.
  rewrite Hm2 in H1. rewrite H2 in H3.
  split; [|done]. unfold to_binary64. by apply overflow_unit.
Qed.

(** With 2 to 300079 items the sum of squared differences and the square
    of the length are exact, and the rest of the formula is rounded. *)
Lemma binary64_spearman_eq (x y : list number) :
  length x = length y -> 2 <= Z.of_nat (length x) <= 300079 ->
  Binary64.spearmanCorrelation x y = Fin (Qred (rho_binary64 x y))
  /\ (-1 <= rho_binary64 x y <= 1)%Q.
Proof.
  intros Hl Hn. unfold Binary64.spearmanCorrelation, rho_binary64.
  rewrite <- Hl, Nat.eqb_refl. cbn [negb orb].
  destruct (length x =? 0)%nat eqn:E; [apply Nat.eqb_eq in E; lia|]. clear E.
  destruct (spearman_distance_bound x y Hl) as [H0 H3]. cbv zeta in H0, H3.
  set (d := dSquaredSum _ _ _) in *. set (n := Z.of_nat (length x)) in *.
  assert (Hn' : 2 <= n <= 300079) by (unfold n; lia).
  pose proof (cube_bound n ltac:(lia)) as HN.
  assert (HN0 : 0 < n * (n * n - 1)) by nia.
  assert (Hnn : n * n <= 2 ^ 53) by nia.
  rewrite binary64_dSquaredSum_exact; fold d; cycle 1.
  { intros i. pose proof (rank_range x i). lia. }
  { intros i. pose proof (rank_range y i). rewrite <- Hl in *. lia. }
  { lia. }
  change (Fin 6) with (int 6). change (Fin 1) with (int 1).
  rewrite binary64_of_Z_int by lia. rewrite (binary64_mul_int n n) by lia.
  rewrite binary64_sub_int by lia.
  unfold Binary64.mul at 1 2. rewrite !js_mul_int by lia.
  set (N := n * (n * n - 1)) in *.
  destruct (to_binary64_large N ltac:(lia)) as [-> HbN].
  assert (Hd : to_binary64 (int (6 * d)) = Fin (Qred (binary64 (inject_Z (6 * d))))
               /\ (0 <= binary64 (inject_Z (6 * d)))%Q).
  { destruct (decide (d = 0)) as [->|Hd0].
    - split; [by rewrite to_binary64_int|]. apply binary64_nonneg. done.
    - destruct (to_binary64_large (6 * d) ltac:(lia)) as [-> H]. split; [done|lra]. }
  destruct Hd as [-> Hbd].
  (* the numerator is at most twice the divisor *)
  assert (H2N : (binary64 (inject_Z (6 * d)) <= 2 * binary64 (inject_Z N))%Q).
  { rewrite <- binary64_double.
    - apply binary64_mono. change 2%Q with (inject_Z 2).
      rewrite <- inject_Z_mult, <- Zle_Qle. lia.
    - rewrite <- (Zlt_Qlt 0). lia.
    - rewrite Qlog2_inject_Z by lia. pose proof (Z.log2_nonneg N). lia. }
  set (a := binary64 (inject_Z (6 * d))) in *.
  set (b := binary64 (inject_Z N)) in *.
  assert (Ht : (0 <= a / b <= 2)%Q).
  { split.
    - apply Qle_shift_div_l; [done|]. lra.
    - apply Qle_shift_div_r; [done|]. lra. }
  unfold Binary64.div, js_div.
  assert (Hz : Qeq_bool (Qred b) 0 = false).
  { destruct (Qeq_bool (Qred b) 0) eqn:E; [|done].
    apply Qeq_bool_iff in E. rewrite Qred_correct in E. lra. }
  rewrite Hz.
  assert (Hq : (Qred a / Qred b == a / b)%Q) by (by rewrite !Qred_correct).
  rewrite (overflow_unit (Qred a / Qred b)) by (rewrite Hq; lra).
  destruct (to_binary64_small (Qred (Qred a / Qred b))) as [-> Hs].
  { rewrite Qred_correct, Hq. lra. }
  assert (Hb : (binary64 (Qred (Qred a / Qred b)) == binary64 (a / b))%Q).
  { apply binary64_comp. by rewrite Qred_correct. }
  set (s := binary64 (a / b)) in *.
  assert (Hs' : (0 <= s <= 2)%Q).
  { unfold s. split.
    - apply binary64_nonneg. lra.
    - assert (H2 : (binary64 2 == 2)%Q) by apply (binary64_Z 2 ltac:(lia)).
      rewrite <- H2. apply binary64_mono. lra. }
  unfold Binary64.sub, js_sub, js_neg, js_add, int.
  set (s' := binary64 (Qred (Qred a / Qred b))) in *.
  assert (Hv : (inject_Z 1 + Qred (- Qred s') == 1 - s)%Q).
  { rewrite !Qred_correct, Hb. change (inject_Z 1) with 1%Q. ring. }
  rewrite overflow_unit by (rewrite Hv; lra).
  destruct (to_binary64_small (Qred (inject_Z 1 + Qred (- Qred s')))) as [-> _].
  { rewrite Qred_correct, Hv. lra. }
  assert (Hf : (binary64 (Qred (inject_Z 1 + Qred (- Qred s'))) == binary64 (1 - s))%Q).
  { apply binary64_comp. by rewrite Qred_correct. }
  split.
  - f_equal. by apply Qred_complete.
  - assert (H1 : (binary64 1 == 1)%Q) by apply (binary64_Z 1 ltac:(lia)).
    assert (Hm1 : (binary64 (-1) == -1)%Q) by apply (binary64_Z (-1) ltac:(lia)).
    split.
    + apply (Qle_trans _ (binary64 (-1))); [by rewrite Hm1|].
      apply binary64_mono. lra.
    + apply (Qle_trans _ (binary64 1)); [|by rewrite H1].
      apply binary64_mono. lra.
Qed.

Lemma reversed_dSquaredSum (xs ys : list Q) :
  distinct_values xs -> value_order_reversed xs ys ->
  3 * dSquaredSum (length xs) (rank (length xs) (Fin <$> xs))
        (rank (length xs) (Fin <$> ys))
  = Z.of_nat (length xs) * (Z.of_nat (length xs) * Z.of_nat (length xs) - 1).
Proof.
  intros Hd Hrev.
  rewrite dSquaredSum_zip; cycle 1.
  { rewrite <- (length_fmap Fin xs) at 1. by rewrite rank_length, length_fmap. }
  { destruct Hrev as [Hl _]. rewrite Hl at 1.
    rewrite <- (length_fmap Fin ys) at 1. by rewrite rank_length, length_fmap. }
  rewrite (reversed_sq_diff xs ys Hd Hrev).
  pose proof (rank_perm (Fin <$> xs)) as Hp. rewrite length_fmap in Hp.
  rewrite (sumZ_perm _ _ (fmap_Permutation _ _ _ Hp)).
  apply sumZ_centred_ranks.
Qed.

(** C2.  For 2 to 300079 pairwise distinct values [xs] and a sequence
    [ys] that orders the indices the opposite way, the coefficient is
    exactly -1, in binary64 as in exact arithmetic: up to that length the
    sum of squared rank differences, [n (n^2 - 1) / 3], is at most [2^53]
    and no addition rounds. *)
Theorem spearman_anti_identity (xs ys : list Q) :
  2 <= Z.of_nat (length xs) <= 300079 ->
  distinct_values xs -> value_order_reversed xs ys ->
  Binary64.spearmanCorrelation (Fin <$> xs) (Fin <$> ys) = Fin (-1)
  /\ spearmanCorrelation (Fin <$> xs) (Fin <$> ys) = Fin (-1).
Proof.
  intros Hn Hd Hrev. split.
  - destruct (binary64_spearman_eq (Fin <$> xs) (Fin <$> ys)) as [-> _].
    { rewrite !length_fmap. apply Hrev. }
    { by rewrite length_fmap. }
    f_equal. change (-1)%Q with (Qred (-1)). apply Qred_complete.
    unfold rho_binary64. rewrite length_fmap.
    pose proof (reversed_dSquaredSum xs ys Hd Hrev) as H3.
    set (d := dSquaredSum _ _ _) in *. set (n := Z.of_nat (length xs)) in *.
    set (N := n * (n * n - 1)) in *.
    assert (HN : 0 < N) by (unfold N; nia).
    assert (H6 : (inject_Z (6 * d) == 2 * inject_Z N)%Q).
    { change 2%Q with (inject_Z 2). rewrite <- inject_Z_mult.
      by replace (6 * d) with (2 * N) by lia. }
    destruct (to_binary64_large N) as [_ Hb].
    { pose proof (cube_bound n ltac:(lia)). fold N in H. lia. }
    assert (Ha : (binary64 (inject_Z (6 * d)) == 2 * binary64 (inject_Z N))%Q).
    { rewrite (binary64_comp _ _ H6). apply binary64_double.
      - rewrite <- (Zlt_Qlt 0). lia.
      - rewrite Qlog2_inject_Z by lia. pose proof (Z.log2_nonneg N). lia. }
    set (a := binary64 (inject_Z (6 * d))) in *.
    set (b := binary64 (inject_Z N)) in *.
    assert (Hq : (a / b == inject_Z 2)%Q).
    { rewrite Ha. change (inject_Z 2) with 2%Q. field. lra. }
    assert (Hs : (1 - binary64 (a / b) == inject_Z (-1))%Q).
    { rewrite (binary64_comp _ _ Hq), (binary64_Z 2) by lia. done. }
    rewrite (binary64_comp _ _ Hs). apply (binary64_Z (-1)). lia.
  - rewrite spearman_eq_rho_exact.
    + f_equal. change (-1)%Q with (Qred (-1)). apply Qred_complete.
      apply reversed_rho_exact; [lia|done..].
    + rewrite !length_fmap. apply Hrev.
    + rewrite length_fmap. lia.
Qed.

Lemma spearman_anti_identity_witness :
  Binary64.spearmanCorrelation (Fin <$> [3; 1; 2]%Q) (Fin <$> [10; 30; 20]%Q)
  = Fin (-1).
Proof.
  refine (proj1 (spearman_anti_identity [3; 1; 2]%Q [10; 30; 20]%Q _ _ _)).
  - simpl. lia.
  - intros i j p q Hi Hj Hij.
    destruct i as [|[|[|i]]], j as [|[|[|j]]]; simpl in *; simplify_eq; done.
  - split; [reflexivity|].
    intros i j p q r s Hi Hj Hi' Hj'.
    destruct i as [|[|[|i]]], j as [|[|[|j]]]; simpl in *; simplify_eq;
      split; intros H; vm_compute in H |- *; congruence.
Defined.

(** *** Ranks of a permutation of [1 .. n] *)

Lemma one_to_succ (n : nat) : one_to (S n) = one_to n ++ [Z.of_nat n + 1].
Proof. unfold one_to. by rewrite seq_S, fmap_app. Qed.

Lemma count_lt_one_to (n : nat) (z : Z) :
  1 <= z ->
  Z.of_nat (count_lt (inject_Z <$> one_to n) (inject_Z z))
  = Z.min (z - 1) (Z.of_nat n).
Proof.
  intros Hz. unfold count_lt. induction n as [|n IH]; [simpl; lia|].
  rewrite one_to_succ, fmap_app, List.filter_app, length_app, Nat2Z.inj_add, IH.
  csimpl.
  destruct (Qle_bool (inject_Z z) (inject_Z (Z.of_nat n + 1))) eqn:E; simpl.
  - apply Qle_bool_iff in E. rewrite <- Zle_Qle in E. lia.
  - apply Qle_bool_false in E. rewrite <- Zlt_Qlt in E. lia.
Qed.

Lemma NoDup_one_to (n : nat) : NoDup (one_to n).
Proof.
  unfold one_to. apply NoDup_fmap_2; [|apply NoDup_seq].
  intros a b H. lia.
Qed.

Lemma one_to_range (n : nat) (z : Z) : z ∈ one_to n -> 1 <= z <= Z.of_nat n.
Proof.
  intros H. apply list_elem_of_fmap in H as (k & -> & Hk).
  apply elem_of_seq in Hk. lia.
Qed.

Lemma distinct_integers (zs : list Z) :
  NoDup zs -> distinct_values (inject_Z <$> zs).
Proof.
  intros Hnd i j p q Hi Hj Hij Heq.
  rewrite list_lookup_fmap in Hi, Hj.
  destruct (zs !! i) as [a|] eqn:Ea; [|done].
  destruct (zs !! j) as [b|] eqn:Eb; [|done].
  simplify_eq/=. apply Hij. apply (NoDup_lookup zs i j a); [done..|].
  unfold Qeq in Heq. simpl in Heq. by replace a with b by lia.
Qed.

(** A permutation of [1 .. n] is its own ranking. *)
Lemma rank_of_permutation (zs : list Z) :
  zs ≡ₚ one_to (length zs) ->
  rank (length zs) (Fin <$> (inject_Z <$> zs)) = zs.
Proof.
  intros Hp. apply list_eq. intros i.
  assert (Hnd : NoDup zs) by (rewrite Hp; apply NoDup_one_to).
  destruct (zs !! i) as [z|] eqn:E.
  - pose proof (rank_distinct_lookup (inject_Z <$> zs) i (inject_Z z)
                  (distinct_integers zs Hnd)) as H.
    rewrite length_fmap in H. rewrite H by (by rewrite list_lookup_fmap, E).
    f_equal.
    assert (Hz : 1 <= z <= Z.of_nat (length zs)).
    { apply one_to_range. rewrite <- Hp. by eapply list_elem_of_lookup_2. }
    unfold count_lt.
    rewrite (filter_length_perm _ _ _ (fmap_Permutation inject_Z _ _ Hp)).
    pose proof (count_lt_one_to (length zs) z ltac:(lia)) as Hc.
    unfold count_lt in Hc. lia.
  - apply lookup_ge_None. apply lookup_ge_None in E.
    by rewrite rank_length.
Qed.

Lemma rank_of_negated_permutation (zs : list Z) (i : nat) (z : Z) :
  zs ≡ₚ one_to (length zs) -> zs !! i = Some z ->
  rank (length zs) (Fin <$> (Qopp <$> (inject_Z <$> zs))) !! i
  = Some (Z.of_nat (length zs) + 1 - z).
Proof.
  intros Hp Hi.
  assert (Hnd : NoDup zs) by (rewrite Hp; apply NoDup_one_to).
  pose proof (reversed_rank_lookup (inject_Z <$> zs) (Qopp <$> (inject_Z <$> zs)) i z
                (distinct_integers zs Hnd) (negation_reverses_order _)) as H.
  rewrite length_fmap in H. apply H.
  by rewrite (rank_of_permutation zs Hp).
Qed.

Lemma rank_of_negated (zs : list Z) :
  zs ≡ₚ one_to (length zs) ->
  rank (length zs) (Fin <$> (Qopp <$> (inject_Z <$> zs)))
  = (fun z => Z.of_nat (length zs) + 1 - z) <$> zs.
Proof.
  intros Hp. apply list_eq. intros i. rewrite list_lookup_fmap.
  destruct (zs !! i) as [z|] eqn:E; simpl.
  - by apply rank_of_negated_permutation.
  - apply lookup_ge_None. apply lookup_ge_None in E. by rewrite rank_length.
Qed.

(** *** 300080 items *)

Lemma long_ranks_length : length long_ranks = Z.to_nat 300080.
Proof.
  unfold long_ranks, Zrange.
  rewrite !length_app, !length_fmap, !length_seq. simpl length. lia.
Qed.

Lemma moved_middle_perm (h : nat) :
  Z.of_nat h = 150038 ->
  (Zrange 1 h ++ Zrange 150042 h) ++ [300080; 150039; 150040; 150041]
  ≡ₚ one_to (h + 3 + h + 1).
Proof.
  intros Hh. unfold Zrange, one_to.
  rewrite !seq_app, !fmap_app, <- !app_assoc. simpl "+"%nat.
  assert (H1 : (fun k => 1 + Z.of_nat k) <$> seq 0 h
               = (fun k => Z.of_nat k + 1) <$> seq 0 h).
  { apply list_fmap_ext. intros i k _. lia. }
  assert (H2 : (fun k => 150042 + Z.of_nat k) <$> seq 0 h
               = (fun k => Z.of_nat k + 1) <$> seq (h + 3) h).
  { replace (seq (h + 3) h) with (Nat.add (h + 3) <$> seq 0 h)
      by (rewrite fmap_add_seq; f_equal; lia).
    rewrite <- list_fmap_compose.
    apply list_fmap_ext. intros i k _. simpl. lia. }
  assert (H3 : (fun k => Z.of_nat k + 1) <$> seq h 3 = [150039; 150040; 150041]).
  { simpl. repeat f_equal; lia. }
  assert (H4 : (fun k => Z.of_nat k + 1) <$> seq (h + 3 + h) 1 = [300080]).
  { simpl. f_equal. lia. }
  rewrite H1, H2, H3, H4.
  apply Permutation_app_head.
  rewrite (Permutation_app_comm [150039; 150040; 150041]).
  rewrite <- app_assoc. done.
Qed.

Lemma long_ranks_perm : long_ranks ≡ₚ one_to (length long_ranks).
Proof.
  rewrite long_ranks_length.
  replace (Z.to_nat 300080)
    with (Z.to_nat 150038 + 3 + Z.to_nat 150038 + 1)%nat by lia.
  apply moved_middle_perm. lia.
Qed.

Lemma permutation_bound (zs : list Z) (f : Z -> Z) (i : nat) :
  zs ≡ₚ one_to (length zs) -> Z.of_nat (length zs) <= 2 ^ 53 ->
  (forall z, 1 <= z <= Z.of_nat (length zs) -> Z.abs (f z) <= 2 ^ 53) ->
  Z.abs (nth i (f <$> zs) 0) <= 2 ^ 53.
Proof.
  intros Hp Hn Hf. rewrite nth_lookup, list_lookup_fmap.
  destruct (zs !! i) as [z|] eqn:E; simpl; [|lia].
  apply Hf. apply one_to_range. rewrite <- Hp. by eapply list_elem_of_lookup_2.
Qed.

(** The coefficient of a permutation of [1 .. n] and its negation, when
    only the last four additions of the sum can round. *)
Lemma binary64_spearman_tail (P : list Z) (t1 t2 t3 t4 : Z) (n s : Z) :
  let zs := P ++ [t1; t2; t3; t4] in
  let c := n + 1 in
  zs ≡ₚ one_to (length zs) -> Z.of_nat (length zs) = n -> n <= 2 ^ 26 ->
  0 <= s <= 2 ^ 53 ->
  3 * (s + (2 * t1 - c) ^ 2 + (2 * t2 - c) ^ 2 + (2 * t3 - c) ^ 2
       + (2 * t4 - c) ^ 2) = n * (n * n - 1) ->
  Binary64.spearmanCorrelation (Fin <$> (inject_Z <$> zs))
    (Fin <$> (Qopp <$> (inject_Z <$> zs)))
  = binary64_formula n
      (reversed_step c (reversed_step c (reversed_step c
         (reversed_step c (int s) t1) t2) t3) t4).
Proof.
  intros zs c Hp Hn Hn26 Hs H3.
  set (k := length P).
  assert (Hlen : length zs = S (S (S (S k)))).
  { unfold zs, k. rewrite length_app. simpl. lia. }
  assert (Hnd : NoDup zs) by (rewrite Hp; apply NoDup_one_to).
  set (f := fun z => Z.of_nat (length zs) + 1 - z).
  pose proof (reversed_dSquaredSum (inject_Z <$> zs) (Qopp <$> (inject_Z <$> zs))
                (distinct_integers zs Hnd) (negation_reverses_order _)) as Ht.
  rewrite !length_fmap in Ht.
  unfold Binary64.spearmanCorrelation. rewrite !length_fmap, Nat.eqb_refl.
  destruct (length zs =? 0)%nat eqn:E; [apply Nat.eqb_eq in E; lia|]. clear E.
  cbn [negb orb]. cbv zeta.
  rewrite (rank_of_permutation zs Hp), (rank_of_negated zs Hp) in Ht |- *.
  fold f in Ht |- *. rewrite Hn in Ht |- *.
  assert (Hx : forall j t, [t1; t2; t3; t4] !! j = Some t ->
                 nth (k + j) zs 0 = t /\ nth (k + j) (f <$> zs) 0 = c - t).
  { intros j t Hj. rewrite !nth_lookup, list_lookup_fmap. unfold zs at 1 2.
    rewrite lookup_app_r by (unfold k; lia).
    replace (k + j - length P)%nat with j by (unfold k; lia).
    rewrite Hj. simpl. split; [done|]. unfold f, c. lia. }
  destruct (Hx 0%nat t1 eq_refl) as [Hx1 Hy1].
  destruct (Hx 1%nat t2 eq_refl) as [Hx2 Hy2].
  destruct (Hx 2%nat t3 eq_refl) as [Hx3 Hy3].
  destruct (Hx 3%nat t4 eq_refl) as [Hx4 Hy4].
  rewrite Nat.add_0_r in Hx1, Hy1.
  replace (k + 1)%nat with (S k) in Hx2, Hy2 by lia.
  replace (k + 2)%nat with (S (S k)) in Hx3, Hy3 by lia.
  replace (k + 3)%nat with (S (S (S k))) in Hx4, Hy4 by lia.
  rewrite Hlen in Ht |- *.
  rewrite !dSquaredSum_succ in Ht.
  rewrite Hx1, Hy1, Hx2, Hy2, Hx3, Hy3, Hx4, Hy4 in Ht.
  assert (Hpre : dSquaredSum k zs (f <$> zs) = s).
  { rewrite !Z.pow_2_r in Ht, H3.
    replace (t1 - (c - t1)) with (2 * t1 - c) in Ht by lia.
    replace (t2 - (c - t2)) with (2 * t2 - c) in Ht by lia.
    replace (t3 - (c - t3)) with (2 * t3 - c) in Ht by lia.
    replace (t4 - (c - t4)) with (2 * t4 - c) in Ht by lia.
    lia. }
  rewrite !binary64_dSquaredSum_succ. cbv zeta.
  rewrite Hx1, Hy1, Hx2, Hy2, Hx3, Hy3, Hx4, Hy4.
  assert (Hn53 : Z.of_nat (length zs) <= 2 ^ 53) by (clear - Hn Hn26; lia).
  rewrite binary64_dSquaredSum_exact; cycle 1.
  { intros i. rewrite <- (list_fmap_id zs).
    apply (permutation_bound zs (@Datatypes.id Z) i Hp Hn53).
    intros z Hz. unfold Datatypes.id. clear - Hz Hn53. lia. }
  { intros i. apply (permutation_bound zs f i Hp Hn53).
    intros z Hz. unfold f. clear - Hz Hn53. lia. }
  { rewrite Hpre. clear - Hs. lia. }
  rewrite Hpre. unfold binary64_formula, reversed_step. reflexivity.
Qed.

(** C2, the length bound.  With 300080 distinct values the sum of
    squared rank differences, 9007201920070640, is above [2^53]: with the
    values in the order of [long_xs] the last four additions round, the
    sum comes out four too small and the coefficient is
    -0.9999999999999991. *)
Lemma spearman_anti_identity_long :
  Z.of_nat (length long_xs) = 300080
  /\ distinct_values long_xs
  /\ value_order_reversed long_xs long_ys
  /\ Binary64.spearmanCorrelation (Fin <$> long_xs) (Fin <$> long_ys)
     = Fin (- (1125899906842623 # 1125899906842624))
  /\ Binary64.spearmanCorrelation (Fin <$> long_xs) (Fin <$> long_ys)
     <> Fin (-1).
Proof.
  assert (Hv : Binary64.spearmanCorrelation (Fin <$> long_xs) (Fin <$> long_ys)
               = Fin (- (1125899906842623 # 1125899906842624))).
  { unfold long_ys, long_xs.
    pose proof long_ranks_perm as Hp. pose proof long_ranks_length as Hl.
    unfold long_ranks in *.
    rewrite (binary64_spearman_tail _ 300080 150039 150040 150041
               300080 9007111872664388 Hp).
    - vm_compute. reflexivity.
    - rewrite Hl. lia.
    - lia.
    - lia.
    - reflexivity. }
  rewrite Hv. split; [|split; [|split; [|split]]].
  - unfold long_xs. rewrite length_fmap, long_ranks_length. lia.
  - apply distinct_integers. rewrite long_ranks_perm. apply NoDup_one_to.
  - apply negation_reverses_order.
  - reflexivity.
  - discriminate.
Qed.

(** ** Comparators *)

(** A difference is above zero when the first number is the larger one. *)
Lemma js_gt_sub (a b : number) : js_gt (js_sub a b) (Fin 0) = js_gt a b.
Proof.
  destruct a as [p| | |], b as [q| | |]; try reflexivity.
  exact (after_by_value_fin p q 0 0).
Qed.

Lemma js_gt_irrefl (a : number) : js_gt a a = false.
Proof.
  destruct a as [p| | |]; try reflexivity. simpl.
  apply negb_false_iff, Qle_bool_iff. lra.
Qed.

Lemma js_gt_trans (a b c : number) :
  js_gt a b = true -> js_gt b c = true -> js_gt a c = true.
Proof.
  destruct a as [p| | |], b as [q| | |], c as [r| | |]; simpl; try done.
  intros H1 H2. apply negb_true_iff, Qle_bool_false in H1, H2.
  apply negb_true_iff, Qle_bool_false. lra.
Qed.

(** Among numbers that are not NaN, being at most another number is
    transitive, and so is its mix with being larger. *)
Lemma js_gt_tie_trans (a b c : number) :
  isNaN b = false ->
  js_gt b a = false -> js_gt c b = false -> js_gt c a = false.
Proof.
  destruct a as [p| | |], b as [q| | |], c as [r| | |]; simpl; try done.
  intros _ H1 H2. apply negb_false_iff, Qle_bool_iff in H1, H2.
  apply negb_false_iff, Qle_bool_iff. lra.
Qed.

Lemma js_gt_tie_r (a b c : number) :
  isNaN c = false ->
  js_gt a b = true -> js_gt c b = false -> js_gt a c = true.
Proof.
  destruct a as [p| | |], b as [q| | |], c as [r| | |]; simpl; try done.
  intros _ H1 H2. apply negb_true_iff, Qle_bool_false in H1.
  apply negb_false_iff, Qle_bool_iff in H2.
  apply negb_true_iff, Qle_bool_false. lra.
Qed.

Lemma js_gt_tie_l (a b c : number) :
  isNaN a = false ->
  js_gt b a = false -> js_gt b c = true -> js_gt a c = true.
Proof.
  destruct a as [p| | |], b as [q| | |], c as [r| | |]; simpl; try done.
  intros _ H1 H2. apply negb_true_iff, Qle_bool_false in H2.
  apply negb_false_iff, Qle_bool_iff in H1.
  apply negb_true_iff, Qle_bool_false. lra.
Qed.

Lemma js_ge_of_not_gt (a b : number) :
  isNaN a = false -> isNaN b = false -> js_gt b a = false -> js_ge a b = true.
Proof.
  destruct a as [p| | |], b as [q| | |]; simpl; try done.
  intros _ _ H. by apply negb_false_iff in H.
Qed.

Lemma js_ge_of_gt (a b : number) : js_gt a b = true -> js_ge a b = true.
Proof.
  destruct a as [p| | |], b as [q| | |]; simpl; try done.
  intros H. apply negb_true_iff, Qle_bool_false in H. apply Qle_bool_iff. lra.
Qed.

Lemma after_by_magnitude (a b : CorrelationItem) :
  after by_magnitude a b
  = js_gt (js_abs (correlation b)) (js_abs (correlation a)).
Proof. apply js_gt_sub. Qed.

(** ** The entries of the matrix *)

Lemma unsorted_matrix_unfold (data : list DataItem) :
  unsorted_matrix data =
  [matrix_item data 0 1; matrix_item data 0 2; matrix_item data 0 3;
   matrix_item data 1 2; matrix_item data 1 3; matrix_item data 2 3].
Proof. reflexivity. Qed.

Lemma unsorted_matrix_enumerated (data : list DataItem) :
  StronglySorted enumerated_before (unsorted_matrix data).
Proof.
  rewrite unsorted_matrix_unfold.
  repeat (constructor; [|repeat constructor; unfold enumerated_before; simpl; lia]).
  constructor.
Qed.

Lemma unsorted_matrix_index (data : list DataItem) (k : nat) (e : CorrelationItem) :
  unsorted_matrix data !! k = Some e -> enumeration_index e = k.
Proof.
  rewrite unsorted_matrix_unfold.
  destruct k as [|[|[|[|[|[|k]]]]]]; simpl; intros H; simplify_eq; reflexivity.
Qed.

Lemma matrix_perm (data : list DataItem) :
  calculateCorrelationMatrix data ≡ₚ unsorted_matrix data.
Proof. apply js_sort_perm. Qed.

Lemma matrix_elem (data : list DataItem) (e : CorrelationItem) :
  e ∈ calculateCorrelationMatrix data ->
  exists i j, (i < j < 4)%nat /\ e = matrix_item data i j.
Proof.
  rewrite matrix_perm, unsorted_matrix_unfold. intros H.
  repeat (apply elem_of_cons in H as [->|H]; [eexists _, _; split; [|reflexivity]; lia|]).
  by apply elem_of_nil in H.
Qed.

Lemma matrix_length (data : list DataItem) :
  length (calculateCorrelationMatrix data) = 6%nat.
Proof. by rewrite matrix_perm. Qed.

Lemma matrix_pair_once (data : list DataItem) (a b : variable) :
  a <> b -> length (List.filter (joins a b) (calculateCorrelationMatrix data)) = 1%nat.
Proof.
  intros Hab. rewrite (filter_length_perm _ _ _ (matrix_perm data)).
  rewrite unsorted_matrix_unfold. unfold joins. simpl.
  destruct a, b; try done; reflexivity.
Qed.

Lemma matrix_no_mirror (data : list DataItem) (e1 e2 : CorrelationItem) :
  e1 ∈ calculateCorrelationMatrix data ->
  e2 ∈ calculateCorrelationMatrix data ->
  ~ (var1 e1 = var2 e2 /\ var2 e1 = var1 e2).
Proof.
  intros H1 H2 [Ha Hb].
  apply matrix_elem in H1 as (i & j & Hij & ->).
  apply matrix_elem in H2 as (i' & j' & Hij' & ->).
  cbn [var1 var2 matrix_item] in Ha, Hb.
  destruct i as [|[|[|[|i]]]], j as [|[|[|[|j]]]]; try lia;
    destruct i' as [|[|[|[|i']]]], j' as [|[|[|[|j']]]]; try lia;
    simpl in Ha, Hb; discriminate.
Qed.

(** C4.  For a non-empty sequence of records the matrix has six entries
    over the four variables, one for each unordered pair of distinct
    variables and none for a pair and its mirror image. *)
Theorem matrix_complete (data : list DataItem) :
  data <> [] ->
  let result := calculateCorrelationMatrix data in
  length result = 6%nat
  /\ (forall a b, a <> b -> length (List.filter (joins a b) result) = 1%nat)
  /\ (forall e1 e2, e1 ∈ result -> e2 ∈ result ->
        ~ (var1 e1 = var2 e2 /\ var2 e1 = var1 e2)).
Proof.
  intros _ result. split; [apply matrix_length|].
  split; [apply matrix_pair_once|apply matrix_no_mirror].
Qed.

(** ** The order of the matrix *)

Lemma spearman_not_NaN (x y : list number) :
  length x = length y -> length x <> 1%nat ->
  exists q, spearmanCorrelation x y = Fin q.
Proof.
  intros Hl Hn. destruct (decide (length x = 0%nat)) as [H0|H0].
  - exists 0%Q. apply spearman_guard. by right.
  - eexists. apply spearman_eq_rho_exact; [done|lia].
Qed.

Lemma parseFloat_toFixed_fin (digits : nat) (q : Q) :
  exists r, parseFloat_toFixed digits (Fin q) = Fin r.
Proof.
  unfold parseFloat_toFixed.
  destruct (Qle_bool (inject_Z (10 ^ 21)) (Qabs q)); eauto.
Qed.

Lemma matrix_item_fin (data : list DataItem) (i j : nat) :
  length data <> 1%nat -> isNaN (magnitude (matrix_item data i j)) = false.
Proof.
  intros Hn. unfold magnitude, matrix_item. cbn [correlation].
  destruct (spearman_not_NaN (map (field (nth i variables Intensity)) data)
              (map (field (nth j variables Intensity)) data)) as [q ->].
  - by rewrite !length_map.
  - by rewrite length_map.
  - by destruct (parseFloat_toFixed_fin 3 q) as [r ->].
Qed.

Lemma matrix_item_single (data : list DataItem) (i j : nat) :
  length data = 1%nat -> isNaN (magnitude (matrix_item data i j)) = true.
Proof. destruct data as [|d [|d' data]]; simpl; intros H; [lia|reflexivity|lia]. Qed.

Lemma ranked_before_trans (nan : bool) (a b c : CorrelationItem) :
  isNaN (magnitude a) = nan -> isNaN (magnitude b) = nan ->
  isNaN (magnitude c) = nan ->
  ranked_before a b -> ranked_before b c -> ranked_before a c.
Proof.
  unfold ranked_before. intros Ha Hb Hc.
  destruct nan.
  - destruct (magnitude a), (magnitude b), (magnitude c); try done.
    simpl. intros [|[_ ?]] [|[_ ?]]; try done. right. split; [done|lia].
  - intros [H1|[H1 I1]] [H2|[H2 I2]].
    + left. by eapply js_gt_trans.
    + left. by eapply js_gt_tie_r.
    + left. by eapply js_gt_tie_l.
    + right. split; [|lia]. by eapply (js_gt_tie_trans _ (magnitude b)).
Qed.

Lemma matrix_ranked (data : list DataItem) :
  StronglySorted ranked_before (calculateCorrelationMatrix data).
Proof.
  set (nan := bool_decide (length data = 1%nat)).
  apply (js_sort_sorted by_magnitude (fun e => isNaN (magnitude e) = nan)
           enumerated_before ranked_before).
  - intros a b _ _ Hab Haft. rewrite after_by_magnitude in Haft. by right.
  - intros a b _ _ Haft. rewrite after_by_magnitude in Haft. by left.
  - intros a b c. apply ranked_before_trans.
  - rewrite unsorted_matrix_unfold. subst nan.
    destruct (decide (length data = 1%nat)) as [H1|H1].
    + rewrite bool_decide_eq_true_2 by done.
      repeat (constructor; [by apply matrix_item_single|]). constructor.
    + rewrite bool_decide_eq_false_2 by done.
      repeat (constructor; [by apply matrix_item_fin|]). constructor.
  - apply unsorted_matrix_enumerated.
Qed.

Lemma StronglySorted_lookup {A : Type} (R : A -> A -> Prop) (l : list A) :
  StronglySorted R l ->
  forall i j a b, (i < j)%nat -> l !! i = Some a -> l !! j = Some b -> R a b.
Proof.
  induction 1 as [|x l Hs IH Hx]; intros i j a b Hij Hi Hj; [done|].
  destruct j as [|j]; [lia|]. simpl in Hj.
  destruct i as [|i]; simpl in Hi.
  - simplify_eq. rewrite Forall_forall in Hx. apply Hx.
    by eapply list_elem_of_lookup_2.
  - apply (IH i j); [lia|done..].
Qed.

Lemma StronglySorted_weaken {A : Type} (P : A -> Prop) (R R' : A -> A -> Prop)
    (l : list A) :
  (forall a b, P a -> P b -> R a b -> R' a b) ->
  Forall P l -> StronglySorted R l -> StronglySorted R' l.
Proof.
  intros HR HP Hs. induction Hs as [|x l Hs IH Hx]; constructor.
  - apply IH. by inversion HP.
  - inversion HP as [|? ? Px HP']; subst.
    rewrite Forall_forall in Hx, HP' |- *. intros b Hb. apply HR; auto.
Qed.

Lemma matrix_non_increasing (data : list DataItem) :
  length data <> 1%nat ->
  StronglySorted magnitude_ge (calculateCorrelationMatrix data).
Proof.
  intros Hn.
  apply (StronglySorted_weaken (fun e => isNaN (magnitude e) = false)
           ranked_before); [| |apply matrix_ranked].
  - intros a b Ha Hb [H|[H _]]; [by apply js_ge_of_gt|by apply js_ge_of_not_gt].
  - apply Forall_forall. intros e He.
    apply matrix_elem in He as (i & j & _ & ->). by apply matrix_item_fin.
Qed.

Lemma matrix_ties_enumerated (data : list DataItem) (i j : nat)
    (a b : CorrelationItem) :
  (i < j)%nat ->
  calculateCorrelationMatrix data !! i = Some a ->
  calculateCorrelationMatrix data !! j = Some b ->
  magnitude a = magnitude b ->
  (enumeration_index a < enumeration_index b)%nat.
Proof.
  intros Hij Hi Hj Heq.
  destruct (StronglySorted_lookup _ _ (matrix_ranked data) i j a b Hij Hi Hj)
    as [H|[_ H]]; [|done].
  rewrite Heq, js_gt_irrefl in H. done.
Qed.

Lemma matrix_complete_witness :
  length (calculateCorrelationMatrix [zero_item 0; synthetic_item]) = 6%nat.
Proof.
  pose proof (matrix_complete [zero_item 0; synthetic_item]) as H.
  cbv zeta in H. destruct H as (H & _); [discriminate|exact H].
Defined.

(** C5.  The entries are in the order of a stable sort by decreasing
    magnitude: an entry comes before every entry of smaller magnitude, and
    among entries none of which is larger than the other the order of the
    enumeration is kept.  With other than one record every magnitude is a
    number and each is at least those after it; entries of equal magnitude
    are in the order of the enumeration. *)
Theorem matrix_sorted (data : list DataItem) :
  let result := calculateCorrelationMatrix data in
  StronglySorted ranked_before result
  /\ (length data <> 1%nat -> StronglySorted magnitude_ge result)
  /\ (forall i j a b, (i < j)%nat ->
        result !! i = Some a -> result !! j = Some b ->
        magnitude a = magnitude b ->
        (enumeration_index a < enumeration_index b)%nat).
Proof.
  intros result. split; [apply matrix_ranked|].
  split; [apply matrix_non_increasing|apply matrix_ties_enumerated].
Qed.

Lemma matrix_sorted_witness :
  StronglySorted magnitude_ge
    (calculateCorrelationMatrix [zero_item 0; synthetic_item]).
Proof.
  pose proof (matrix_sorted [zero_item 0; synthetic_item]) as H.
  cbv zeta in H. destruct H as (_ & H & _). apply H. simpl. lia.
Defined.

(** ** Significance *)

Lemma Qabs_round_half_away (digits : nat) (q : Q) :
  (Qabs (round_half_away digits q)
   == inject_Z (Qfloor (Qabs q * inject_Z (10 ^ Z.of_nat digits) + (1 # 2)))
      / inject_Z (10 ^ Z.of_nat digits))%Q.
Proof.
  unfold round_half_away.
  set (scale := inject_Z (10 ^ Z.of_nat digits)).
  assert (Hs : (0 < scale)%Q).
  { unfold scale. rewrite <- (Zlt_Qlt 0). apply Z.pow_pos_nonneg; lia. }
  assert (Hm : (0 <= inject_Z (Qfloor (Qabs q * scale + (1 # 2))) / scale)%Q).
  { apply Qle_shift_div_l; [done|]. rewrite Qmult_0_l.
    rewrite <- (Zle_Qle 0). change 0 with (Qfloor 0). apply Qfloor_resp_le.
    pose proof (Qabs_nonneg q). nra. }
  destruct (Qle_bool 0 q).
  - by apply Qabs_pos.
  - rewrite Qabs_opp. by apply Qabs_pos.
Qed.

(** Rounding to three digits keeps a magnitude of at least a quarter at
    least a quarter. *)
Lemma round_keeps_threshold (v : number) :
  js_ge (js_abs v) significance_threshold = true ->
  js_ge (js_abs (parseFloat_toFixed 3 v)) significance_threshold = true.
Proof.
  destruct v as [q| | |]; try done. unfold parseFloat_toFixed.
  destruct (Qle_bool (inject_Z (10 ^ 21)) (Qabs q)); [done|].
  simpl. intros H. apply Qle_bool_iff in H. apply Qle_bool_iff.
  rewrite Qred_correct in H |- *. rewrite Qred_correct, Qabs_round_half_away.
  change (inject_Z (10 ^ Z.of_nat 3)) with 1000%Q.
  apply Qle_shift_div_l; [done|].
  assert (Hm : (inject_Z 250 <= inject_Z (Qfloor (Qabs q * 1000 + (1 # 2))))%Q).
  { rewrite <- Zle_Qle. rewrite <- (Qfloor_Z 250). apply Qfloor_resp_le.
    change (inject_Z 250) with 250%Q. lra. }
  change (inject_Z 250) with 250%Q in Hm. lra.
Qed.

(** A rounded magnitude above a quarter comes from a magnitude of at least
    a quarter. *)
Lemma round_above_threshold (v : number) :
  js_gt (js_abs (parseFloat_toFixed 3 v)) significance_threshold = true ->
  js_ge (js_abs v) significance_threshold = true.
Proof.
  destruct v as [q| | |]; try done. unfold parseFloat_toFixed.
  destruct (Qle_bool (inject_Z (10 ^ 21)) (Qabs q)); [apply js_ge_of_gt|].
  simpl. intros H. apply negb_true_iff, Qle_bool_false in H. apply Qle_bool_iff.
  rewrite Qred_correct in H |- *. rewrite Qred_correct, Qabs_round_half_away in H.
  change (inject_Z (10 ^ Z.of_nat 3)) with 1000%Q in H.
  set (m := Qfloor (Qabs q * 1000 + (1 # 2))) in *.
  assert (Hm : 250 < m).
  { rewrite Zlt_Qlt. change (inject_Z 250) with 250%Q.
    unfold Qdiv in H. change (/ 1000)%Q with (1 # 1000)%Q in H. lra. }
  pose proof (Qfloor_le (Qabs q * 1000 + (1 # 2))) as Hf. fold m in Hf.
  assert (H251 : (251 <= inject_Z m)%Q).
  { change 251%Q with (inject_Z 251). rewrite <- Zle_Qle. lia. }
  lra.
Qed.

(** C6, as the code has it.  An entry is significant exactly when the
    magnitude of its coefficient before rounding is at least 0.25, the
    magnitude 0.25 itself included.  A significant entry has a stored
    magnitude of at least 0.25, and an entry with a stored magnitude above
    0.25 is significant. *)
Theorem significance_from_coefficient (data : list DataItem) (e : CorrelationItem) :
  e ∈ calculateCorrelationMatrix data ->
  correlation e = parseFloat_toFixed 3 (coefficient data e)
  /\ significant e = js_ge (js_abs (coefficient data e)) significance_threshold
  /\ (js_abs (coefficient data e) = significance_threshold -> significant e = true)
  /\ (significant e = true -> js_ge (magnitude e) significance_threshold = true)
  /\ (js_gt (magnitude e) significance_threshold = true -> significant e = true).
Proof.
  intros He. apply matrix_elem in He as (i & j & _ & ->).
  unfold coefficient, magnitude. cbn [var1 var2 correlation significant matrix_item].
  split; [done|]. split; [done|]. split; [by intros ->|].
  split; [apply round_keeps_threshold|apply round_above_threshold].
Qed.

Lemma rounded_boundary_not_significant :
  let e := matrix_item boundary_data 0 1 in
  e ∈ calculateCorrelationMatrix boundary_data
  /\ coefficient boundary_data e = Fin (166 # 665)
  /\ correlation e = Fin (1 # 4)
  /\ js_ge (js_abs (correlation e)) significance_threshold = true
  /\ significant e = false.
Proof.
  cbv zeta. split.
  - rewrite matrix_perm, unsorted_matrix_unfold. left.
  - repeat split; vm_compute; reflexivity.
Qed.

Lemma significance_from_coefficient_witness :
  let e := matrix_item boundary_data 0 1 in
  significant e = js_ge (js_abs (coefficient boundary_data e)) significance_threshold.
Proof.
  cbv zeta.
  pose proof (significance_from_coefficient boundary_data
                (matrix_item boundary_data 0 1)) as H.
  destruct H as (_ & H & _); [|exact H].
  rewrite matrix_perm, unsorted_matrix_unfold. left.
Defined.

(** ** No records *)

Lemma matrix_of_no_records_not_empty :
  length (calculateCorrelationMatrix []) = 6%nat
  /\ calculateCorrelationMatrix [] <> [].
Proof. split; [reflexivity|discriminate]. Qed.

(** C9, as the code has it.  For no records [calculateCorrelationMatrix]
    returns its six entries, each with coefficient 0 and not significant;
    the dashboard does not call it then and takes the empty sequence. *)
Theorem matrix_of_no_records :
  length (calculateCorrelationMatrix []) = 6%nat
  /\ Forall (fun e => correlation e = Fin 0 /\ significant e = false)
            (calculateCorrelationMatrix [])
  /\ dashboard_correlations [] = [].
Proof.
  split; [reflexivity|]. split; [|reflexivity].
  repeat constructor.
Qed.

Lemma dashboard_correlations_nonempty (data : list DataItem) :
  data <> [] -> dashboard_correlations data = calculateCorrelationMatrix data.
Proof. intros H. by destruct data. Qed.

(** ** [parseCSVData] *)

Lemma elem_of_parseCSVData (csvText : string) (d : DataItem) :
  d ∈ parseCSVData csvText <->
  exists k line, data_lines csvText !! k = Some line
                 /\ d = parse_line k line /\ isNaN (intensity d) = false.
Proof.
  unfold parseCSVData. rewrite list_elem_of_In, filter_In, <- list_elem_of_In.
  rewrite elem_of_lookup_imap, negb_true_iff. split.
  - intros [(k & line & Hd & Hk) Hn]. by exists k, line.
  - intros (k & line & Hk & Hd & Hn). split; [by exists k, line|done].
Qed.

Lemma parse_line_id (k : nat) (line : string) : id (parse_line k line) = Z.of_nat k + 1.
Proof. reflexivity. Qed.

(** A line yields a record exactly when its intensity is a number. *)
Lemma row_kept_iff (csvText : string) (k : nat) (line : string) :
  data_lines csvText !! k = Some line ->
  (exists d, d ∈ parseCSVData csvText /\ id d = Z.of_nat k + 1)
  <-> isNaN (intensity (parse_line k line)) = false.
Proof.
  intros Hk. split.
  - intros (d & Hd & Hid). apply elem_of_parseCSVData in Hd as (k' & line' & Hk' & -> & Hn).
    rewrite parse_line_id in Hid. assert (k' = k) by lia. subst k'.
    by simplify_eq.
  - intros Hn. exists (parse_line k line). split; [|done].
    apply elem_of_parseCSVData. by exists k, line.
Qed.

Lemma all_white_trimStart (s : string) : all_white s = true -> trimStart s = EmptyString.
Proof.
  induction s as [|c s IH]; simpl; [done|].
  intros [Hc Hs]%andb_true_iff. rewrite Hc. by apply IH.
Qed.

Lemma all_white_split_fields (s : string) : all_white s = true -> split_fields s = [s].
Proof.
  induction s as [|c s IH]; simpl; [done|].
  intros [Hc Hs]%andb_true_iff. rewrite (IH Hs).
  destruct (Ascii.eqb c comma) eqn:E; [|done].
  apply Ascii.eqb_eq in E. subst c. discriminate.
Qed.

Lemma getVal_blank (s : string) (idx : nat) :
  all_white s = true -> getVal [s] idx = Fin 0.
Proof.
  intros Hs. unfold getVal, element_string. destruct idx as [|idx]; simpl.
  - unfold parseInt. by rewrite (all_white_trimStart s Hs).
  - reflexivity.
Qed.

(** An empty line, or one of white space only, yields the record of zeros. *)
Lemma parse_line_blank (k : nat) (line : string) :
  all_white line = true -> parse_line k line = zero_item k.
Proof.
  intros Hw. unfold parse_line, intensityScore, dependencyScore, competenceScore,
    alienationScore, usageGroup_of.
  rewrite (all_white_split_fields line Hw). simpl map.
  rewrite !(getVal_blank line _ Hw). reflexivity.
Qed.

Example row_with_NaN_intensity_dropped :
  getVal (split_fields overflowing_row) 2 = PInf
  /\ getVal (split_fields overflowing_row) 4 = NInf
  /\ intensity (parse_line 0 overflowing_row) = NaN
  /\ id <$> parseCSVData ("h" ++ nl ++ overflowing_row ++ nl ++ example_row) = [2].
Proof. repeat split; vm_compute; reflexivity. Qed.

Lemma blank_line_is_kept :
  parseCSVData ("h" ++ nl ++ nl ++ "a,b,c") = [zero_item 0; zero_item 1]
  /\ parseCSVData ("h" ++ nl ++ "   " ++ nl ++ "a,b,c") = [zero_item 0; zero_item 1].
Proof. split; vm_compute; reflexivity. Qed.

(** C8, as the code has it.  A line yields a record exactly when the
    intensity computed from it is a number.  The line [a,b,c] is kept, and
    so is an empty line or a line of white space, as the record of zeros;
    white space at the end of the text is trimmed before the lines are
    split, so a blank last line is no line at all. *)
Theorem row_rejection (csvText : string) (k : nat) (line : string) :
  data_lines csvText !! k = Some line ->
  ((exists d, d ∈ parseCSVData csvText /\ id d = Z.of_nat k + 1)
   <-> isNaN (intensity (parse_line k line)) = false)
  /\ (all_white line = true -> parse_line k line ∈ parseCSVData csvText
                               /\ parse_line k line = zero_item k)
  /\ parseCSVData ("h" ++ nl ++ "a,b,c") = [zero_item 0]
  /\ data_lines ("h" ++ nl ++ "   " ++ nl) = []
  /\ parseCSVData ("h" ++ nl ++ "   " ++ nl) = [].
Proof.
  intros Hk. split; [by apply row_kept_iff|].
  split; [|repeat split; vm_compute; reflexivity].
  intros Hw. split; [|by apply parse_line_blank].
  apply elem_of_parseCSVData. exists k, line.
  split; [done|]. split; [done|]. by rewrite (parse_line_blank k line Hw).
Qed.

Lemma row_rejection_witness :
  exists d, d ∈ parseCSVData ("h" ++ nl ++ nl ++ "a,b,c") /\ id d = 2.
Proof.
  pose proof (row_rejection ("h" ++ nl ++ nl ++ "a,b,c") 1 "a,b,c") as H.
  destruct H as (H & _); [reflexivity|]. apply H. reflexivity.
Defined.

(** *** The synthetic row *)

Lemma no_quote_even (s : string) : no_char quote s = true -> even_quotes s = true.
Proof.
  induction s as [|a s IH]; simpl; [done|].
  intros [Ha Hs]%andb_true_iff. apply negb_true_iff in Ha. rewrite Ha. auto.
Qed.

Lemma split_fields_cons (c rest : string) :
  no_char comma c = true -> no_char quote rest = true ->
  split_fields (c ++ String comma rest) = c :: split_fields rest.
Proof.
  intros Hc Hr. induction c as [|a c IH]; simpl in *.
  - by rewrite (no_quote_even rest Hr).
  - apply andb_true_iff in Hc as [Ha Hc]. apply negb_true_iff in Ha.
    rewrite Ha. simpl. by rewrite (IH Hc).
Qed.

Lemma split_fields_single (c : string) :
  no_char comma c = true -> split_fields c = [c].
Proof.
  induction c as [|a c IH]; simpl; [done|].
  intros [Ha Hc]%andb_true_iff. apply negb_true_iff in Ha.
  rewrite Ha. simpl. by rewrite (IH Hc).
Qed.

Lemma no_char_app (c : ascii) (s t : string) :
  no_char c (s ++ t) = no_char c s && no_char c t.
Proof. induction s as [|a s IH]; simpl; [done|]. by rewrite IH, andb_assoc. Qed.

Lemma no_char_join (c : ascii) (cells : list string) :
  Ascii.eqb comma c = false ->
  Forall (fun s => no_char c s = true) cells -> no_char c (join_fields cells) = true.
Proof.
  intros Hc. induction 1 as [|s cells Hs Hcells IH]; [done|].
  destruct cells as [|s' cells]; [done|].
  change (no_char c (s ++ String comma (join_fields (s' :: cells))) = true).
  rewrite no_char_app, Hs. cbn [no_char andb]. by rewrite Hc, IH.
Qed.

(** Cells without comma and quote come back from the joined line. *)
Lemma split_fields_join (cells : list string) :
  cells <> [] ->
  Forall (fun s => no_char comma s = true) cells ->
  Forall (fun s => no_char quote s = true) cells ->
  split_fields (join_fields cells) = cells.
Proof.
  intros Hne Hc Hq. induction Hc as [|s cells Hs Hcells IH]; [done|].
  inversion Hq as [|? ? Hqs Hq']; subst.
  destruct cells as [|s' cells]; [by apply split_fields_single|].
  change (split_fields (s ++ String comma (join_fields (s' :: cells))) = s :: s' :: cells).
  rewrite split_fields_cons; [|done|by apply no_char_join].
  by rewrite IH.
Qed.

Lemma split_line_cons (h rest : string) :
  no_char newline h = true ->
  split newline (h ++ String newline rest) = h :: split newline rest.
Proof.
  generalize newline. intros sep Hh. induction h as [|a h IH]; cbn in *.
  - by rewrite Ascii.eqb_refl.
  - apply andb_true_iff in Hh as [Ha Hh]. apply negb_true_iff in Ha.
    rewrite Ha. by rewrite (IH Hh).
Qed.

Lemma split_line_single (s : string) :
  no_char newline s = true -> split newline s = [s].
Proof.
  generalize newline. intros sep. induction s as [|a s IH]; cbn; [done|].
  intros [Ha Hs]%andb_true_iff. apply negb_true_iff in Ha.
  rewrite Ha. by rewrite (IH Hs).
Qed.

Lemma trimEnd_id (s : string) : ends_non_white s = true -> trimEnd s = s.
Proof.
  induction s as [|a s IH]; [done|].
  destruct s as [|b s].
  - simpl. intros Ha. apply negb_true_iff in Ha. by rewrite Ha.
  - intros Hs. change (ends_non_white (String b s) = true) in Hs.
    change (trimEnd (String a (String b s)))
      with (match trimEnd (String b s) with
            | EmptyString => if is_white a then EmptyString else String a EmptyString
            | t => String a t
            end).
    by rewrite (IH Hs).
Qed.

Lemma ends_non_white_app (s t : string) :
  ends_non_white t = true -> ends_non_white (s ++ t) = true.
Proof.
  intros Ht. induction s as [|a s IH]; [done|].
  change (ends_non_white (String a (s ++ t)) = true).
  destruct (s ++ t)%string eqn:E; [discriminate IH|exact IH].
Qed.

Lemma trimStart_app (h rest : string) :
  all_white h = false -> trimStart (h ++ rest) = (trimStart h ++ rest)%string.
Proof.
  induction h as [|a h IH]; simpl; [done|].
  destruct (is_white a); simpl; [apply IH|done].
Qed.

Lemma no_char_trimStart (c : ascii) (h : string) :
  no_char c h = true -> no_char c (trimStart h) = true.
Proof.
  induction h as [|a h IH]; simpl; [done|].
  intros [Ha Hh]%andb_true_iff.
  destruct (is_white a); [by apply IH|]. simpl. by rewrite Ha, Hh.
Qed.

Lemma synthetic_cell_cases (i : nat) :
  synthetic_cell i = "5"%string \/ synthetic_cell i = "1"%string.
Proof. unfold synthetic_cell. destruct (bool_decide _); auto. Qed.

Lemma synthetic_cells_Forall (P : string -> Prop) (n : nat) :
  P "5"%string -> P "1"%string -> Forall P (synthetic_cell <$> seq 0 n).
Proof.
  intros H5 H1. apply Forall_fmap, Forall_forall. intros i _. simpl.
  by destruct (synthetic_cell_cases i) as [-> | ->].
Qed.

Lemma ends_non_white_join (cells : list string) :
  cells <> [] ->
  Forall (fun s => ends_non_white s = true) cells ->
  ends_non_white (join_fields cells) = true.
Proof.
  intros Hne H. induction H as [|s cells Hs Hcells IH]; [done|].
  destruct cells as [|s' cells]; [done|].
  change (ends_non_white (s ++ String comma (join_fields (s' :: cells))) = true).
  apply ends_non_white_app.
  specialize (IH ltac:(done)).
  change (ends_non_white (String comma (join_fields (s' :: cells))) = true).
  destruct (join_fields (s' :: cells)) eqn:E; [done|]. exact IH.
Qed.

Lemma getVal_synthetic (n i : nat) :
  (i < n)%nat ->
  getVal (synthetic_cell <$> seq 0 n) i
  = if bool_decide (i ∈ five_columns) then Fin 5 else Fin 1.
Proof.
  intros Hi. unfold getVal, element_string.
  rewrite list_lookup_fmap, lookup_seq_lt by done. simpl.
  unfold synthetic_cell. by destruct (bool_decide _).
Qed.

Lemma split_fields_synthetic (n : nat) :
  (0 < n)%nat -> split_fields (synthetic_row n) = synthetic_cell <$> seq 0 n.
Proof.
  intros Hn. apply split_fields_join.
  - destruct n; [lia|done].
  - by apply synthetic_cells_Forall.
  - by apply synthetic_cells_Forall.
Qed.

Lemma parse_line_synthetic (n : nat) :
  (23 <= n)%nat -> parse_line 0 (synthetic_row n) = synthetic_item.
Proof.
  intros Hn. unfold parse_line, intensityScore, dependencyScore, competenceScore,
    alienationScore, usageGroup_of.
  rewrite split_fields_synthetic by lia. simpl map.
  rewrite !getVal_synthetic by lia. reflexivity.
Qed.

Lemma data_lines_header_row (header row : string) :
  header_line header -> no_char newline row = true -> ends_non_white row = true ->
  data_lines (header ++ nl ++ row) = [row].
Proof.
  intros [Hh Hw] Hr He. unfold data_lines, trim.
  rewrite trimStart_app by done.
  change (nl ++ row)%string with (String newline row).
  assert (He' : ends_non_white (String newline row) = true).
  { destruct row; [discriminate He|exact He]. }
  rewrite trimEnd_id by (by apply ends_non_white_app).
  rewrite split_line_cons by (by apply no_char_trimStart).
  by rewrite split_line_single.
Qed.

Lemma parseCSVData_synthetic (header : string) (n : nat) :
  header_line header -> (23 <= n)%nat ->
  parseCSVData (header ++ nl ++ synthetic_row n) = [synthetic_item].
Proof.
  intros Hh Hn. unfold parseCSVData.
  rewrite data_lines_header_row; [|done|..].
  - change (imap parse_line [synthetic_row n])
      with [parse_line 0 (synthetic_row n)].
    by rewrite parse_line_synthetic.
  - apply no_char_join; [done|]. by apply synthetic_cells_Forall.
  - apply ends_non_white_join; [destruct n; [lia|done]|].
    by apply synthetic_cells_Forall.
Qed.

Lemma usage_group_by_column_2 (index : nat) (line : string) (q : Q) :
  getVal (split_fields line) 2 = Fin q ->
  ((q == 3)%Q -> usageGroup (parse_line index line) = moderate_light)
  /\ ((4 <= q)%Q -> usageGroup (parse_line index line) = heavy_user).
Proof.
  intros Hq. unfold parse_line, usageGroup_of. cbn [usageGroup]. rewrite Hq. simpl.
  split; intros H.
  - replace (Qle_bool 4 q) with false; [done|].
    symmetry. apply Qle_bool_false. lra.
  - replace (Qle_bool 4 q) with true; [done|].
    symmetry. by apply Qle_bool_iff.
Qed.

Lemma variant_parseCSVData_synthetic (header : string) (n : nat) :
  header_line header -> (23 <= n)%nat ->
  Variant.intensity <$> Variant.parseCSVData (header ++ nl ++ synthetic_row n)
  = [Fin 5].
Proof.
  intros Hh Hn. unfold Variant.parseCSVData.
  rewrite data_lines_header_row; [|done|..].
  - change (imap Variant.parse_line [synthetic_row n])
      with [Variant.parse_line 0 (synthetic_row n)].
    unfold Variant.parse_line, intensityScore.
    rewrite split_fields_synthetic by lia. simpl map.
    rewrite !getVal_synthetic by lia. reflexivity.
  - apply no_char_join; [done|]. by apply synthetic_cells_Forall.
  - apply ends_non_white_join; [destruct n; [lia|done]|].
    by apply synthetic_cells_Forall.
Qed.

(** C7.  A text of a header line and one line of at least 23 columns, 5 in
    the columns 2, 4, 5, 18 and 19 and 1 in the others, yields one record,
    of intensity 5, in both variants of the dashboard.  A line whose
    column 2 reads as 3 is in the group Moderate/Light, and one whose
    column 2 reads as 4 or more is a heavy user. *)
Theorem composite_scoring (header : string) (ncols : nat) :
  header_line header -> (23 <= ncols)%nat ->
  parseCSVData (header ++ nl ++ synthetic_row ncols) = [synthetic_item]
  /\ intensity synthetic_item = Fin 5
  /\ Variant.intensity
       <$> Variant.parseCSVData (header ++ nl ++ synthetic_row ncols) = [Fin 5]
  /\ (forall index line q,
        getVal (split_fields line) 2 = Fin q ->
        ((q == 3)%Q -> usageGroup (parse_line index line) = moderate_light)
        /\ ((4 <= q)%Q -> usageGroup (parse_line index line) = heavy_user)).
Proof.
  intros Hh Hn. split; [by apply parseCSVData_synthetic|]. split; [done|].
  split; [by apply variant_parseCSVData_synthetic|].
  apply usage_group_by_column_2.
Qed.

Lemma composite_scoring_witness :
  parseCSVData example_csv = [synthetic_item]
  /\ usageGroup (parse_line 0 "1,1,3") = moderate_light
  /\ usageGroup (parse_line 0 "1,1,4") = heavy_user.
Proof.
  destruct (composite_scoring "h" 23) as (H1 & _ & _ & H2).
  - split; reflexivity.
  - lia.
  - split; [exact H1|]. split.
    + apply (H2 0%nat "1,1,3"%string 3%Q); reflexivity.
    + apply (H2 0%nat "1,1,4"%string 4%Q); [reflexivity|]. discriminate.
Defined.

(** * Further properties *)

(** ** Ranks in general: ties keep the order of the input *)

Lemma lex_ltb_spec (a b : number * nat) : lex_ltb a b = true <-> lex_lt a b.
Proof.
  destruct a as [[p| | |] i], b as [[q| | |] j]; unfold lex_ltb, lex_lt; simpl;
    try (split; [discriminate|tauto]).
  rewrite orb_true_iff, andb_true_iff, negb_true_iff, Qle_bool_false,
    Qeq_bool_iff, Nat.ltb_lt. tauto.
Qed.

Lemma lex_lt_irrefl (a : number * nat) : ~ lex_lt a a.
Proof.
  destruct a as [[p| | |] i]; unfold lex_lt; simpl; try tauto.
  intros [H|[_ H]]; [lra|lia].
Qed.

Lemma lex_lt_asym (a b : number * nat) : lex_lt a b -> ~ lex_lt b a.
Proof.
  destruct a as [[p| | |] i], b as [[q| | |] j]; unfold lex_lt; simpl; try tauto.
  intros [H|[H1 H2]] [H'|[H1' H2']]; try lra. lia.
Qed.

Lemma lex_lt_trans (a b c : number * nat) : lex_lt a b -> lex_lt b c -> lex_lt a c.
Proof.
  destruct a as [[p| | |] i], b as [[q| | |] j], c as [[r| | |] k];
    unfold lex_lt; simpl; try tauto.
  intros [H|[H1 H2]] [H'|[H1' H2']].
  - left. lra.
  - left. lra.
  - left. lra.
  - right. split; [lra|lia].
Qed.

Lemma sorted_indexed_lex (xs : list Q) :
  StronglySorted lex_lt (js_sort by_value (indexed xs)).
Proof.
  apply (js_sort_sorted by_value is_fin (index_before xs) lex_lt).
  - intros [a i] [b j] [p Hp] [q Hq] (Hij & _ & _) Haft. simpl in *. subst.
    rewrite after_by_value_fin in Haft. apply negb_false_iff, Qle_bool_iff in Haft.
    unfold lex_lt. simpl.
    destruct (Qlt_le_dec p q) as [Hlt|Hle]; [by left|].
    right. split; [lra|done].
  - intros [a i] [b j] [p Hp] [q Hq] Haft. simpl in *. subst.
    rewrite after_by_value_fin in Haft. apply negb_true_iff, Qle_bool_false in Haft.
    by left.
  - intros a b c _ _ _. apply lex_lt_trans.
  - apply Forall_forall. intros e He. apply indexed_elem in He as (q & _ & ->).
    by exists q.
  - apply indexed_sorted_by_index.
Qed.

(** In the sorted array the position of an object is the number of objects
    before it in that order. *)
Lemma position_counts_before (l : list (number * nat)) (k : nat) (e : number * nat) :
  StronglySorted lex_lt l -> l !! k = Some e ->
  length (List.filter (fun e' => lex_ltb e' e) l) = k.
Proof.
  intros Hs Hk.
  rewrite <- (take_drop_middle l k e Hk) in Hs |- *.
  apply StronglySorted_middle in Hs as [H1 H2].
  rewrite List.filter_app. simpl.
  replace (lex_ltb e e) with false.
  2:{ symmetry. apply not_true_is_false. rewrite lex_ltb_spec. apply lex_lt_irrefl. }
  rewrite filter_all, filter_none.
  - rewrite length_app, length_take. simpl.
    apply lookup_lt_Some in Hk. lia.
  - eapply Forall_impl; [apply H2|]. intros a Ha. simpl.
    apply not_true_is_false. rewrite lex_ltb_spec. by apply lex_lt_asym.
  - eapply Forall_impl; [apply H1|]. intros a Ha. by apply lex_ltb_spec.
Qed.

(** The rank of an item: one more than the number of items of smaller
    value or of equal value and smaller index. *)
Lemma rank_lookup_count (xs : list Q) (i : nat) (p : Q) :
  xs !! i = Some p ->
  rank (length xs) (Fin <$> xs) !! i
  = Some (Z.of_nat (length (List.filter (fun e' => lex_ltb e' (Fin p, i))
                                        (indexed xs))) + 1).
Proof.
  intros Hi.
  assert (Hil : (i < length (Fin <$> xs))%nat).
  { rewrite length_fmap. by eapply lookup_lt_Some. }
  destruct (sorted_position _ i Hil) as (k & v & Hk).
  rewrite <- (length_fmap Fin xs). rewrite (rank_lookup _ _ _ _ Hk).
  assert (Hin : (v, i) ∈ indexed xs).
  { unfold indexed. rewrite <- (js_sort_perm by_value). by eapply list_elem_of_lookup_2. }
  apply indexed_elem in Hin as (q & Hq & Hv). simpl in *. simplify_eq.
  pose proof (position_counts_before _ k (Fin p, i) (sorted_indexed_lex xs) Hk) as Hc.
  rewrite (filter_length_perm _ _ _ (js_sort_perm by_value (indexed xs))) in Hc.
  by rewrite Hc.
Qed.

Lemma same_order_eq (xs ys : list Q) (i j : nat) (p q r s : Q) :
  same_order xs ys ->
  xs !! i = Some p -> xs !! j = Some q -> ys !! i = Some r -> ys !! j = Some s ->
  ((p == q)%Q <-> (r == s)%Q).
Proof.
  intros [_ H] Hi Hj Hi' Hj'.
  pose proof (H i j p q r s Hi Hj Hi' Hj') as H1.
  pose proof (H j i q p s r Hj Hi Hj' Hi') as H2.
  split; intros E.
  - destruct (Q_dec r s) as [[Hlt|Hgt]|Heq]; [| |done].
    + apply H1 in Hlt. lra.
    + apply H2 in Hgt. lra.
  - destruct (Q_dec p q) as [[Hlt|Hgt]|Heq]; [| |done].
    + apply H1 in Hlt. lra.
    + apply H2 in Hgt. lra.
Qed.

Lemma rank_same_order (xs ys : list Q) :
  same_order xs ys ->
  rank (length xs) (Fin <$> xs) = rank (length ys) (Fin <$> ys).
Proof.
  intros Hso. pose proof Hso as [Hl Hord]. apply list_eq. intros i.
  destruct (decide (i < length xs)%nat) as [Hi|Hi].
  - destruct (lookup_lt_is_Some_2 xs i Hi) as [p Hp].
    destruct (lookup_lt_is_Some_2 ys i) as [r Hr]; [lia|].
    rewrite (rank_lookup_count xs i p Hp), (rank_lookup_count ys i r Hr).
    do 3 f_equal. apply filter_length_pointwise.
    + unfold indexed. by rewrite !length_imap, !length_fmap.
    + intros j a b Ha Hb. rewrite indexed_lookup in Ha, Hb.
      destruct (xs !! j) as [q|] eqn:Eq; [|done].
      destruct (ys !! j) as [s|] eqn:Es; [|done]. simplify_eq/=.
      pose proof (Hord j i q p s r Eq Hp Es Hr) as Hlt.
      pose proof (same_order_eq xs ys j i q p s r Hso Eq Hp Es Hr) as Heq.
      apply eq_true_iff_eq. rewrite !lex_ltb_spec. unfold lex_lt. simpl. tauto.
  - rewrite !(lookup_ge_None_2 (rank _ _)); [done|rewrite rank_length; lia..].
Qed.

Lemma dSquaredSum_same (n : nat) (r : list Z) : dSquaredSum n r r = 0.
Proof.
  unfold dSquaredSum.
  rewrite (fold_left_add_sumZ (fun i => (nth i r 0 - nth i r 0) ^ 2)).
  induction (seq 0 n) as [|i l IH]; csimpl; [done|].
  rewrite Z.sub_diag. simpl in *. lia.
Qed.

Lemma spearman_equal_ranks (x y : list number) :
  length x = length y -> (2 <= length x)%nat ->
  rank (length x) x = rank (length x) y ->
  spearmanCorrelation x y = Fin 1.
Proof.
  intros Hl Hn Hr. rewrite spearman_eq_rho_exact by done.
  f_equal. change 1%Q with (Qred 1). apply Qred_complete.
  unfold rho_exact. rewrite <- Hr, dSquaredSum_same.
  set (n := Z.of_nat (length x)).
  assert (HN : ~ (inject_Z (n * (n * n - 1)) == 0)%Q).
  { intros E. unfold Qeq in E. simpl in E. subst n. nia. }
  change (inject_Z (6 * 0)) with 0%Q. field. done.
Qed.

(** X1.  The coefficient of a sequence of at least two numbers with itself is
    1, ties or not. *)
Theorem spearman_identity (x : list number) :
  (2 <= length x)%nat -> spearmanCorrelation x x = Fin 1.
Proof. intros Hn. by apply spearman_equal_ranks. Qed.

Lemma spearman_identity_witness :
  spearmanCorrelation [Fin 2; Fin 2; NaN; Fin 1] [Fin 2; Fin 2; NaN; Fin 1] = Fin 1.
Proof. apply spearman_identity. simpl. lia. Defined.

(** X5.  For sequences of equal length other than 1 and up to 300079 the
    coefficient that binary64 arithmetic yields is between -1 and 1. *)
Theorem spearman_in_range (x y : list number) :
  length x = length y -> length x <> 1%nat ->
  Z.of_nat (length x) <= 300079 ->
  in_unit_range (Binary64.spearmanCorrelation x y) = true.
Proof.
  intros Hl H1 Hn. destruct (decide (length x = 0%nat)) as [H0|H0].
  - rewrite binary64_spearman_guard by (by right). reflexivity.
  - destruct (binary64_spearman_eq x y Hl ltac:(lia)) as [-> [Hlo Hhi]].
    unfold in_unit_range. simpl. apply andb_true_iff.
    split; apply Qle_bool_iff; rewrite Qred_correct; done.
Qed.

Lemma spearman_in_range_witness :
  in_unit_range
    (Binary64.spearmanCorrelation [Fin 1; Fin 3; Fin 2] [Fin 2; Fin 3; Fin 1])
  = true.
Proof.
  refine (spearman_in_range [Fin 1; Fin 3; Fin 2] [Fin 2; Fin 3; Fin 1] _ _ _).
  - reflexivity.
  - discriminate.
  - simpl. lia.
Defined.

(** X2.  The coefficient depends on the order of the values only: a sequence
    can be replaced by any sequence that orders the indices the same way. *)
Theorem spearman_order_invariant (xs xs' : list Q) (y : list number) :
  same_order xs xs' ->
  spearmanCorrelation (Fin <$> xs) y = spearmanCorrelation (Fin <$> xs') y.
Proof.
  intros Hso. pose proof (rank_same_order xs xs' Hso) as Hr.
  destruct Hso as [Hl _].
  unfold spearmanCorrelation. rewrite !length_fmap, <- Hl.
  destruct (negb (length xs =? length y)%nat || (length xs =? 0)%nat) eqn:E; [done|].
  apply orb_false_iff in E as [E _]. apply negb_false_iff, Nat.eqb_eq in E.
  cbv zeta. rewrite Hr, <- Hl. reflexivity.
Qed.

Lemma spearman_order_invariant_witness :
  spearmanCorrelation (Fin <$> [1; 5; 5]%Q) [Fin 3; Fin 2; Fin 1]
  = spearmanCorrelation (Fin <$> [10; 20; 20]%Q) [Fin 3; Fin 2; Fin 1].
Proof.
  apply spearman_order_invariant. split; [reflexivity|].
  intros i j p q r s Hi Hj Hi' Hj'.
  destruct i as [|[|[|i]]], j as [|[|[|j]]]; simpl in *; simplify_eq;
    split; intros H; vm_compute in H |- *; congruence.
Defined.

(** X3.  Two sequences of at least two values that order the indices the same
    way have the coefficient 1. *)
Theorem spearman_monotone (xs ys : list Q) :
  (2 <= length xs)%nat -> same_order xs ys ->
  spearmanCorrelation (Fin <$> xs) (Fin <$> ys) = Fin 1.
Proof.
  intros Hn Hso. apply spearman_equal_ranks.
  - rewrite !length_fmap. apply Hso.
  - by rewrite length_fmap.
  - rewrite !length_fmap. rewrite (rank_same_order xs ys Hso).
    by destruct Hso as [-> _].
Qed.

Lemma spearman_monotone_witness :
  spearmanCorrelation (Fin <$> [1; 5; 5]%Q) (Fin <$> [10; 20; 20]%Q) = Fin 1.
Proof.
  apply spearman_monotone; [simpl; lia|]. split; [reflexivity|].
  intros i j p q r s Hi Hj Hi' Hj'.
  destruct i as [|[|[|i]]], j as [|[|[|j]]]; simpl in *; simplify_eq;
    split; intros H; vm_compute in H |- *; congruence.
Defined.

(** X4.  Ranks follow the values, and equal values are ranked in the order of
    the input: no rank is shared or averaged. *)
Theorem rank_ties_in_input_order (xs : list Q) (i j : nat) (p q : Q) (a b : Z) :
  xs !! i = Some p -> xs !! j = Some q ->
  rank (length xs) (Fin <$> xs) !! i = Some a ->
  rank (length xs) (Fin <$> xs) !! j = Some b ->
  (p < q)%Q \/ ((p == q)%Q /\ (i < j)%nat) ->
  a < b.
Proof.
  intros Hi Hj Ha Hb Hlt.
  assert (Hil : (i < length (Fin <$> xs))%nat).
  { rewrite length_fmap. by eapply lookup_lt_Some. }
  assert (Hjl : (j < length (Fin <$> xs))%nat).
  { rewrite length_fmap. by eapply lookup_lt_Some. }
  destruct (sorted_position _ i Hil) as (ki & vi & Hki).
  destruct (sorted_position _ j Hjl) as (kj & vj & Hkj).
  pose proof (rank_lookup _ _ _ _ Hki) as Hri.
  pose proof (rank_lookup _ _ _ _ Hkj) as Hrj.
  rewrite length_fmap in Hri, Hrj.
  assert (Hvi : vi = Fin p).
  { assert (Hin : (vi, i) ∈ indexed xs).
    { unfold indexed. rewrite <- (js_sort_perm by_value). by eapply list_elem_of_lookup_2. }
    apply indexed_elem in Hin as (p' & Hp' & Hv). simpl in *. by simplify_eq. }
  assert (Hvj : vj = Fin q).
  { assert (Hin : (vj, j) ∈ indexed xs).
    { unfold indexed. rewrite <- (js_sort_perm by_value). by eapply list_elem_of_lookup_2. }
    apply indexed_elem in Hin as (q' & Hq' & Hv). simpl in *. by simplify_eq. }
  subst vi vj. simplify_eq.
  assert (Hlex : lex_lt (Fin p, i) (Fin q, j)) by done.
  destruct (Nat.lt_trichotomy ki kj) as [H|[H|H]]; [lia| |].
  - subst kj. simplify_eq. by apply lex_lt_irrefl in Hlex.
  - pose proof (StronglySorted_lookup _ _ (sorted_indexed_lex xs) kj ki _ _ H Hkj Hki) as Hc.
    by apply lex_lt_asym in Hc.
Qed.

Lemma rank_ties_in_input_order_witness :
  exists a b : Z,
    rank 3 (Fin <$> [3; 3; 1]%Q) !! 0%nat = Some a
    /\ rank 3 (Fin <$> [3; 3; 1]%Q) !! 1%nat = Some b
    /\ a < b.
Proof.
  exists 2, 3. split; [reflexivity|]. split; [reflexivity|].
  apply (rank_ties_in_input_order [3; 3; 1]%Q 0 1 3%Q 3%Q 2 3); try reflexivity.
  right. split; [reflexivity|lia].
Defined.

(** ** More on [parseCSVData] *)

Lemma StronglySorted_of_lookup {A : Type} (R : A -> A -> Prop) (l : list A) :
  (forall i j a b, (i < j)%nat -> l !! i = Some a -> l !! j = Some b -> R a b) ->
  StronglySorted R l.
Proof.
  induction l as [|a l IH]; intros Hl; constructor.
  - apply IH. intros i j c d Hij Hi Hj. apply (Hl (S i) (S j)); [lia|done..].
  - apply Forall_forall. intros b Hb.
    apply list_elem_of_lookup in Hb as [j Hj].
    apply (Hl 0%nat (S j)); [lia|done..].
Qed.

Lemma StronglySorted_filter {A : Type} (R : A -> A -> Prop) (f : A -> bool)
    (l : list A) :
  StronglySorted R l -> StronglySorted R (List.filter f l).
Proof.
  induction 1 as [|a l Hs IH Ha]; simpl; [constructor|].
  destruct (f a); [|done]. constructor; [done|].
  rewrite Forall_forall in Ha |- *. intros b Hb.
  apply list_elem_of_In, filter_In in Hb as [Hb _]. by apply Ha, list_elem_of_In.
Qed.

Lemma filter_length_le {A : Type} (f : A -> bool) (l : list A) :
  (length (List.filter f l) <= length l)%nat.
Proof. induction l as [|a l IH]; simpl; [lia|]. destruct (f a); simpl; lia. Qed.

(** X6.  The records come in the order of the lines: the identifiers increase,
    each is the number of its line among the data lines, and no more
    records than data lines come out. *)
Theorem parseCSVData_ids (csvText : string) :
  StronglySorted (fun a b => id a < id b) (parseCSVData csvText)
  /\ Forall (fun d => exists line,
               data_lines csvText !! Z.to_nat (id d - 1) = Some line
               /\ d = parse_line (Z.to_nat (id d - 1)) line)
            (parseCSVData csvText)
  /\ (length (parseCSVData csvText) <= length (data_lines csvText))%nat.
Proof.
  split; [|split].
  - unfold parseCSVData. apply StronglySorted_filter, StronglySorted_of_lookup.
    intros i j a b Hij Hi Hj. rewrite list_lookup_imap in Hi, Hj.
    destruct (data_lines csvText !! i); [|done].
    destruct (data_lines csvText !! j); [|done].
    simplify_eq/=. lia.
  - apply Forall_forall. intros d Hd.
    apply elem_of_parseCSVData in Hd as (k & line & Hk & -> & _).
    rewrite parse_line_id. replace (Z.to_nat (Z.of_nat k + 1 - 1)) with k by lia.
    by exists line.
  - unfold parseCSVData. etransitivity; [apply filter_length_le|].
    by rewrite length_imap.
Qed.

(** *** Scores on the scale *)

Lemma overflow_small (q : Q) : (-100 <= q <= 100)%Q -> overflow q = Fin (Qred q).
Proof.
  intros [Hlo Hhi]. apply overflow_fin.
  assert (H21 : (100 <= inject_Z (10 ^ 21))%Q) by done.
  split; lra.
Qed.

Lemma round_half_away_bounds (digits : nat) (a b : Z) (q : Q) :
  0 <= a -> (inject_Z a <= q <= inject_Z b)%Q ->
  (inject_Z a <= round_half_away digits q <= inject_Z b)%Q.
Proof.
  intros Ha [Hlo Hhi]. unfold round_half_away.
  set (s := 10 ^ Z.of_nat digits).
  assert (Hs : 0 < s) by (apply Z.pow_pos_nonneg; lia).
  assert (Hsq : (0 < inject_Z s)%Q) by (by rewrite <- (Zlt_Qlt 0)).
  assert (Hq0 : (0 <= q)%Q).
  { eapply Qle_trans; [|apply Hlo]. by rewrite <- (Zle_Qle 0). }
  replace (Qle_bool 0 q) with true by (symmetry; by apply Qle_bool_iff).
  rewrite (Qabs_pos q Hq0).
  set (x := (q * inject_Z s + (1 # 2))%Q).
  assert (H1 : a * s <= Qfloor x).
  { rewrite <- (Qfloor_Z (a * s)). apply Qfloor_resp_le.
    unfold x. rewrite inject_Z_mult. nra. }
  assert (H2 : Qfloor x <= b * s).
  { apply Z.lt_succ_r. rewrite Zlt_Qlt.
    eapply Qle_lt_trans; [apply Qfloor_le|].
    unfold x, Z.succ. rewrite inject_Z_plus, inject_Z_mult.
    change (inject_Z 1) with 1%Q. nra. }
  rewrite Zle_Qle in H1, H2. rewrite inject_Z_mult in H1, H2.
  split.
  - apply Qle_shift_div_l; [done|]. done.
  - apply Qle_shift_div_r; [done|]. done.
Qed.

Lemma parseFloat_toFixed_on_scale (digits : nat) (q : Q) :
  (1 <= q <= 5)%Q -> on_scale (parseFloat_toFixed digits (Fin q)).
Proof.
  intros Hq. unfold parseFloat_toFixed.
  replace (Qle_bool (inject_Z (10 ^ 21)) (Qabs q)) with false.
  2:{ symmetry. apply Qle_bool_false. rewrite Qabs_pos by lra.
      assert (H21 : (100 <= inject_Z (10 ^ 21))%Q) by done. lra. }
  eexists. split; [reflexivity|]. rewrite Qred_correct.
  apply (round_half_away_bounds digits 1 5 q); [lia|done].
Qed.

Lemma js_add_small (p q : Q) :
  (-50 <= p <= 50)%Q -> (-50 <= q <= 50)%Q ->
  js_add (Fin p) (Fin q) = Fin (Qred (p + q)).
Proof. intros Hp Hq. simpl. apply overflow_small. lra. Qed.

Lemma js_div_small (p : Q) (d : Z) :
  (-100 <= p <= 100)%Q -> 1 <= d ->
  js_div (Fin p) (Fin (inject_Z d)) = Fin (Qred (p / inject_Z d)).
Proof.
  intros Hp Hd. unfold js_div.
  assert (Hdq : (1 <= inject_Z d)%Q) by (by rewrite <- (Zle_Qle 1)).
  replace (Qeq_bool (inject_Z d) 0) with false.
  2:{ symmetry. apply not_true_is_false. intros E. apply Qeq_bool_iff in E. lra. }
  apply overflow_small.
  assert (Hinv : (0 < / inject_Z d <= 1)%Q).
  { split; [apply Qinv_lt_0_compat; lra|].
    apply Qle_shift_inv_r; lra. }
  unfold Qdiv. nra.
Qed.

Lemma score_on_scale_5 (a b c d e : number) :
  on_scale a -> on_scale b -> on_scale c -> on_scale d -> on_scale e ->
  on_scale (parseFloat_toFixed 2 (js_div (sum_numbers [a; b; c; d; e]) (Fin 5))).
Proof.
  intros (qa & -> & Ha) (qb & -> & Hb) (qc & -> & Hc) (qd & -> & Hd) (qe & -> & He).
  change (sum_numbers [Fin qa; Fin qb; Fin qc; Fin qd; Fin qe])
    with (js_add (js_add (js_add (js_add (Fin qa) (Fin qb)) (Fin qc)) (Fin qd))
                 (Fin qe)).
  pose proof (Qred_correct (qa + qb)) as E1.
  rewrite (js_add_small qa qb) by lra.
  pose proof (Qred_correct (Qred (qa + qb) + qc)) as E2.
  rewrite js_add_small by lra.
  pose proof (Qred_correct (Qred (Qred (qa + qb) + qc) + qd)) as E3.
  rewrite js_add_small by lra.
  set (s3 := Qred (Qred (Qred (qa + qb) + qc) + qd)) in *.
  pose proof (Qred_correct (s3 + qe)) as E4.
  rewrite js_add_small by lra.
  set (s4 := Qred (s3 + qe)) in *.
  change (Fin 5) with (Fin (inject_Z 5)).
  rewrite js_div_small by (lra || lia).
  apply parseFloat_toFixed_on_scale.
  change (inject_Z 5) with 5%Q.
  assert (Hdiv : (s4 / 5 == s4 * (1 # 5))%Q) by (by field).
  rewrite Qred_correct. lra.
Qed.

Lemma score_on_scale_4 (a b c d : number) :
  on_scale a -> on_scale b -> on_scale c -> on_scale d ->
  on_scale (parseFloat_toFixed 2 (js_div (sum_numbers [a; b; c; d]) (Fin 4))).
Proof.
  intros (qa & -> & Ha) (qb & -> & Hb) (qc & -> & Hc) (qd & -> & Hd).
  change (sum_numbers [Fin qa; Fin qb; Fin qc; Fin qd])
    with (js_add (js_add (js_add (Fin qa) (Fin qb)) (Fin qc)) (Fin qd)).
  pose proof (Qred_correct (qa + qb)) as E1.
  rewrite (js_add_small qa qb) by lra.
  pose proof (Qred_correct (Qred (qa + qb) + qc)) as E2.
  rewrite js_add_small by lra.
  pose proof (Qred_correct (Qred (Qred (qa + qb) + qc) + qd)) as E3.
  rewrite js_add_small by lra.
  set (s3 := Qred (Qred (Qred (qa + qb) + qc) + qd)) in *.
  change (Fin 4) with (Fin (inject_Z 4)).
  rewrite js_div_small by (lra || lia).
  apply parseFloat_toFixed_on_scale.
  change (inject_Z 4) with 4%Q.
  assert (Hdiv : (s3 / 4 == s3 * (1 # 4))%Q) by (by field).
  rewrite Qred_correct. lra.
Qed.

(** X7.  A line whose score columns all read as numbers between 1 and 5 has
    its four scores between 1 and 5. *)
Theorem scores_on_scale (index : nat) (line : string) :
  (forall c, c ∈ score_columns -> on_scale (getVal (split_fields line) c)) ->
  on_scale (intensity (parse_line index line))
  /\ on_scale (dependency (parse_line index line))
  /\ on_scale (competence (parse_line index line))
  /\ on_scale (alienation (parse_line index line)).
Proof.
  intros H.
  assert (Hc : forall c, bool_decide (c ∈ score_columns) = true ->
                         on_scale (getVal (split_fields line) c)).
  { intros c Hc. apply H. by apply bool_decide_eq_true in Hc. }
  unfold parse_line. cbn [intensity dependency competence alienation].
  unfold intensityScore, dependencyScore, competenceScore, alienationScore.
  cbn [map].
  repeat split; first [apply score_on_scale_5|apply score_on_scale_4];
    apply Hc; reflexivity.
Qed.

Lemma scores_on_scale_witness : on_scale (intensity (parse_line 0 example_row)).
Proof.
  apply (scores_on_scale 0 example_row).
  intros c Hc. unfold on_scale, score_columns in *.
  repeat (apply elem_of_cons in Hc as [->|Hc];
          [eexists; split; [vm_compute; reflexivity|split; discriminate]|]).
  by apply elem_of_nil in Hc.
Defined.

(** *** Rows that are kept *)

Lemma overflow_not_NaN (q : Q) : isNaN (overflow q) = false.
Proof.
  unfold overflow. destruct (Qle_bool _ q); [done|].
  by destruct (Qle_bool q _).
Qed.

Lemma js_add_fin_not_NaN (a : number) (q : Q) :
  isNaN a = false -> isNaN (js_add a (Fin q)) = false.
Proof. destruct a; simpl; try done. intros _. apply overflow_not_NaN. Qed.

Lemma js_div_fin_not_NaN (a : number) (d : Q) :
  isNaN a = false -> Qeq_bool d 0 = false -> isNaN (js_div a (Fin d)) = false.
Proof.
  intros Ha Hd. destruct a; simpl; try done.
  - rewrite Hd. apply overflow_not_NaN.
  - by destruct (Qneg_bool d).
  - by destruct (Qneg_bool d).
Qed.

Lemma parseFloat_toFixed_not_NaN (digits : nat) (a : number) :
  isNaN a = false -> isNaN (parseFloat_toFixed digits a) = false.
Proof.
  destruct a; simpl; try done. intros _.
  by destruct (Qle_bool _ (Qabs q)).
Qed.

(** X8.  A line whose five intensity columns read as finite numbers yields a
    record: only a column that reads as an infinity can make a line
    disappear. *)
Theorem finite_intensity_kept (csvText : string) (k : nat) (line : string) :
  data_lines csvText !! k = Some line ->
  (forall c, c ∈ five_columns -> exists q, getVal (split_fields line) c = Fin q) ->
  parse_line k line ∈ parseCSVData csvText.
Proof.
  intros Hk H. apply elem_of_parseCSVData. exists k, line.
  split; [done|]. split; [done|].
  unfold parse_line. cbn [intensity]. unfold intensityScore. cbn [map].
  destruct (H 2%nat) as [q2 ->]; [by apply (bool_decide_unpack _)|].
  destruct (H 4%nat) as [q4 ->]; [by apply (bool_decide_unpack _)|].
  destruct (H 5%nat) as [q5 ->]; [by apply (bool_decide_unpack _)|].
  destruct (H 18%nat) as [q18 ->]; [by apply (bool_decide_unpack _)|].
  destruct (H 19%nat) as [q19 ->]; [by apply (bool_decide_unpack _)|].
  apply parseFloat_toFixed_not_NaN, js_div_fin_not_NaN; [|done].
  unfold sum_numbers. cbn [fold_left].
  by repeat apply js_add_fin_not_NaN.
Qed.

Lemma finite_intensity_kept_witness :
  parse_line 0 "a,b,c" ∈ parseCSVData ("h" ++ nl ++ "a,b,c").
Proof.
  apply finite_intensity_kept; [reflexivity|].
  intros c _. exists 0%Q.
  unfold getVal, element_string.
  do 3 (destruct c as [|c]; [reflexivity|]). reflexivity.
Defined.

(** *** Fields *)

Lemma split_fields_nonempty (s : string) : split_fields s <> [].
Proof.
  destruct s as [|c s]; simpl; [done|].
  destruct (Ascii.eqb c comma && even_quotes s); [done|].
  by destruct (split_fields s).
Qed.

Lemma join_fields_cons_char (c : ascii) (f : string) (fs : list string) :
  join_fields (String c f :: fs) = String c (join_fields (f :: fs)).
Proof. by destruct fs. Qed.

(** X9.  Joining the fields of a line with commas gives the line back: the
    split loses nothing but the separators. *)
Theorem join_split_fields (line : string) :
  join_fields (split_fields line) = line.
Proof.
  induction line as [|c s IH]; [done|].
  cbn [split_fields].
  destruct (Ascii.eqb c comma && even_quotes s) eqn:E.
  - apply andb_true_iff in E as [E _]. apply Ascii.eqb_eq in E. subst c.
    pose proof (split_fields_nonempty s) as Hne.
    destruct (split_fields s) as [|f fs] eqn:Efs; [done|].
    change (join_fields (EmptyString :: f :: fs))
      with (String comma (join_fields (f :: fs))).
    by rewrite IH.
  - pose proof (split_fields_nonempty s) as Hne.
    destruct (split_fields s) as [|f fs] eqn:Efs; [done|].
    by rewrite join_fields_cons_char, IH.
Qed.

Lemma split_fields_quotes (s : string) :
  match split_fields s with
  | [] => False
  | f :: fs => even_quotes f = even_quotes s
               /\ Forall (fun g => even_quotes g = true) fs
  end.
Proof.
  induction s as [|c s IH]; [by split|].
  cbn [split_fields].
  destruct (Ascii.eqb c comma && even_quotes s) eqn:E.
  - apply andb_true_iff in E as [Ec Es]. apply Ascii.eqb_eq in Ec. subst c.
    split; [change (true = even_quotes s); by rewrite Es|].
    destruct (split_fields s) as [|f fs]; [done|].
    destruct IH as [Hf Hfs]. constructor; [congruence|done].
  - destruct (split_fields s) as [|f fs]; [done|].
    destruct IH as [Hf Hfs]. split; [|done].
    cbn [even_quotes]. by rewrite Hf.
Qed.

Lemma split_fields_no_comma (s : string) :
  no_char quote s = true ->
  Forall (fun f => no_char comma f = true) (split_fields s).
Proof.
  induction s as [|c s IH]; [by repeat constructor|].
  cbn [no_char split_fields]. intros [Hc Hs]%andb_true_iff.
  specialize (IH Hs). rewrite (no_quote_even s Hs), andb_true_r.
  destruct (Ascii.eqb c comma) eqn:E; [by constructor|].
  destruct (split_fields s) as [|f fs]; [repeat constructor; cbn; by rewrite E|].
  inversion IH; subst. constructor; [|done]. cbn [no_char]. by rewrite E.
Qed.

(** X10.  Quoted fields are respected: in a line with an even number of quotes
    every field has an even number of quotes, so no field ends inside a
    quoted span; and in a line without quotes every comma separates. *)
Theorem split_fields_respects_quotes (line : string) :
  (even_quotes line = true ->
   Forall (fun f => even_quotes f = true) (split_fields line))
  /\ (no_char quote line = true ->
      Forall (fun f => no_char comma f = true) (split_fields line)).
Proof.
  split; [|apply split_fields_no_comma].
  intros He. pose proof (split_fields_quotes line) as H.
  destruct (split_fields line) as [|f fs]; [done|].
  destruct H as [Hf Hfs]. constructor; [congruence|done].
Qed.

Lemma split_fields_respects_quotes_witness :
  Forall (fun f => no_char comma f = true) (split_fields example_row).
Proof. by apply (split_fields_respects_quotes example_row). Defined.

(** *** White space around the text *)

Lemma trimStart_white_app (w s : string) :
  all_white w = true -> trimStart (w ++ s) = trimStart s.
Proof.
  induction w as [|c w IH]; simpl; [done|].
  intros [Hc Hw]%andb_true_iff. rewrite Hc. by apply IH.
Qed.

Lemma trimEnd_white (w : string) : all_white w = true -> trimEnd w = EmptyString.
Proof.
  induction w as [|c w IH]; simpl; [done|].
  intros [Hc Hw]%andb_true_iff. by rewrite (IH Hw), Hc.
Qed.

Lemma trimEnd_app_white (s w : string) :
  all_white w = true -> trimEnd (s ++ w) = trimEnd s.
Proof.
  intros Hw. induction s as [|c s IH]; simpl; [by apply trimEnd_white|].
  by rewrite IH.
Qed.

Lemma all_white_true_false (s : string) :
  all_white s = true \/ all_white s = false.
Proof. destruct (all_white s); auto. Qed.

Lemma trim_surrounded (w s w' : string) :
  all_white w = true -> all_white w' = true -> trim (w ++ s ++ w') = trim s.
Proof.
  intros Hw Hw'. unfold trim. rewrite trimStart_white_app by done.
  destruct (all_white_true_false s) as [Hs|Hs].
  - rewrite trimStart_white_app by done.
    by rewrite (all_white_trimStart w'), (all_white_trimStart s).
  - rewrite trimStart_app by done. by apply trimEnd_app_white.
Qed.

(** X11.  White space before and after the text, such as a line break at the
    end of the file, does not change the records. *)
Theorem parseCSVData_surrounded (w csvText w' : string) :
  all_white w = true -> all_white w' = true ->
  parseCSVData (w ++ csvText ++ w') = parseCSVData csvText.
Proof.
  intros Hw Hw'. unfold parseCSVData, data_lines.
  by rewrite trim_surrounded.
Qed.

Lemma parseCSVData_surrounded_witness :
  parseCSVData (nl ++ example_csv ++ nl ++ "  ") = parseCSVData example_csv.
Proof. apply (parseCSVData_surrounded nl example_csv (nl ++ "  ")); reflexivity. Defined.

(** *** Carriage returns *)

Lemma parseInt_parse_signed (s : string) : parseInt s = parse_signed (trimStart s).
Proof.
  unfold parseInt, parse_signed, parse_unsigned.
  destruct (trimStart s) as [|a r]; [done|].
  destruct a as [[|] [|] [|] [|] [|] [|] [|] [|]]; reflexivity.
Qed.

Lemma read_digits_app_cr (radix : Z) (s : string) (acc : option Z) :
  read_digits radix acc (s ++ carriage_return) = read_digits radix acc s.
Proof.
  revert acc. induction s as [|c s IH]; intros acc.
  - cbn. unfold digit_value. cbn. by rewrite Z.ltb_irrefl.
  - cbn [append read_digits]. destruct (digit_value radix c); [apply IH|done].
Qed.

Lemma parse_unsigned_app_cr (negative : bool) (s : string) :
  parse_unsigned negative (s ++ carriage_return) = parse_unsigned negative s.
Proof.
  unfold parse_unsigned.
  destruct s as [|a [|b r]].
  - reflexivity.
  - destruct a as [[|] [|] [|] [|] [|] [|] [|] [|]];
      cbn [append]; try (by rewrite <- (read_digits_app_cr _ (String _ EmptyString))).
  - destruct a as [[|] [|] [|] [|] [|] [|] [|] [|]];
      try (cbn [append];
           by rewrite <- (read_digits_app_cr _ (String _ (String b r)))).
    destruct b as [[|] [|] [|] [|] [|] [|] [|] [|]];
      cbn [append];
      first [by rewrite read_digits_app_cr
            |by rewrite <- (read_digits_app_cr _ (String _ (String _ r)))].
Qed.

Lemma parseInt_app_cr (s : string) : parseInt (s ++ carriage_return) = parseInt s.
Proof.
  rewrite !parseInt_parse_signed.
  destruct (all_white_true_false s) as [Hs|Hs].
  - rewrite trimStart_white_app by done. by rewrite (all_white_trimStart s).
  - rewrite trimStart_app by done.
    destruct (trimStart s) as [|a r] eqn:E.
    { exfalso. clear -Hs E. induction s as [|c s IH]; simpl in *; [done|].
      destruct (is_white c); simpl in *; [by apply IH|done]. }
    unfold parse_signed.
    destruct a as [[|] [|] [|] [|] [|] [|] [|] [|]];
      cbn [append];
      first [apply parse_unsigned_app_cr
            |apply (parse_unsigned_app_cr false (String _ r))].
Qed.

Lemma even_quotes_app_cr (s : string) :
  even_quotes (s ++ carriage_return) = even_quotes s.
Proof.
  induction s as [|c s IH]; [reflexivity|].
  cbn [append even_quotes]. by rewrite IH.
Qed.

Lemma append_last_cons (t f : string) (fs : list string) :
  fs <> [] -> append_last t (f :: fs) = f :: append_last t fs.
Proof. by destruct fs. Qed.

Lemma split_fields_app_cr (s : string) :
  split_fields (s ++ carriage_return)
  = append_last carriage_return (split_fields s).
Proof.
  induction s as [|c s IH]; [reflexivity|].
  cbn [append split_fields]. rewrite even_quotes_app_cr, IH.
  pose proof (split_fields_nonempty s) as Hne.
  destruct (Ascii.eqb c comma && even_quotes s).
  - by rewrite append_last_cons.
  - destruct (split_fields s) as [|f [|g fs]]; [done|reflexivity|reflexivity].
Qed.

Lemma getVal_append_last_cr (fields : list string) (idx : nat) :
  getVal (append_last carriage_return fields) idx = getVal fields idx.
Proof.
  unfold getVal, element_string. f_equal. revert idx.
  induction fields as [|f fs IH]; intros idx; [done|].
  destruct fs as [|g fs].
  - destruct idx as [|idx]; [|done]. apply parseInt_app_cr.
  - destruct idx as [|idx]; [done|]. apply (IH idx).
Qed.

(** X12.  A carriage return at the end of a line, as a text with Windows line
    ends leaves it, does not change the record of the line. *)
Theorem parse_line_carriage_return (index : nat) (line : string) :
  parse_line index (line ++ carriage_return) = parse_line index line.
Proof.
  unfold parse_line, intensityScore, dependencyScore, competenceScore,
    alienationScore, usageGroup_of.
  rewrite split_fields_app_cr. cbn [map].
  by rewrite !getVal_append_last_cr.
Qed.

(** ** The overview statistics *)

Lemma includes_heavy (csvText : string) (d : DataItem) :
  d ∈ parseCSVData csvText ->
  includes "Heavy" (usageGroup d)
  = js_ge (getVal (split_fields (source_line csvText d)) 2) (Fin 4).
Proof.
  intros Hd. unfold source_line.
  apply elem_of_parseCSVData in Hd as (k & line & Hk & -> & _).
  rewrite parse_line_id. replace (Z.to_nat (Z.of_nat k + 1 - 1)) with k by lia.
  rewrite Hk. cbn [default]. unfold parse_line, usageGroup_of. cbn [usageGroup].
  by destruct (js_ge _ _).
Qed.

(** X13.  The heavy users the overview counts among the parsed records are the
    records of the lines whose column 2 reads as 4 or more, and there are
    no more of them than records. *)
Theorem heavyUsersCount_parsed (csvText : string) :
  heavyUsersCount (parseCSVData csvText)
  = length (List.filter
              (fun d => js_ge (getVal (split_fields (source_line csvText d)) 2)
                              (Fin 4))
              (parseCSVData csvText))
  /\ (heavyUsersCount (parseCSVData csvText)
      <= length (parseCSVData csvText))%nat.
Proof.
  split; [|apply filter_length_le].
  unfold heavyUsersCount.
  assert (H : Forall (fun d =>
     includes "Heavy" (usageGroup d)
     = js_ge (getVal (split_fields (source_line csvText d)) 2) (Fin 4))
     (parseCSVData csvText)).
  { apply Forall_forall. intros d Hd. by apply includes_heavy. }
  induction H as [|d l Hd _ IH]; [done|].
  cbn [List.filter]. rewrite Hd. destruct (js_ge _ _); simpl; by rewrite IH.
Qed.

Lemma mean_fold_bounds (k : variable) (data : list DataItem) (m : nat) (s : Q) :
  (Z.of_nat (m + length data) < 2 ^ 32) ->
  (inject_Z (Z.of_nat m) <= s <= 5 * inject_Z (Z.of_nat m))%Q ->
  Forall (fun d => on_scale (field k d)) data ->
  exists s', fold_left (fun a b => js_add a (field k b)) data (Fin s) = Fin s'
             /\ (inject_Z (Z.of_nat (m + length data)) <= s'
                 <= 5 * inject_Z (Z.of_nat (m + length data)))%Q.
Proof.
  intros Hlen Hs Hall. revert m s Hlen Hs.
  induction Hall as [|d data (q & Hq & Hd) _ IH]; intros m s Hlen Hs.
  - exists s. by rewrite Nat.add_0_r.
  - cbn [fold_left length] in *. rewrite Hq.
    assert (Hm : (inject_Z (Z.of_nat m) <= inject_Z (2 ^ 32))%Q).
    { rewrite <- Zle_Qle. lia. }
    assert (Hm0 : (0 <= inject_Z (Z.of_nat m))%Q).
    { rewrite <- (Zle_Qle 0). lia. }
    assert (H32 : (5 * inject_Z (2 ^ 32) + 5 <= inject_Z (10 ^ 21))%Q).
    { vm_compute. discriminate. }
    assert (Hadd : js_add (Fin s) (Fin q) = Fin (Qred (s + q))).
    { simpl. apply overflow_fin. split; lra. }
    rewrite Hadd.
    destruct (IH (S m) (Qred (s + q))) as (s' & Hs' & Hb).
    + rewrite Nat.add_succ_l, <- Nat.add_succ_r. done.
    + rewrite Qred_correct, Nat2Z.inj_succ. unfold Z.succ.
      rewrite inject_Z_plus. change (inject_Z 1) with 1%Q. lra.
    + exists s'. split; [done|].
      by rewrite Nat.add_succ_r, <- Nat.add_succ_l.
Qed.

Lemma mean_score_empty (k : variable) : mean_score k [] = NaN.
Proof. reflexivity. Qed.

(** X14.  The average of a variable over records whose value is between 1 and 5
    is between 1 and 5. *)
Theorem mean_score_on_scale (k : variable) (data : list DataItem) :
  data <> [] -> Z.of_nat (length data) < 2 ^ 32 ->
  Forall (fun d => on_scale (field k d)) data ->
  on_scale (mean_score k data).
Proof.
  intros Hne Hlen Hall. unfold mean_score.
  assert (H0 : (inject_Z (Z.of_nat 0) <= 0 <= 5 * inject_Z (Z.of_nat 0))%Q).
  { split; vm_compute; discriminate. }
  destruct (mean_fold_bounds k data 0 0 Hlen H0 Hall) as (s & -> & Hs).
  rewrite Nat.add_0_l in Hs.
  set (n := Z.of_nat (length data)) in *.
  assert (Hn : 1 <= n) by (subst n; destruct data; [done|simpl; lia]).
  assert (Hnq : (1 <= inject_Z n)%Q) by (by rewrite <- (Zle_Qle 1)).
  assert (H32 : (inject_Z n <= inject_Z (2 ^ 32))%Q) by (rewrite <- Zle_Qle; lia).
  unfold js_div.
  replace (Qeq_bool (inject_Z n) 0) with false.
  2:{ symmetry. apply not_true_is_false. intros E. apply Qeq_bool_iff in E. lra. }
  assert (Hdiv : (1 <= s / inject_Z n <= 5)%Q).
  { split.
    - apply Qle_shift_div_l; lra.
    - apply Qle_shift_div_r; lra. }
  rewrite overflow_small by lra.
  eexists. split; [reflexivity|]. by rewrite Qred_correct.
Qed.

Lemma mean_score_on_scale_witness :
  on_scale (mean_score Alienation [synthetic_item; synthetic_item]).
Proof.
  apply mean_score_on_scale; [discriminate|reflexivity|].
  assert (H : on_scale (Fin 1)).
  { exists 1%Q. split; [reflexivity|split; discriminate]. }
  constructor; [exact H|]. constructor; [exact H|]. constructor.
Defined.

Lemma filter_partition_length {A : Type} (f : A -> bool) (l : list A) :
  (length (List.filter f l) + length (List.filter (fun a => negb (f a)) l)
   = length l)%nat.
Proof. induction l as [|a l IH]; simpl; [done|]. destruct (f a); simpl; lia. Qed.

(** X15.  The pairs the overview counts as significant and the pairs the amber
    box lists are all the pairs: six with records, none without. *)
Theorem significant_and_insignificant (data : list DataItem) :
  (significantCount (dashboard_correlations data)
   + length (insignificant (dashboard_correlations data))
   = length (dashboard_correlations data))%nat
  /\ length (dashboard_correlations data)
     = (if decide (data = []) then 0 else 6)%nat.
Proof.
  split; [apply filter_partition_length|].
  destruct data as [|d data]; [reflexivity|].
  rewrite dashboard_correlations_nonempty by done.
  rewrite matrix_length. by destruct (decide _).
Qed.

(** ** The heat map *)

Lemma find_unique {A : Type} (p : A -> bool) (l l' : list A) (e : A) :
  l ≡ₚ l' -> e ∈ l' -> p e = true ->
  (forall e', e' ∈ l' -> p e' = true -> e' = e) ->
  List.find p l = Some e.
Proof.
  intros Hp He Hpe Huniq. destruct (List.find p l) as [x|] eqn:E.
  - apply find_some in E as [Hin Hx]. f_equal. apply Huniq; [|done].
    rewrite <- Hp. by apply list_elem_of_In.
  - pose proof (find_none _ _ E e) as Hn.
    rewrite Hn in Hpe; [done|]. apply list_elem_of_In. by rewrite Hp.
Qed.

Lemma labelled_matrix_item (l1 l2 : string) (data : list DataItem) (a b : nat) :
  labelled l1 l2 (matrix_item data a b)
  = (String.eqb (nth a labels EmptyString) l1
     && String.eqb (nth b labels EmptyString) l2)
    || (String.eqb (nth a labels EmptyString) l2
        && String.eqb (nth b labels EmptyString) l1).
Proof. reflexivity. Qed.

Lemma getCorrelation_entry (data : list DataItem) (a b : nat) (l1 l2 : string) :
  (a < b < 4)%nat ->
  (l1 = nth a labels EmptyString /\ l2 = nth b labels EmptyString)
  \/ (l1 = nth b labels EmptyString /\ l2 = nth a labels EmptyString) ->
  getCorrelation (calculateCorrelationMatrix data) l1 l2
  = (correlation (matrix_item data a b), significant (matrix_item data a b)).
Proof.
  intros Hab Hl. unfold getCorrelation.
  assert (Hfind : List.find (labelled l1 l2) (calculateCorrelationMatrix data)
                  = Some (matrix_item data a b)).
  { apply (find_unique _ _ (unsorted_matrix data)); [apply matrix_perm|..].
    - rewrite unsorted_matrix_unfold.
      destruct a as [|[|[|a]]], b as [|[|[|[|b]]]]; try lia;
        rewrite !elem_of_cons; tauto.
    - rewrite labelled_matrix_item.
      destruct a as [|[|[|a]]], b as [|[|[|[|b]]]]; try lia;
        destruct Hl as [[-> ->]|[-> ->]]; reflexivity.
    - intros e' He' Hp. rewrite unsorted_matrix_unfold in He'.
      repeat (apply elem_of_cons in He' as [->|He']; [
        rewrite labelled_matrix_item in Hp;
        destruct a as [|[|[|a]]], b as [|[|[|[|b]]]]; try lia;
          destruct Hl as [[-> ->]|[-> ->]];
          first [reflexivity|discriminate Hp] |]).
      by apply elem_of_nil in He'. }
  rewrite Hfind.
  replace (String.eqb l1 l2) with false; [done|].
  symmetry.
  destruct a as [|[|[|a]]], b as [|[|[|[|b]]]]; try lia;
    destruct Hl as [[-> ->]|[-> ->]]; reflexivity.
Qed.

Lemma getCorrelation_comm (correlations : list CorrelationItem) (l1 l2 : string) :
  getCorrelation correlations l1 l2 = getCorrelation correlations l2 l1.
Proof.
  unfold getCorrelation. rewrite (String.eqb_sym l1 l2).
  destruct (String.eqb l2 l1); [done|].
  assert (H : forall l, List.find (labelled l1 l2) l = List.find (labelled l2 l1) l).
  { induction l as [|c l IH]; [done|]. cbn [List.find].
    unfold labelled at 1 3. rewrite orb_comm. fold (labelled l2 l1 c).
    by rewrite IH. }
  by rewrite H.
Qed.

(** X16.  Every cell of the heat map off the diagonal shows the entry of its two
    variables, whichever is the row, and never the default of a pair not
    found; a cell on the diagonal shows 1. *)
Theorem heat_map_lookup (data : list DataItem) (a b : nat) :
  (a < b < 4)%nat ->
  let e := matrix_item data a b in
  let la := nth a labels EmptyString in
  let lb := nth b labels EmptyString in
  getCorrelation (calculateCorrelationMatrix data) la lb
  = (correlation e, significant e)
  /\ getCorrelation (calculateCorrelationMatrix data) lb la
     = (correlation e, significant e)
  /\ getCorrelation (calculateCorrelationMatrix data) la la = (Fin 1, true).
Proof.
  intros Hab e la lb. split; [|split].
  - apply getCorrelation_entry; [done|]. by left.
  - apply getCorrelation_entry; [done|]. by right.
  - unfold getCorrelation. by rewrite String.eqb_refl.
Qed.

Lemma heat_map_lookup_witness :
  getCorrelation (calculateCorrelationMatrix boundary_data)
    "Ketergantungan Psikologis" "Intensitas Digital"
  = (Fin (1 # 4), false).
Proof.
  pose proof (heat_map_lookup boundary_data 0 1 ltac:(lia)) as H.
  cbv zeta in H. destruct H as (_ & H & _).
  etransitivity; [exact H|]. vm_compute. reflexivity.
Defined.

Lemma stored_one_significant (v : number) :
  js_strict_eq (parseFloat_toFixed 3 v) (Fin 1) = true ->
  js_ge (js_abs v) significance_threshold = true.
Proof.
  intros H. apply round_above_threshold.
  destruct (parseFloat_toFixed 3 v) as [q| | |]; try done.
  simpl in H. apply Qeq_bool_iff in H. simpl.
  apply negb_true_iff, Qle_bool_false. rewrite Qred_correct, H. done.
Qed.

Lemma getColor_of_coefficient (v : number) :
  let stored := parseFloat_toFixed 3 v in
  let sig := js_ge (js_abs v) significance_threshold in
  (getColor stored sig = gray <-> sig = false)
  /\ getColor stored sig <> "bg-emerald-100 text-emerald-700"%string.
Proof.
  intros stored sig.
  destruct sig eqn:Esig.
  - pose proof (round_keeps_threshold v Esig) as Hs. fold stored in Hs.
    unfold getColor. cbn [negb andb].
    destruct (js_strict_eq stored (Fin 1)); [by split|].
    destruct (js_ge stored (Fin (1 # 2))); [by split|].
    destruct (js_ge stored (Fin (1 # 4))) eqn:E4; [by split|].
    destruct (js_ge stored (Fin 0)) eqn:E0.
    { exfalso. destruct stored as [q| | |]; try done. simpl in *.
      apply Qle_bool_iff in E0, Hs. apply Qle_bool_false in E4.
      rewrite Qred_correct, Qabs_pos in Hs by done. lra. }
    destruct (js_ge stored (Fin (- (1 # 4)))); [by split|].
    destruct (js_ge stored (Fin (- (1 # 2)))); by split.
  - assert (H1 : js_strict_eq stored (Fin 1) = false).
    { apply not_true_is_false. intros H.
      apply stored_one_significant in H. unfold sig in Esig. congruence. }
    unfold getColor. rewrite H1. by split.
Qed.

(** X17.  A cell of an entry of the matrix is gray exactly when the entry is not
    significant, and no entry is ever shown in the faint green of a
    positive coefficient below 0.25. *)
Theorem entry_color (data : list DataItem) (e : CorrelationItem) :
  e ∈ calculateCorrelationMatrix data ->
  (getColor (correlation e) (significant e) = gray <-> significant e = false)
  /\ getColor (correlation e) (significant e)
     <> "bg-emerald-100 text-emerald-700"%string.
Proof.
  intros He. apply matrix_elem in He as (i & j & _ & ->).
  cbn [correlation significant matrix_item].
  apply getColor_of_coefficient.
Qed.

Lemma entry_color_witness :
  getColor (correlation (matrix_item boundary_data 0 1))
           (significant (matrix_item boundary_data 0 1)) = gray.
Proof.
  pose proof (entry_color boundary_data (matrix_item boundary_data 0 1)) as H.
  destruct H as ((_ & H) & _).
  - rewrite matrix_perm, unsorted_matrix_unfold. left.
  - apply H. vm_compute. reflexivity.
Defined.

(** ** Loading *)

(** X18.  After the load the dashboard is no longer loading, and it has records
    exactly when it has no error; with records it has six correlations. *)
Theorem load_records_or_error (outcome : fetch_outcome) :
  let s := fetchData outcome initial_state in
  state_loading s = false
  /\ (state_error s = None <-> state_data s <> [])
  /\ (state_error s = None ->
      length (dashboard_correlations (state_data s)) = 6%nat).
Proof.
  destruct outcome as [message|[|] text]; cbn [fetchData].
  - repeat split; first [done|by intros []].
  - destruct (parseCSVData text) as [|d l] eqn:E; cbv zeta;
      cbn [length Nat.ltb Nat.leb state_data state_loading state_error failed
           initial_state].
    + repeat split; first [done|by intros []].
    + repeat split; try done.
      intros _. rewrite dashboard_correlations_nonempty by done.
      apply matrix_length.
  - repeat split; first [done|by intros []].
Qed.

Lemma load_records_or_error_witness :
  length (dashboard_correlations
            (state_data (fetchData (Responded true example_csv) initial_state)))
  = 6%nat.
Proof.
  pose proof (load_records_or_error (Responded true example_csv)) as H.
  cbv zeta in H. destruct H as (_ & _ & H). apply H. reflexivity.
Defined.

(** X19.  A text without a line after the first, an empty text included, ends
    the load with the message of the empty file. *)
Theorem load_header_only (text : string) :
  no_char newline text = true ->
  fetchData (Responded true text) initial_state
  = failed "Data CSV kosong atau format salah." initial_state.
Proof.
  intros Hn. unfold fetchData, parseCSVData, data_lines.
  assert (Ht : no_char newline (trim text) = true).
  { unfold trim. clear -Hn.
    assert (H : forall s, no_char newline s = true ->
                          no_char newline (trimEnd s) = true).
    { induction s as [|c s IH]; [done|]. cbn [no_char trimEnd].
      intros [Hc Hs]%andb_true_iff. specialize (IH Hs).
      destruct (trimEnd s) as [|c' s'].
      - destruct (is_white c); [done|]. cbn. by rewrite Hc.
      - cbn [no_char] in IH |- *. by rewrite Hc, IH. }
    by apply H, no_char_trimStart. }
  by rewrite (split_line_single _ Ht).
Qed.

Lemma load_header_only_witness :
  state_error (fetchData (Responded true "id,a,b,c") initial_state)
  = Some "Data CSV kosong atau format salah."%string.
Proof. by rewrite load_header_only. Defined.

(** ** The stored coefficient *)

(** Rounding moves a number by at most half a unit of the last digit. *)
Lemma round_half_away_error (digits : nat) (q : Q) :
  let s := inject_Z (10 ^ Z.of_nat digits) in
  (- (1 # 2) <= (round_half_away digits q - q) * s <= 1 # 2)%Q.
Proof.
  intros s. unfold round_half_away. fold s.
  assert (Hs : (0 < s)%Q).
  { unfold s. rewrite <- (Zlt_Qlt 0). apply Z.pow_pos_nonneg; lia. }
  set (x := (Qabs q * s + (1 # 2))%Q).
  pose proof (Qfloor_le x) as H1. pose proof (Qlt_floor x) as H2.
  rewrite inject_Z_plus in H2. change (inject_Z 1) with 1%Q in H2.
  set (m := inject_Z (Qfloor x)) in *.
  assert (Hm : (m / s * s == m)%Q) by (field; lra).
  destruct (Qle_bool 0 q) eqn:E.
  - apply Qle_bool_iff in E. unfold x in *. rewrite (Qabs_pos q E) in *.
    split; nra.
  - apply Qle_bool_false in E. unfold x in *.
    rewrite (Qabs_neg q) in * by lra. split; nra.
Qed.

Lemma round_half_away_unit (digits : nat) (q : Q) :
  (-1 <= q <= 1)%Q -> (-1 <= round_half_away digits q <= 1)%Q.
Proof.
  intros Hq.
  cut (Qabs (round_half_away digits q) <= 1)%Q.
  { intros H. apply Qabs_Qle_condition in H. exact H. }
  rewrite Qabs_round_half_away.
  set (s := inject_Z (10 ^ Z.of_nat digits)).
  assert (Hs : 0 < 10 ^ Z.of_nat digits) by (apply Z.pow_pos_nonneg; lia).
  assert (Hsq : (0 < s)%Q) by (unfold s; by rewrite <- (Zlt_Qlt 0)).
  apply Qle_shift_div_r; [done|]. rewrite Qmult_1_l. unfold s.
  rewrite <- Zle_Qle. apply Z.lt_succ_r. rewrite Zlt_Qlt.
  eapply Qle_lt_trans; [apply Qfloor_le|].
  unfold Z.succ. rewrite inject_Z_plus. change (inject_Z 1) with 1%Q. fold s.
  assert (Ha : (Qabs q <= 1)%Q) by (apply Qabs_Qle_condition; exact Hq).
  pose proof (Qabs_nonneg q). nra.
Qed.

Lemma spearman_fin_range (x y : list number) :
  length x = length y -> length x <> 1%nat ->
  exists c, spearmanCorrelation x y = Fin c /\ (-1 <= c <= 1)%Q.
Proof.
  intros Hl Hn. destruct (decide (length x = 0%nat)) as [H0|H0].
  - exists 0%Q. split; [apply spearman_guard; by right|done].
  - eexists. split; [apply spearman_eq_rho_exact; [done|lia]|].
    rewrite Qred_correct. apply rho_exact_bounds; [done|lia].
Qed.

(** Up to magnitude 1 the unit in the last place is at most [2^-52]. *)
Lemma ulp_unit (q : Q) : (Qabs q <= 1)%Q -> (ulp q <= 1 # 4503599627370496)%Q.
Proof.
  intros Hq.
  assert (He : exponent q <= 0).
  { unfold exponent. apply Z.max_lub; [|lia].
    destruct (Qlt_le_dec 0 (Qabs q)) as [Hp|Hz].
    - destruct (Qlog2_spec _ Hp) as [H1 _].
      destruct (Z_le_gt_dec (Qlog2 (Qabs q)) 0) as [|Hg]; [done|exfalso].
      pose proof (pow2_le 1 (Qlog2 (Qabs q)) ltac:(lia)) as H2.
      change (2 ^ 1)%Q with 2%Q in H2.
      set (t := (2 ^ Qlog2 (Qabs q))%Q) in *. clearbody t. lra.
    - destruct q as [a b]. unfold Qabs in *. unfold Qle in Hz. simpl in Hz.
      assert (Ha : Z.abs a = 0) by lia. rewrite Ha.
      unfold Qlog2. cbn [Qnum Qden]. change (Z.log2 0) with 0.
      pose proof (Z.log2_nonneg (Z.pos b)).
      destruct (Qle_bool _ _); lia. }
  unfold ulp.
  apply (Qle_trans _ (2 ^ (-52))); [apply pow2_le; lia|done].
Qed.

(** X20.  With other than one item, and up to 300079, the stored
    coefficient [parseFloat(corr.toFixed(3))] is the binary64 value of a
    number [m / 1000] of three decimals that is within 0.0005 of the
    coefficient; it is between -1 and 1 and within [2^-53] of
    [m / 1000]. *)
Theorem stored_coefficient (x y : list number) :
  length x = length y -> length x <> 1%nat ->
  Z.of_nat (length x) <= 300079 ->
  exists (c q : Q) (m : Z),
    Binary64.spearmanCorrelation x y = Fin c
    /\ Binary64.parseFloat_toFixed 3 (Fin c) = Fin q
    /\ -1000 <= m <= 1000
    /\ (- (1 # 2000) <= (m # 1000) - c <= 1 # 2000)%Q
    /\ (q == binary64 (m # 1000))%Q
    /\ (-1 <= q <= 1)%Q
    /\ (Qabs (q - (m # 1000)) <= 1 # 9007199254740992)%Q.
Proof.
  intros Hl H1 Hn.
  assert (Hc : exists c, Binary64.spearmanCorrelation x y = Fin c
                         /\ (-1 <= c <= 1)%Q).
  { destruct (decide (length x = 0%nat)) as [H0|H0].
    - exists 0%Q. split; [apply binary64_spearman_guard; by right|done].
    - destruct (binary64_spearman_eq x y Hl ltac:(lia)) as [-> Hb].
      eexists. split; [reflexivity|]. by rewrite Qred_correct. }
  destruct Hc as (c & -> & Hc).
  set (r := round_half_away 3 c).
  assert (Hr : (-1 <= r <= 1)%Q) by (by apply round_half_away_unit).
  assert (Hm : exists m : Z, (r == m # 1000)%Q).
  { unfold r, round_half_away.
    change (inject_Z (10 ^ Z.of_nat 3)) with 1000%Q.
    set (m := Qfloor (Qabs c * 1000 + (1 # 2))).
    destruct (Qle_bool 0 c).
    + exists m. rewrite (Qmake_Qdiv m 1000). reflexivity.
    + exists (- m). rewrite (Qmake_Qdiv (- m) 1000), inject_Z_opp.
      change (inject_Z (Z.pos 1000)) with 1000%Q. field. }
  destruct Hm as [m Hm].
  assert (Hs : parseFloat_toFixed 3 (Fin c) = Fin (Qred r)).
  { unfold parseFloat_toFixed.
    replace (Qle_bool (inject_Z (10 ^ 21)) (Qabs c)) with false; [done|].
    symmetry. apply Qle_bool_false.
    assert (Ha : (Qabs c <= 1)%Q) by (apply Qabs_Qle_condition; exact Hc).
    assert (H21 : (100 <= inject_Z (10 ^ 21))%Q) by (vm_compute; discriminate).
    lra. }
  assert (Hs' : Binary64.parseFloat_toFixed 3 (Fin c)
                = Fin (Qred (binary64 (Qred r)))).
  { unfold Binary64.parseFloat_toFixed. rewrite Hs.
    apply to_binary64_small. rewrite Qred_correct. lra. }
  assert (Hq : (Qred (binary64 (Qred r)) == binary64 (m # 1000))%Q).
  { rewrite Qred_correct. apply binary64_comp. by rewrite Qred_correct. }
  assert (Hm1 : (-1 <= m # 1000 <= 1)%Q) by (by rewrite <- Hm).
  exists c, (Qred (binary64 (Qred r))), m.
  split; [done|]. split; [done|]. split.
  { destruct Hm1 as [Ha Hb]. unfold Qle in Ha, Hb. simpl in Ha, Hb. lia. }
  split.
  { rewrite <- Hm. pose proof (round_half_away_error 3 c) as He. cbv zeta in He.
    change (inject_Z (10 ^ Z.of_nat 3)) with 1000%Q in He. fold r in He. lra. }
  split; [done|]. split.
  { rewrite Hq.
    assert (H1' : (binary64 1 == 1)%Q) by apply (binary64_Z 1 ltac:(lia)).
    assert (Hm1' : (binary64 (-1) == -1)%Q) by apply (binary64_Z (-1) ltac:(lia)).
    split.
    - apply (Qle_trans _ (binary64 (-1))); [by rewrite Hm1'|].
      apply binary64_mono. lra.
    - apply (Qle_trans _ (binary64 1)); [|by rewrite H1'].
      apply binary64_mono. lra. }
  assert (He : (Qabs (binary64 (m # 1000) - (m # 1000))
                <= (1 # 2) * ulp (m # 1000))%Q) by apply binary64_error.
  assert (Hu : (ulp (m # 1000) <= 1 # 4503599627370496)%Q).
  { apply ulp_unit. by apply Qabs_Qle_condition. }
  assert (Hd : (Qabs (Qred (binary64 (Qred r)) - (m # 1000))
                == Qabs (binary64 (m # 1000) - (m # 1000)))%Q).
  { by rewrite Hq. }
  rewrite Hd.
  eapply Qle_trans; [exact He|].
  set (u := ulp (m # 1000)) in *. clearbody u. lra.
Qed.

Lemma stored_coefficient_witness :
  exists (c q : Q) (m : Z),
    Binary64.spearmanCorrelation [Fin 1; Fin 3; Fin 2] [Fin 2; Fin 3; Fin 1]
    = Fin c
    /\ Binary64.parseFloat_toFixed 3 (Fin c) = Fin q
    /\ -1000 <= m <= 1000
    /\ (- (1 # 2000) <= (m # 1000) - c <= 1 # 2000)%Q
    /\ (q == binary64 (m # 1000))%Q
    /\ (-1 <= q <= 1)%Q
    /\ (Qabs (q - (m # 1000)) <= 1 # 9007199254740992)%Q.
Proof.
  refine (stored_coefficient [Fin 1; Fin 3; Fin 2] [Fin 2; Fin 3; Fin 1] _ _ _).
  - reflexivity.
  - discriminate.
  - simpl. lia.
Defined.

(** ** One record *)

(** X21.  With one record every entry has the coefficient NaN and none is
    significant; the entries are in the order of the enumeration and the
    overview counts none of six as significant. *)
Theorem matrix_of_one_record (d : DataItem) :
  calculateCorrelationMatrix [d] = unsorted_matrix [d]
  /\ Forall (fun e => correlation e = NaN /\ significant e = false)
            (calculateCorrelationMatrix [d])
  /\ significantCount (dashboard_correlations [d]) = 0%nat
  /\ length (insignificant (dashboard_correlations [d])) = 6%nat.
Proof.
  assert (H : calculateCorrelationMatrix [d] = unsorted_matrix [d]) by reflexivity.
  split; [done|]. split; [|split; reflexivity].
  rewrite H, unsorted_matrix_unfold. repeat constructor.
Qed.

(** ** The variant with the boldness column *)

Lemma num_of_Z_integral (z : Z) : integral (num_of_Z z).
Proof.
  unfold num_of_Z, overflow.
  destruct (Qle_bool _ _); [exact I|]. destruct (Qle_bool _ _); [exact I|].
  exists z. unfold Qred, inject_Z.
  pose proof (Z.ggcd_correct_divisors z 1) as D.
  pose proof (Z.ggcd_gcd z 1) as G. rewrite Z.gcd_1_r in G.
  destruct (Z.ggcd z 1) as [g [aa bb]]. simpl in G. subst g.
  destruct D as [-> D]. rewrite Z.mul_1_l in D. subst bb.
  by rewrite Z.mul_1_l.
Qed.

Lemma parseInt_integral (s : string) :
  parseInt s = NaN \/ integral (parseInt s).
Proof.
  unfold parseInt.
  destruct (match trimStart s with
            | String "-" r => (true, r)
            | String "+" r => (false, r)
            | _ => (false, trimStart s)
            end) as [negative r].
  destruct (match r with
            | String "0" (String "x" r') | String "0" (String "X" r') => (16, r')
            | _ => (10, r)
            end) as [radix r'].
  destruct (read_digits radix None r'); [right|by left].
  apply num_of_Z_integral.
Qed.

Lemma getVal_integral (values : list string) (idx : nat) :
  integral (getVal values idx).
Proof.
  unfold getVal.
  destruct (parseInt_integral (element_string values idx)) as [-> | H].
  - by exists 0.
  - destruct (parseInt _) as [q| | |]; simpl in *; try done.
    destruct (Qeq_bool q 0); [by exists 0|done].
Qed.

Lemma without_boldness_parse_line (index : nat) (line : string) :
  without_boldness (Variant.parse_line index line) = parse_line index line.
Proof. reflexivity. Qed.

(** X22.  The variant computes the records of the main dashboard: it keeps
    the same lines and gives them the same identifier, scores and usage
    group, and the boldness it adds is an integer or an infinity, never
    NaN. *)
Theorem variant_records (csvText : string) :
  without_boldness <$> Variant.parseCSVData csvText = parseCSVData csvText
  /\ Forall (fun d => integral (Variant.boldness d))
            (Variant.parseCSVData csvText).
Proof.
  unfold Variant.parseCSVData, parseCSVData. cbv zeta. split.
  - generalize (data_lines csvText) as lines.
    assert (G : forall (f : nat -> string -> Variant.DataItem)
                       (g : nat -> string -> DataItem) lines,
               (forall i l, without_boldness (f i l) = g i l) ->
               without_boldness
                 <$> List.filter (fun d => negb (isNaN (Variant.intensity d)))
                       (imap f lines)
               = List.filter (fun d => negb (isNaN (intensity d)))
                   (imap g lines)).
    { intros f g lines. revert f g.
      induction lines as [|l lines IH]; intros f g E; [done|].
      cbn [imap List.filter]. rewrite <- (E 0%nat l). cbn [without_boldness intensity].
      destruct (negb _); csimpl; rewrite (IH _ (g ∘ S)); try done;
        intros; apply E. }
    intros lines. by apply G.
  - apply Forall_forall. intros d Hd.
    apply list_elem_of_In, filter_In in Hd as [Hd _].
    apply list_elem_of_In, elem_of_lookup_imap in Hd as (i & l & -> & _).
    apply getVal_integral.
Qed.

(** ** The ranking list *)

Lemma coefficient_class_of_coefficient (v : number) :
  let stored := parseFloat_toFixed 3 v in
  let sig := js_ge (js_abs v) significance_threshold in
  (sig = true -> coefficient_class stored = "text-slate-400"%string ->
   js_strict_eq stored (Fin (- (1 # 4))) = true)
  /\ (sig = false ->
      coefficient_class stored = "text-slate-400"%string
      \/ (coefficient_class stored = "text-emerald-500"%string
          /\ js_strict_eq stored (Fin (1 # 4)) = true)
      \/ (coefficient_class stored = "text-red-500"%string /\ stored = NaN)).
Proof.
  intros stored sig. split; intros Hsig.
  - pose proof (round_keeps_threshold v Hsig) as Hs. fold stored in Hs.
    destruct stored as [q| | |]; try done.
    unfold coefficient_class. simpl in Hs |- *.
    apply Qle_bool_iff in Hs. rewrite Qred_correct in Hs.
    destruct (Qle_bool (1 # 2) q); [done|].
    destruct (Qle_bool (1 # 4) q) eqn:E4; [done|].
    apply Qle_bool_false in E4.
    destruct (Qle_bool 0 q) eqn:E0.
    { apply Qle_bool_iff in E0. rewrite Qabs_pos in Hs by done. lra. }
    apply Qle_bool_false in E0. rewrite Qabs_neg in Hs by lra.
    destruct (Qle_bool (- (1 # 4)) q) eqn:E; [|done].
    apply Qle_bool_iff in E. intros _. apply Qeq_bool_iff. lra.
  - assert (Hs : js_gt (js_abs stored) significance_threshold = false).
    { apply not_true_is_false. intros H.
      apply round_above_threshold in H. unfold sig in Hsig. congruence. }
    destruct stored as [q| | |] eqn:Es; try done.
    + unfold coefficient_class. simpl in Hs |- *.
      apply negb_false_iff, Qle_bool_iff in Hs. rewrite Qred_correct in Hs.
      apply Qabs_Qle_condition in Hs.
      destruct (Qle_bool (1 # 2) q) eqn:E2.
      { apply Qle_bool_iff in E2. lra. }
      destruct (Qle_bool (1 # 4) q) eqn:E4.
      { apply Qle_bool_iff in E4. right. left. split; [done|].
        apply Qeq_bool_iff. lra. }
      destruct (Qle_bool 0 q); [by left|].
      destruct (Qle_bool (- (1 # 4)) q) eqn:E; [by left|].
      apply Qle_bool_false in E. lra.
    + right. right. done.
Qed.

(** X23.  In the ranking list an entry that is not significant is shown in
    slate, except that one whose stored coefficient is exactly 0.25 is
    green and that every entry of a single record is red; a significant
    entry is shown in slate only when its stored coefficient is exactly
    -0.25. *)
Theorem ranking_color (data : list DataItem) (e : CorrelationItem) :
  e ∈ calculateCorrelationMatrix data ->
  (significant e = true ->
   coefficient_class (correlation e) = "text-slate-400"%string ->
   js_strict_eq (correlation e) (Fin (- (1 # 4))) = true)
  /\ (significant e = false ->
      coefficient_class (correlation e) = "text-slate-400"%string
      \/ (coefficient_class (correlation e) = "text-emerald-500"%string
          /\ js_strict_eq (correlation e) (Fin (1 # 4)) = true)
      \/ (coefficient_class (correlation e) = "text-red-500"%string
          /\ length data = 1%nat)).
Proof.
  intros He. apply matrix_elem in He as (i & j & _ & ->).
  cbn [correlation significant matrix_item].
  set (x := map (field (nth i variables Intensity)) data).
  set (y := map (field (nth j variables Intensity)) data).
  destruct (coefficient_class_of_coefficient (spearmanCorrelation x y))
    as [H1 H2].
  split; [exact H1|]. intros Hsig.
  destruct (H2 Hsig) as [H|[H|[H Hnan]]]; [by left|by right; left|].
  right. right. split; [exact H|].
  destruct (decide (length data = 1%nat)) as [|Hn]; [done|exfalso].
  destruct (spearman_fin_range x y) as (c & Hc & _).
  { unfold x, y. by rewrite !length_map. }
  { unfold x. by rewrite length_map. }
  rewrite Hc in Hnan. unfold parseFloat_toFixed in Hnan.
  by destruct (Qle_bool _ _).
Qed.

Lemma ranking_color_witness :
  coefficient_class (correlation (matrix_item boundary_data 0 1))
  = "text-emerald-500"%string.
Proof.
  pose proof (ranking_color boundary_data (matrix_item boundary_data 0 1)) as H.
  destruct H as (_ & H).
  - rewrite matrix_perm, unsorted_matrix_unfold. left.
  - destruct H as [H|[[H _]|[_ H]]].
    + vm_compute. reflexivity.
    + vm_compute in H. discriminate H.
    + exact H.
    + vm_compute in H. discriminate H.
Defined.
